(** * PrivateDonationMatching: a shallow embedding of the contract and its
      encrypted accounting

    The Solidity contract [PrivateDonationMatching] is embedded as a set of
    transactions in a state-and-revert monad over a world made of the
    contract storage, the state of the FHE backend (ciphertext handles,
    their plaintexts, and the decrypt grants of the access control list) and
    the event log. *)

From Stdlib Require Import ZArith Lia.
From stdpp Require Import gmap strings list.

Open Scope Z_scope.
#[local] Set Warnings "-clear-no-such-hyp".

(** ** Machine integers *)

Definition MAX_UINT256 : Z := 2 ^ 256 - 1.
Definition MAX_UINT64 : Z := 2 ^ 64 - 1.

(** Arithmetic on encrypted 64-bit integers wraps around. *)
Definition wrap64 (z : Z) : Z := z mod 2 ^ 64.

(** ** Reverts *)

(** A failed call either reverts with the reason string of a [require],
    panics (checked arithmetic, array index), or is rejected by the backend
    while ingesting an encrypted input. *)
Inductive Failure :=
| Revert (reason : string)
| Panic (code : Z)
| InvalidProof.

Definition PANIC_ARITHMETIC : Z := 17.
Definition PANIC_ARRAY_INDEX : Z := 50.

(** The error taxonomy of the specification, as the reason strings the
    contract reverts with. *)
Definition NotFound : Failure := Revert "Invalid round ID".
Definition AlreadySettled : Failure := Revert "Round already settled".
Definition RoundEnded : Failure := Revert "Round has ended".
Definition RoundNotEnded : Failure := Revert "Round not ended".
Definition DuplicateDonation : Failure := Revert "Already donated to this round".
Definition DuplicateCommitment : Failure := Revert "Already committed matching".
Definition InvalidArgument (e : Failure) : Prop :=
  e = Revert "Round name cannot be empty" \/ e = Revert "Duration must be positive".

(** ** The FHE backend *)

(** Modelled from the spec: the state of the cryptographic backend, which
    is an imported library and not part of the repository. A ciphertext is
    known to the contract by its handle. Handle [0] is the uninitialised
    handle; handle [S i] is the [i]-th ciphertext the backend produced.
    Decrypt grants are pairs of a handle and an address; they are only ever
    added. *)
Record Backend := mkBackend {
  plain : list Z;
  acl : gset (nat * Z)
}.

Definition fresh (b : Backend) : nat := S (length (plain b)).

Definition decrypt (b : Backend) (h : nat) : option Z :=
  match h with
  | O => None
  | S i => plain b !! i
  end.

(** An uninitialised operand counts as zero. *)
Definition cleartext (b : Backend) (h : nat) : Z := default 0 (decrypt b h).

Definition extend (v : Z) (b : Backend) : Backend :=
  {| plain := plain b ++ [v]; acl := acl b |}.

Definition alloc (v : Z) (b : Backend) : nat * Backend :=
  (fresh b, extend v b).

Definition grant (h : nat) (a : Z) (b : Backend) : Backend :=
  {| plain := plain b; acl := {[ (h, a) ]} ∪ acl b |}.

Definition grant_all (h : nat) (addrs : list Z) (b : Backend) : Backend :=
  foldl (fun b a => grant h a b) b addrs.


(** Modelled from the spec: the operations of the cryptographic backend
    (the FHE library the contract imports), which is not part of the
    repository. Every operation yields a ciphertext with a new identity whose
    plaintext is the result of the plaintext operation on 64-bit unsigned
    integers; a grant is additive and attached to one handle; ingestion of an
    external input is decided by the backend's verifier, which binds the
    input to the contract and to the submitting address. *)
Module FHE.

Definition asEuint64 (v : Z) (b : Backend) : nat * Backend :=
  alloc (wrap64 v) b.

Definition add (x y : nat) (b : Backend) : nat * Backend :=
  alloc (wrap64 (cleartext b x + cleartext b y)) b.

Definition ge (x y : nat) (b : Backend) : nat * Backend :=
  alloc (if cleartext b y <=? cleartext b x then 1 else 0) b.

Definition select (c x y : nat) (b : Backend) : nat * Backend :=
  alloc (if cleartext b c =? 0 then cleartext b y else cleartext b x) b.

Definition allow (h : nat) (a : Z) (b : Backend) : unit * Backend :=
  (tt, grant h a b).

Definition allowThis (this : Z) (h : nat) (b : Backend) : nat * Backend :=
  (h, grant h this b).

Definition fromExternal (verify : Z -> Z -> Z -> list Z -> option Z)
    (this sender : Z) (input : Z) (inputProof : list Z) (b : Backend)
  : option (nat * Backend) :=
  match verify this sender input inputProof with
  | Some v => Some (alloc (wrap64 v) b)
  | None => None
  end.

End FHE.

(** ** Contract storage *)

Module Donation.
Record t := mk {
  donor : Z;
  amount : nat;
  timestamp : Z;
  roundId : Z
}.
End Donation.

Module MatchingCommitment.
Record t := mk {
  matcher : Z;
  maxMatchingAmount : nat;
  minTrigger : nat;
  roundId : Z;
  timestamp : Z;
  isActive : bool
}.
End MatchingCommitment.

Module DonationRound.
Record t := mk {
  id : Z;
  name : string;
  description : string;
  startTime : Z;
  endTime : Z;
  settled : bool;
  encryptedCommunityTotal : nat;
  encryptedMatchingTotal : nat;
  encryptedFinalTotal : nat;
  publicFinalTotal : Z
}.

(** The value a mapping holds at a key never written. *)
Definition zero : t := mk 0 "" "" 0 0 false 0%nat 0%nat 0%nat 0.

Definition set_settled (v : bool) (r : t) : t :=
  mk (id r) (name r) (description r) (startTime r) (endTime r) v
     (encryptedCommunityTotal r) (encryptedMatchingTotal r)
     (encryptedFinalTotal r) (publicFinalTotal r).

Definition set_encryptedCommunityTotal (v : nat) (r : t) : t :=
  mk (id r) (name r) (description r) (startTime r) (endTime r) (settled r)
     v (encryptedMatchingTotal r) (encryptedFinalTotal r) (publicFinalTotal r).

Definition set_encryptedMatchingTotal (v : nat) (r : t) : t :=
  mk (id r) (name r) (description r) (startTime r) (endTime r) (settled r)
     (encryptedCommunityTotal r) v (encryptedFinalTotal r) (publicFinalTotal r).

Definition set_encryptedFinalTotal (v : nat) (r : t) : t :=
  mk (id r) (name r) (description r) (startTime r) (endTime r) (settled r)
     (encryptedCommunityTotal r) (encryptedMatchingTotal r) v (publicFinalTotal r).
End DonationRound.

Record Storage := mkStorage {
  roundCounter : Z;
  rounds : gmap Z DonationRound.t;
  roundDonations : gmap Z (list Donation.t);
  roundMatchingCommitments : gmap Z (list MatchingCommitment.t);
  hasDonated : gmap (Z * Z) bool;
  hasCommittedMatching : gmap (Z * Z) bool
}.

Inductive Event :=
| DonationRoundCreated (roundId : Z) (name : string) (endTime : Z)
| DonationMade (roundId : Z) (donor : Z) (timestamp : Z)
| MatchingCommitted (roundId : Z) (matcher : Z) (timestamp : Z)
| RoundSettled (roundId : Z) (publicFinalTotal : Z).

Record World := mkWorld {
  storage : Storage;
  backend : Backend;
  events : list Event
}.

(** Reads of the mappings, with the default of a key never written. *)
Definition round_at (s : Storage) (roundId : Z) : DonationRound.t :=
  default DonationRound.zero (rounds s !! roundId).
Definition donations_at (s : Storage) (roundId : Z) : list Donation.t :=
  default [] (roundDonations s !! roundId).
Definition commitments_at (s : Storage) (roundId : Z) : list MatchingCommitment.t :=
  default [] (roundMatchingCommitments s !! roundId).
Definition hasDonated_at (s : Storage) (roundId a : Z) : bool :=
  default false (hasDonated s !! (roundId, a)).
Definition hasCommittedMatching_at (s : Storage) (roundId a : Z) : bool :=
  default false (hasCommittedMatching s !! (roundId, a)).

(** Writes. *)
Definition set_roundCounter (v : Z) (s : Storage) : Storage :=
  mkStorage v (rounds s) (roundDonations s) (roundMatchingCommitments s)
            (hasDonated s) (hasCommittedMatching s).
Definition set_round (roundId : Z) (r : DonationRound.t) (s : Storage) : Storage :=
  mkStorage (roundCounter s) (<[roundId := r]> (rounds s)) (roundDonations s)
            (roundMatchingCommitments s) (hasDonated s) (hasCommittedMatching s).
Definition update_round (roundId : Z) (f : DonationRound.t -> DonationRound.t)
    (s : Storage) : Storage :=
  set_round roundId (f (round_at s roundId)) s.
Definition push_donation (roundId : Z) (d : Donation.t) (s : Storage) : Storage :=
  mkStorage (roundCounter s) (rounds s)
            (<[roundId := donations_at s roundId ++ [d]]> (roundDonations s))
            (roundMatchingCommitments s) (hasDonated s) (hasCommittedMatching s).
Definition push_commitment (roundId : Z) (c : MatchingCommitment.t) (s : Storage)
  : Storage :=
  mkStorage (roundCounter s) (rounds s) (roundDonations s)
            (<[roundId := commitments_at s roundId ++ [c]]> (roundMatchingCommitments s))
            (hasDonated s) (hasCommittedMatching s).
Definition set_hasDonated (roundId a : Z) (v : bool) (s : Storage) : Storage :=
  mkStorage (roundCounter s) (rounds s) (roundDonations s)
            (roundMatchingCommitments s) (<[(roundId, a) := v]> (hasDonated s))
            (hasCommittedMatching s).
Definition set_hasCommittedMatching (roundId a : Z) (v : bool) (s : Storage)
  : Storage :=
  mkStorage (roundCounter s) (rounds s) (roundDonations s)
            (roundMatchingCommitments s) (hasDonated s)
            (<[(roundId, a) := v]> (hasCommittedMatching s)).

(** ** The transaction monad *)

Inductive Result (A : Type) :=
| Ok (a : A) (w : World)
| Fail (e : Failure).
Arguments Ok {A} a w.
Arguments Fail {A} e.

Definition Tx (A : Type) : Type := World -> Result A.

Definition ret {A} (a : A) : Tx A := fun w => Ok a w.
Definition bind {A B} (m : Tx A) (k : A -> Tx B) : Tx B :=
  fun w => match m w with
           | Ok a w' => k a w'
           | Fail e => Fail e
           end.
Definition abort {A} (e : Failure) : Tx A := fun _ => Fail e.

#[global] Instance tx_ret : MRet Tx := @ret.
#[global] Instance tx_bind : MBind Tx := fun A B k m => bind m k.

Definition require (cond : bool) (reason : string) : Tx unit :=
  if cond then ret tt else abort (Revert reason).

Definition sload {A} (f : Storage -> A) : Tx A :=
  fun w => Ok (f (storage w)) w.
Definition sstore (f : Storage -> Storage) : Tx unit :=
  fun w => Ok tt (mkWorld (f (storage w)) (backend w) (events w)).
Definition fhe {A} (op : Backend -> A * Backend) : Tx A :=
  fun w => Ok (op (backend w)).1 (mkWorld (storage w) (op (backend w)).2 (events w)).
Definition emit (e : Event) : Tx unit :=
  fun w => Ok tt (mkWorld (storage w) (backend w) (events w ++ [e])).

(** Checked arithmetic of the compiler (Solidity 0.8). *)
Definition checked_add (x y : Z) : Tx Z :=
  if x + y <=? MAX_UINT256 then ret (x + y) else abort (Panic PANIC_ARITHMETIC).
Definition checked_sub (x y : Z) : Tx Z :=
  if y <=? x then ret (x - y) else abort (Panic PANIC_ARITHMETIC).

(** [array[i]] on a dynamic array. *)
Definition index {A} (l : list A) (i : nat) : Tx A :=
  match l !! i with
  | Some x => ret x
  | None => abort (Panic PANIC_ARRAY_INDEX)
  end.

(** [for (uint256 i = start; i < start + count; i++) acc = body(i, acc)]. *)
Fixpoint for_range {A} (start : nat) (count : nat) (acc : A)
    (body : nat -> A -> Tx A) : Tx A :=
  match count with
  | O => ret acc
  | S c => acc' ← body start acc; for_range (S start) c acc' body
  end.

Record Env := mkEnv {
  msg_sender : Z;
  block_timestamp : Z
}.

(** ** The contract *)

(** The functions of the contract. The getters the compiler generates for
    the public mappings only read the storage and are left out. *)
Inductive Call :=
| CreateRound (name description : string) (duration : Z)
| Donate (roundId : Z) (encryptedAmount : Z) (inputProof : list Z)
| CommitMatching (roundId : Z) (encryptedMaxMatching encryptedMinTrigger : Z)
                 (inputProofMax inputProofMin : list Z)
| ViewCurrentEncryptedTotal (roundId : Z)
| SettleRound (roundId : Z)
| GetRound (roundId : Z)
| GetDonationCount (roundId : Z)
| GetMatchingCommitmentCount (roundId : Z)
| GetRoundCount.

(** What a call hands back to its caller. *)
Inductive ReturnData :=
| RNone
| RUint (v : Z)
| RCiphertext (h : nat)
| RRound (r : DonationRound.t).

Inductive Outcome :=
| Success (r : ReturnData)
| Failed (e : Failure).

Section Contract.

(** The address of the contract and the verifier of the backend: the
    plaintext an external input carries when its proof binds it to the
    contract and the sender, [None] otherwise. *)
Variable this : Z.
Variable verify : Z -> Z -> Z -> list Z -> option Z.

Definition fromExternal (sender input : Z) (inputProof : list Z) : Tx nat :=
  fun w =>
    match FHE.fromExternal verify this sender input inputProof (backend w) with
    | Some (h, b) => Ok h (mkWorld (storage w) b (events w))
    | None => Fail InvalidProof
    end.

(** [roundId > 0 && roundId <= roundCounter] *)
Definition round_exists (roundId : Z) : Tx bool :=
  counter ← sload roundCounter;
  ret ((0 <? roundId) && (roundId <=? counter)).

Definition createRound (env : Env) (name description : string) (duration : Z)
  : Tx unit :=
  require (0 <? Z.of_nat (String.length name)) "Round name cannot be empty" ;;
  require (0 <? duration) "Duration must be positive" ;;
  counter ← sload roundCounter;
  roundId ← checked_add counter 1;
  sstore (set_roundCounter roundId) ;;
  let startTime := block_timestamp env in
  endTime ← checked_add startTime duration;
  zeroCommunity ← fhe (FHE.asEuint64 0);
  zeroMatching ← fhe (FHE.asEuint64 0);
  zeroFinal ← fhe (FHE.asEuint64 0);
  sstore (set_round roundId
            (DonationRound.mk roundId name description startTime endTime false
               zeroCommunity zeroMatching zeroFinal 0)) ;;
  r ← sload (fun s => round_at s roundId);
  fhe (FHE.allowThis this (DonationRound.encryptedCommunityTotal r)) ;;
  r ← sload (fun s => round_at s roundId);
  fhe (FHE.allowThis this (DonationRound.encryptedMatchingTotal r)) ;;
  r ← sload (fun s => round_at s roundId);
  fhe (FHE.allowThis this (DonationRound.encryptedFinalTotal r)) ;;
  emit (DonationRoundCreated roundId name endTime).

(** The bound [donations.length - 1] of the loop is computed once: the body
    of the loop only issues grants and leaves the array as it is. *)
Definition donate (env : Env) (roundId : Z) (encryptedAmount : Z)
    (inputProof : list Z) : Tx unit :=
  ok ← round_exists roundId;
  require ok "Invalid round ID" ;;
  r ← sload (fun s => round_at s roundId);
  require (negb (DonationRound.settled r)) "Round already settled" ;;
  r ← sload (fun s => round_at s roundId);
  require (block_timestamp env <? DonationRound.endTime r) "Round has ended" ;;
  already ← sload (fun s => hasDonated_at s roundId (msg_sender env));
  require (negb already) "Already donated to this round" ;;
  amount ← fromExternal (msg_sender env) encryptedAmount inputProof;
  amount ← fhe (FHE.allowThis this amount);
  r ← sload (fun s => round_at s roundId);
  newTotal ← fhe (FHE.add (DonationRound.encryptedCommunityTotal r) amount);
  sstore (update_round roundId (DonationRound.set_encryptedCommunityTotal newTotal)) ;;
  sstore (push_donation roundId
            (Donation.mk (msg_sender env) amount (block_timestamp env) roundId)) ;;
  sstore (set_hasDonated roundId (msg_sender env) true) ;;
  r ← sload (fun s => round_at s roundId);
  fhe (FHE.allowThis this (DonationRound.encryptedCommunityTotal r)) ;;
  fhe (FHE.allow amount (msg_sender env)) ;;
  r ← sload (fun s => round_at s roundId);
  fhe (FHE.allow (DonationRound.encryptedCommunityTotal r) (msg_sender env)) ;;
  donations ← sload (fun s => donations_at s roundId);
  bound ← checked_sub (Z.of_nat (length donations)) 1;
  for_range 0 (Z.to_nat bound) tt (fun i _ =>
    r ← sload (fun s => round_at s roundId);
    donations ← sload (fun s => donations_at s roundId);
    d ← index donations i;
    fhe (FHE.allow (DonationRound.encryptedCommunityTotal r) (Donation.donor d))) ;;
  emit (DonationMade roundId (msg_sender env) (block_timestamp env)).

Definition commitMatching (env : Env) (roundId : Z)
    (encryptedMaxMatching encryptedMinTrigger : Z)
    (inputProofMax inputProofMin : list Z) : Tx unit :=
  ok ← round_exists roundId;
  require ok "Invalid round ID" ;;
  r ← sload (fun s => round_at s roundId);
  require (negb (DonationRound.settled r)) "Round already settled" ;;
  r ← sload (fun s => round_at s roundId);
  require (block_timestamp env <? DonationRound.endTime r) "Round has ended" ;;
  already ← sload (fun s => hasCommittedMatching_at s roundId (msg_sender env));
  require (negb already) "Already committed matching" ;;
  maxMatching ← fromExternal (msg_sender env) encryptedMaxMatching inputProofMax;
  minTrigger ← fromExternal (msg_sender env) encryptedMinTrigger inputProofMin;
  maxMatching ← fhe (FHE.allowThis this maxMatching);
  minTrigger ← fhe (FHE.allowThis this minTrigger);
  sstore (push_commitment roundId
            (MatchingCommitment.mk (msg_sender env) maxMatching minTrigger roundId
               (block_timestamp env) true)) ;;
  sstore (set_hasCommittedMatching roundId (msg_sender env) true) ;;
  fhe (FHE.allow maxMatching (msg_sender env)) ;;
  fhe (FHE.allow minTrigger (msg_sender env)) ;;
  emit (MatchingCommitted roundId (msg_sender env) (block_timestamp env)).

Definition viewCurrentEncryptedTotal (roundId : Z) : Tx nat :=
  ok ← round_exists roundId;
  require ok "Invalid round ID" ;;
  r ← sload (fun s => round_at s roundId);
  ret (DonationRound.encryptedCommunityTotal r).

(** One iteration of the settlement loop over [commitments[i]]. *)
Definition settle_commitment (roundId : Z) (i : nat) (matchingTotal : nat)
  : Tx nat :=
  commitments ← sload (fun s => commitments_at s roundId);
  c ← index commitments i;
  if negb (MatchingCommitment.isActive c) then ret matchingTotal
  else
    r ← sload (fun s => round_at s roundId);
    triggerMet ← fhe (FHE.ge (DonationRound.encryptedCommunityTotal r)
                             (MatchingCommitment.minTrigger c));
    zero ← fhe (FHE.asEuint64 0);
    matchingAmount ← fhe (FHE.select triggerMet
                                     (MatchingCommitment.maxMatchingAmount c) zero);
    fhe (FHE.add matchingTotal matchingAmount).

(** The first value of the local [finalTotal] is never read and is left
    out; the bounds of the three loops are computed once, their bodies
    leaving the arrays as they are. *)
Definition settleRound (env : Env) (roundId : Z) : Tx unit :=
  ok ← round_exists roundId;
  require ok "Invalid round ID" ;;
  r ← sload (fun s => round_at s roundId);
  require (negb (DonationRound.settled r)) "Round already settled" ;;
  r ← sload (fun s => round_at s roundId);
  require (DonationRound.endTime r <=? block_timestamp env) "Round not ended" ;;
  sstore (update_round roundId (DonationRound.set_settled true)) ;;
  matchingTotal ← fhe (FHE.asEuint64 0);
  commitments ← sload (fun s => commitments_at s roundId);
  matchingTotal ← for_range 0 (length commitments) matchingTotal
                    (settle_commitment roundId);
  r ← sload (fun s => round_at s roundId);
  finalTotal ← fhe (FHE.add (DonationRound.encryptedCommunityTotal r) matchingTotal);
  sstore (update_round roundId (DonationRound.set_encryptedMatchingTotal matchingTotal)) ;;
  sstore (update_round roundId (DonationRound.set_encryptedFinalTotal finalTotal)) ;;
  r ← sload (fun s => round_at s roundId);
  fhe (FHE.allowThis this (DonationRound.encryptedFinalTotal r)) ;;
  donations ← sload (fun s => donations_at s roundId);
  for_range 0 (length donations) tt (fun i _ =>
    r ← sload (fun s => round_at s roundId);
    donations ← sload (fun s => donations_at s roundId);
    d ← index donations i;
    fhe (FHE.allow (DonationRound.encryptedFinalTotal r) (Donation.donor d))) ;;
  commitments ← sload (fun s => commitments_at s roundId);
  for_range 0 (length commitments) tt (fun i _ =>
    commitments ← sload (fun s => commitments_at s roundId);
    c ← index commitments i;
    if MatchingCommitment.isActive c then
      r ← sload (fun s => round_at s roundId);
      fhe (FHE.allow (DonationRound.encryptedFinalTotal r)
                     (MatchingCommitment.matcher c))
    else ret tt) ;;
  emit (RoundSettled roundId 0).

Definition getRound (roundId : Z) : Tx DonationRound.t :=
  ok ← round_exists roundId;
  require ok "Invalid round ID" ;;
  r ← sload (fun s => round_at s roundId);
  ret r.

Definition getDonationCount (roundId : Z) : Tx Z :=
  ok ← round_exists roundId;
  require ok "Invalid round ID" ;;
  donations ← sload (fun s => donations_at s roundId);
  ret (Z.of_nat (length donations)).

Definition getMatchingCommitmentCount (roundId : Z) : Tx Z :=
  ok ← round_exists roundId;
  require ok "Invalid round ID" ;;
  commitments ← sload (fun s => commitments_at s roundId);
  ret (Z.of_nat (length commitments)).

Definition getRoundCount : Tx Z := sload roundCounter.

(** *** Calls and transactions *)

Definition dispatch (env : Env) (c : Call) : Tx ReturnData :=
  match c with
  | CreateRound name description duration =>
      createRound env name description duration ;; ret RNone
  | Donate roundId encryptedAmount inputProof =>
      donate env roundId encryptedAmount inputProof ;; ret RNone
  | CommitMatching roundId eMax eMin pMax pMin =>
      commitMatching env roundId eMax eMin pMax pMin ;; ret RNone
  | ViewCurrentEncryptedTotal roundId =>
      h ← viewCurrentEncryptedTotal roundId; ret (RCiphertext h)
  | SettleRound roundId => settleRound env roundId ;; ret RNone
  | GetRound roundId => r ← getRound roundId; ret (RRound r)
  | GetDonationCount roundId => n ← getDonationCount roundId; ret (RUint n)
  | GetMatchingCommitmentCount roundId =>
      n ← getMatchingCommitmentCount roundId; ret (RUint n)
  | GetRoundCount => n ← getRoundCount; ret (RUint n)
  end.

(** A call commits all its effects or, when it fails, none of them. *)
Definition transact (env : Env) (c : Call) (w : World) : World * Outcome :=
  match dispatch env c w with
  | Ok r w' => (w', Success r)
  | Fail e => (w, Failed e)
  end.

End Contract.

Definition initial_storage : Storage := mkStorage 0 ∅ ∅ ∅ ∅ ∅.
Definition initial_world : World := mkWorld initial_storage (mkBackend [] ∅) [].

(** ** The calls in closed form *)

(** The loop that grants the final total to the matchers of the active
    commitments. *)
Definition active_matchers (cs : list MatchingCommitment.t) : list Z :=
  MatchingCommitment.matcher <$> filter (fun c => MatchingCommitment.isActive c = true) cs.

(** The settlement loop: what one commitment adds to the running
    matching total, as a function of the backend. *)
Definition settle_step (community : nat) (st : nat * Backend)
    (c : MatchingCommitment.t) : nat * Backend :=
  if negb (MatchingCommitment.isActive c) then st
  else
    let b := st.2 in
    let b1 := (FHE.ge community (MatchingCommitment.minTrigger c) b).2 in
    let b2 := (FHE.asEuint64 0 b1).2 in
    let b3 := (FHE.select (fresh b) (MatchingCommitment.maxMatchingAmount c)
                          (fresh b1) b2).2 in
    FHE.add st.1 (fresh b2) b3.

Section Worlds.

Variable this : Z.

Definition createRound_world (env : Env) (name description : string)
    (duration : Z) (w : World) : World :=
  let s := storage w in
  let b := backend w in
  let roundId := roundCounter s + 1 in
  let endTime := block_timestamp env + duration in
  mkWorld
    (set_round roundId
       (DonationRound.mk roundId name description (block_timestamp env) endTime
          false (fresh b) (S (fresh b)) (S (S (fresh b))) 0)
       (set_roundCounter roundId s))
    (grant (S (S (fresh b))) this
       (grant (S (fresh b)) this
          (grant (fresh b) this (extend 0 (extend 0 (extend 0 b))))))
    (events w ++ [DonationRoundCreated roundId name endTime]).

Definition donate_world (env : Env) (roundId v : Z) (w : World) : World :=
  let s := storage w in
  let b := backend w in
  let sender := msg_sender env in
  let amount := fresh b in
  let newTotal := S (fresh b) in
  let b1 := grant amount this (extend (wrap64 v) b) in
  let total :=
    cleartext b1 (DonationRound.encryptedCommunityTotal (round_at s roundId))
    + cleartext b1 amount in
  let b2 := extend (wrap64 total) b1 in
  let b3 := grant newTotal sender (grant amount sender (grant newTotal this b2)) in
  mkWorld
    (set_hasDonated roundId sender true
       (push_donation roundId
          (Donation.mk sender amount (block_timestamp env) roundId)
          (update_round roundId
             (DonationRound.set_encryptedCommunityTotal newTotal) s)))
    (grant_all newTotal (Donation.donor <$> donations_at s roundId) b3)
    (events w ++ [DonationMade roundId sender (block_timestamp env)]).

Definition commitMatching_world (env : Env) (roundId vMax vMin : Z) (w : World)
  : World :=
  let s := storage w in
  let b := backend w in
  let sender := msg_sender env in
  let maxMatching := fresh b in
  let minTrigger := S (fresh b) in
  let b1 := extend (wrap64 vMin) (extend (wrap64 vMax) b) in
  let b2 := grant minTrigger this (grant maxMatching this b1) in
  mkWorld
    (set_hasCommittedMatching roundId sender true
       (push_commitment roundId
          (MatchingCommitment.mk sender maxMatching minTrigger roundId
             (block_timestamp env) true) s))
    (grant minTrigger sender (grant maxMatching sender b2))
    (events w ++ [MatchingCommitted roundId sender (block_timestamp env)]).

Definition settleRound_world (env : Env) (roundId : Z) (w : World) : World :=
  let s := storage w in
  let b := backend w in
  let community := DonationRound.encryptedCommunityTotal (round_at s roundId) in
  let commitments := commitments_at s roundId in
  let res := foldl (settle_step community) (fresh b, extend 0 b) commitments in
  let matchingTotal := res.1 in
  let finalTotal := fresh res.2 in
  let b1 := extend (wrap64 (cleartext res.2 community
                            + cleartext res.2 matchingTotal)) res.2 in
  mkWorld
    (update_round roundId (DonationRound.set_encryptedFinalTotal finalTotal)
       (update_round roundId
          (DonationRound.set_encryptedMatchingTotal matchingTotal)
          (update_round roundId (DonationRound.set_settled true) s)))
    (grant_all finalTotal (active_matchers commitments)
       (grant_all finalTotal (Donation.donor <$> donations_at s roundId)
          (grant finalTotal this b1)))
    (events w ++ [RoundSettled roundId 0]).

End Worlds.

(** A sequence of calls, each in its own block environment. *)
Definition run_trace (this : Z) (verify : Z -> Z -> Z -> list Z -> option Z)
    (tr : list (Env * Call)) (w : World) : World :=
  foldl (fun w ec => (transact this verify ec.1 ec.2 w).1) w tr.

(** A sequence of calls among which the successful donations to one round
    are the listed ones, each with its donor and its 64-bit plaintext; the
    other calls of the sequence are anything but a successful donation to
    that round. *)
Inductive donations_run (this : Z) (verify : Z -> Z -> Z -> list Z -> option Z)
    (roundId : Z) : World -> list (Z * Z) -> World -> Prop :=
| run_done w : donations_run this verify roundId w [] w
| run_donate w env encryptedAmount inputProof v w1 l w2 :
    transact this verify env (Donate roundId encryptedAmount inputProof) w
      = (w1, Success RNone) ->
    verify this (msg_sender env) encryptedAmount inputProof = Some v ->
    donations_run this verify roundId w1 l w2 ->
    donations_run this verify roundId w ((msg_sender env, wrap64 v) :: l) w2
| run_other w env c l w2 :
    (forall encryptedAmount inputProof,
        c = Donate roundId encryptedAmount inputProof ->
        (transact this verify env c w).2 <> Success RNone) ->
    donations_run this verify roundId (transact this verify env c w).1 l w2 ->
    donations_run this verify roundId w l w2.

(** ** Plaintexts and the settlement sum *)

Definition sumZ (l : list Z) : Z := foldr Z.add 0 l.

(** [b'] was obtained from [b] by producing more ciphertexts. *)
Definition extends (b b' : Backend) : Prop := plain b `prefix_of` plain b'.

(** All plaintexts are 64-bit. *)
Definition plain_ok (b : Backend) : Prop :=
  Forall (fun v => 0 <= v <= MAX_UINT64) (plain b).

(** What an active commitment contributes when the community total is
    [community]: its maximum if the trigger is met, nothing otherwise. *)
Definition contribution (b : Backend) (community : Z) (c : MatchingCommitment.t) : Z :=
  if MatchingCommitment.isActive c then
    if cleartext b (MatchingCommitment.minTrigger c) <=? community
    then cleartext b (MatchingCommitment.maxMatchingAmount c)
    else 0
  else 0.

Definition matching_sum (b : Backend) (community : Z)
    (cs : list MatchingCommitment.t) : Z :=
  sumZ (contribution b community <$> cs).

Definition commitment_ok (b : Backend) (c : MatchingCommitment.t) : Prop :=
  is_Some (decrypt b (MatchingCommitment.maxMatchingAmount c))
  /\ is_Some (decrypt b (MatchingCommitment.minTrigger c)).

(** The sum of the plaintexts of the donations on record. *)
Definition donated (b : Backend) (ds : list Donation.t) : Z :=
  sumZ ((fun d => cleartext b (Donation.amount d)) <$> ds).

(** ** Effects, reachable states and their invariant *)

Definition round_in_range (w : World) (roundId : Z) : bool :=
  (0 <? roundId) && (roundId <=? roundCounter (storage w)).

(** A call that is not one of the four writes leaves the world as it is. *)
Definition is_view (c : Call) : bool :=
  match c with
  | ViewCurrentEncryptedTotal _ | GetRound _ | GetDonationCount _
  | GetMatchingCommitmentCount _ | GetRoundCount => true
  | _ => false
  end.

Section Semantics.

Variable this : Z.
Variable verify : Z -> Z -> Z -> list Z -> option Z.

(** What a call does to the world, case by case. *)
Inductive effect (env : Env) (w : World) : Call -> World -> Prop :=
| effect_none c : effect env w c w
| effect_createRound name description duration :
    0 < duration ->
    roundCounter (storage w) + 1 <= MAX_UINT256 ->
    effect env w (CreateRound name description duration)
           (createRound_world this env name description duration w)
| effect_donate roundId encryptedAmount inputProof v :
    round_in_range w roundId = true ->
    DonationRound.settled (round_at (storage w) roundId) = false ->
    block_timestamp env < DonationRound.endTime (round_at (storage w) roundId) ->
    hasDonated_at (storage w) roundId (msg_sender env) = false ->
    verify this (msg_sender env) encryptedAmount inputProof = Some v ->
    effect env w (Donate roundId encryptedAmount inputProof)
           (donate_world this env roundId v w)
| effect_commitMatching roundId eMax eMin pMax pMin vMax vMin :
    round_in_range w roundId = true ->
    DonationRound.settled (round_at (storage w) roundId) = false ->
    hasCommittedMatching_at (storage w) roundId (msg_sender env) = false ->
    verify this (msg_sender env) eMax pMax = Some vMax ->
    verify this (msg_sender env) eMin pMin = Some vMin ->
    effect env w (CommitMatching roundId eMax eMin pMax pMin)
           (commitMatching_world this env roundId vMax vMin w)
| effect_settleRound roundId :
    round_in_range w roundId = true ->
    DonationRound.settled (round_at (storage w) roundId) = false ->
    DonationRound.endTime (round_at (storage w) roundId) <= block_timestamp env ->
    effect env w (SettleRound roundId) (settleRound_world this env roundId w).

Record wf (w : World) : Prop := mk_wf {
  wf_counter : 0 <= roundCounter (storage w);
  wf_unborn : forall r,
    roundCounter (storage w) < r -> donations_at (storage w) r = [];
  wf_plain : plain_ok (backend w);
  wf_acl : forall h a, (h, a) ∈ acl (backend w) -> (h < fresh (backend w))%nat;
  wf_amount : forall r d,
    d ∈ donations_at (storage w) r ->
    is_Some (decrypt (backend w) (Donation.amount d));
  wf_total : forall r,
    0 < r <= roundCounter (storage w) ->
    decrypt (backend w)
      (DonationRound.encryptedCommunityTotal (round_at (storage w) r))
    = Some (wrap64 (donated (backend w) (donations_at (storage w) r)));
  wf_commit : forall r c,
    c ∈ commitments_at (storage w) r -> commitment_ok (backend w) c;
  wf_granted : forall r d,
    d ∈ donations_at (storage w) r ->
    (DonationRound.encryptedCommunityTotal (round_at (storage w) r),
     Donation.donor d) ∈ acl (backend w);
  wf_granted_this : forall r,
    0 < r <= roundCounter (storage w) ->
    (DonationRound.encryptedCommunityTotal (round_at (storage w) r), this)
      ∈ acl (backend w);
  wf_hasDonated : forall r a,
    hasDonated_at (storage w) r a = true
    <-> a ∈ Donation.donor <$> donations_at (storage w) r;
  wf_nodup : forall r, NoDup (Donation.donor <$> donations_at (storage w) r);
  wf_active : forall r c,
    c ∈ commitments_at (storage w) r -> MatchingCommitment.isActive c = true
}.

(** Every settled round ended at or before [t]. *)
Definition settled_before (t : Z) (w : World) : Prop :=
  forall r,
    DonationRound.settled (round_at (storage w) r) = true ->
    DonationRound.endTime (round_at (storage w) r) <= t.

(** The states the contract can be in, with a time not before the block of
    the last call. *)
Inductive reachable : Z -> World -> Prop :=
| reach_deploy t : reachable t initial_world
| reach_call t w env c :
    reachable t w ->
    t <= block_timestamp env ->
    reachable (block_timestamp env) (transact this verify env c w).1
| reach_wait t t' w : reachable t w -> t <= t' -> reachable t' w.

End Semantics.

(** The block times of a trace do not go back from [t]. *)
Fixpoint trace_ordered (t : Z) (tr : list (Env * Call)) : bool :=
  match tr with
  | [] => true
  | ec :: tr' =>
      (t <=? block_timestamp ec.1) && trace_ordered (block_timestamp ec.1) tr'
  end.

Fixpoint trace_end (t : Z) (tr : list (Env * Call)) : Z :=
  match tr with
  | [] => t
  | ec :: tr' => trace_end (block_timestamp ec.1) tr'
  end.

(** ** A concrete deployment *)

(** The contract lives at address 4096; the verifier accepts every input
    whose proof is not empty and reads the input as its own plaintext. *)
Definition demo_this : Z := 4096.

Definition demo_verify (contract sender input : Z) (inputProof : list Z)
  : option Z :=
  match inputProof with
  | [] => None
  | _ => Some input
  end.

(** One round of a day: two donors give 100 and 200, a matcher commits 50
    once the community total reaches 300. *)
Definition demo_trace : list (Env * Call) :=
  [ (mkEnv 1 1000, CreateRound "Climate" "Support" 86400);
    (mkEnv 2 1001, Donate 1 100 [1]);
    (mkEnv 3 1002, Donate 1 200 [1]);
    (mkEnv 4 1003, CommitMatching 1 50 300 [1] [1]) ].

Definition demo_after (n : nat) : World :=
  run_trace demo_this demo_verify (take n demo_trace) initial_world.

Definition demo_open : World := demo_after 4.

Definition demo_settle_env : Env := mkEnv 1 90000.

Definition demo_settled : World :=
  (transact demo_this demo_verify demo_settle_env (SettleRound 1) demo_open).1.

(** A round whose only donor gives 2^64 - 1 and whose only matcher commits
    1 with a trigger of 0. *)
Definition overflow_trace : list (Env * Call) :=
  [ (mkEnv 1 1000, CreateRound "Full" "Overflow" 10);
    (mkEnv 2 1001, Donate 1 MAX_UINT64 [1]);
    (mkEnv 4 1002, CommitMatching 1 1 0 [1] [1]) ].

Definition overflow_open : World :=
  run_trace demo_this demo_verify overflow_trace initial_world.

Definition overflow_settled : World :=
  (transact demo_this demo_verify (mkEnv 1 2000) (SettleRound 1) overflow_open).1.

(** ** Further invariants of the reachable states *)

(** What a call does to the world, with everything the call has checked
    before it writes. *)
Inductive written (this : Z) (verify : Z -> Z -> Z -> list Z -> option Z)
    (env : Env) (w : World) : Call -> World -> Prop :=
| written_nothing c : written this verify env w c w
| written_createRound name description duration :
    name <> "" ->
    0 < duration ->
    roundCounter (storage w) + 1 <= MAX_UINT256 ->
    block_timestamp env + duration <= MAX_UINT256 ->
    written this verify env w (CreateRound name description duration)
      (createRound_world this env name description duration w)
| written_donate roundId encryptedAmount inputProof v :
    round_in_range w roundId = true ->
    DonationRound.settled (round_at (storage w) roundId) = false ->
    block_timestamp env < DonationRound.endTime (round_at (storage w) roundId) ->
    hasDonated_at (storage w) roundId (msg_sender env) = false ->
    verify this (msg_sender env) encryptedAmount inputProof = Some v ->
    written this verify env w (Donate roundId encryptedAmount inputProof)
      (donate_world this env roundId v w)
| written_commitMatching roundId eMax eMin pMax pMin vMax vMin :
    round_in_range w roundId = true ->
    DonationRound.settled (round_at (storage w) roundId) = false ->
    block_timestamp env < DonationRound.endTime (round_at (storage w) roundId) ->
    hasCommittedMatching_at (storage w) roundId (msg_sender env) = false ->
    verify this (msg_sender env) eMax pMax = Some vMax ->
    verify this (msg_sender env) eMin pMin = Some vMin ->
    written this verify env w (CommitMatching roundId eMax eMin pMax pMin)
      (commitMatching_world this env roundId vMax vMin w)
| written_settleRound roundId :
    round_in_range w roundId = true ->
    DonationRound.settled (round_at (storage w) roundId) = false ->
    DonationRound.endTime (round_at (storage w) roundId) <= block_timestamp env ->
    written this verify env w (SettleRound roundId)
      (settleRound_world this env roundId w).

(** The round a write is about. *)
Definition call_round (c : Call) : option Z :=
  match c with
  | Donate r _ _ | CommitMatching r _ _ _ _ | SettleRound r => Some r
  | _ => None
  end.

(** What the event log tells: the ids of the rounds created, the donors
    and the matchers of a round, the settlements. *)
Definition logged_round (e : Event) : option Z :=
  match e with
  | DonationRoundCreated r _ _ => Some r
  | _ => None
  end.

Definition logged_donor (r : Z) (e : Event) : option Z :=
  match e with
  | DonationMade r' a _ => if decide (r' = r) then Some a else None
  | _ => None
  end.

Definition logged_matcher (r : Z) (e : Event) : option Z :=
  match e with
  | MatchingCommitted r' a _ => if decide (r' = r) then Some a else None
  | _ => None
  end.

Definition logged_settlement (e : Event) : option (Z * Z) :=
  match e with
  | RoundSettled r v => Some (r, v)
  | _ => None
  end.

(** The shape of the stored records, at a time [t] not before the block of
    the last call. *)
Record wf_records (t : Z) (w : World) : Prop := mk_wf_records {
  rec_round : forall r,
    round_in_range w r = true ->
    DonationRound.id (round_at (storage w) r) = r
    /\ DonationRound.name (round_at (storage w) r) <> ""
    /\ DonationRound.startTime (round_at (storage w) r)
       < DonationRound.endTime (round_at (storage w) r)
    /\ DonationRound.startTime (round_at (storage w) r) <= t
    /\ DonationRound.publicFinalTotal (round_at (storage w) r) = 0;
  rec_donation : forall r d,
    d ∈ donations_at (storage w) r ->
    round_in_range w r = true
    /\ Donation.roundId d = r
    /\ DonationRound.startTime (round_at (storage w) r) <= Donation.timestamp d
    /\ Donation.timestamp d < DonationRound.endTime (round_at (storage w) r);
  rec_commitment : forall r c,
    c ∈ commitments_at (storage w) r ->
    round_in_range w r = true
    /\ MatchingCommitment.roundId c = r
    /\ DonationRound.startTime (round_at (storage w) r)
       <= MatchingCommitment.timestamp c
    /\ MatchingCommitment.timestamp c
       < DonationRound.endTime (round_at (storage w) r);
  rec_committed : forall r a,
    hasCommittedMatching_at (storage w) r a = true
    <-> a ∈ MatchingCommitment.matcher <$> commitments_at (storage w) r;
  rec_matchers : forall r,
    NoDup (MatchingCommitment.matcher <$> commitments_at (storage w) r)
}.

(** Who reads the community total, and what the matching and final totals
    hold before and after settlement. *)
Record wf_totals (this : Z) (w : World) : Prop := mk_wf_totals {
  tot_community_acl : forall r a,
    round_in_range w r = true ->
    (DonationRound.encryptedCommunityTotal (round_at (storage w) r), a)
      ∈ acl (backend w)
    <-> a = this \/ a ∈ Donation.donor <$> donations_at (storage w) r;
  tot_unsettled : forall r,
    round_in_range w r = true ->
    DonationRound.settled (round_at (storage w) r) = false ->
    decrypt (backend w)
      (DonationRound.encryptedMatchingTotal (round_at (storage w) r)) = Some 0
    /\ decrypt (backend w)
         (DonationRound.encryptedFinalTotal (round_at (storage w) r)) = Some 0;
  tot_settled : forall r,
    round_in_range w r = true ->
    DonationRound.settled (round_at (storage w) r) = true ->
    let C := cleartext (backend w)
               (DonationRound.encryptedCommunityTotal (round_at (storage w) r)) in
    let ms := matching_sum (backend w) C (commitments_at (storage w) r) in
    decrypt (backend w)
      (DonationRound.encryptedMatchingTotal (round_at (storage w) r))
    = Some (wrap64 ms)
    /\ decrypt (backend w)
         (DonationRound.encryptedFinalTotal (round_at (storage w) r))
       = Some (wrap64 (C + ms))
}.

(** How a later world relates to an earlier one: the sequences only grow at
    their end, the flags once set stay set, the identity of a round does not
    change, and a settled round is frozen. *)
Record evolves (w w' : World) : Prop := mk_evolves {
  evo_counter : roundCounter (storage w) <= roundCounter (storage w');
  evo_donations : forall k,
    donations_at (storage w) k `prefix_of` donations_at (storage w') k;
  evo_commitments : forall k,
    commitments_at (storage w) k `prefix_of` commitments_at (storage w') k;
  evo_events : events w `prefix_of` events w';
  evo_hasDonated : forall k a,
    hasDonated_at (storage w) k a = true -> hasDonated_at (storage w') k a = true;
  evo_hasCommitted : forall k a,
    hasCommittedMatching_at (storage w) k a = true ->
    hasCommittedMatching_at (storage w') k a = true;
  evo_round : forall k,
    round_in_range w k = true ->
    round_in_range w' k = true
    /\ DonationRound.id (round_at (storage w') k)
       = DonationRound.id (round_at (storage w) k)
    /\ DonationRound.name (round_at (storage w') k)
       = DonationRound.name (round_at (storage w) k)
    /\ DonationRound.description (round_at (storage w') k)
       = DonationRound.description (round_at (storage w) k)
    /\ DonationRound.startTime (round_at (storage w') k)
       = DonationRound.startTime (round_at (storage w) k)
    /\ DonationRound.endTime (round_at (storage w') k)
       = DonationRound.endTime (round_at (storage w) k)
    /\ DonationRound.publicFinalTotal (round_at (storage w') k)
       = DonationRound.publicFinalTotal (round_at (storage w) k);
  evo_frozen : forall k,
    round_in_range w k = true ->
    DonationRound.settled (round_at (storage w) k) = true ->
    round_at (storage w') k = round_at (storage w) k
    /\ donations_at (storage w') k = donations_at (storage w) k
    /\ commitments_at (storage w') k = commitments_at (storage w) k
}.

(** The event log against the storage. *)
Record wf_events (w : World) : Prop := mk_wf_events {
  ev_rounds :
    omap logged_round (events w)
    = Z.of_nat <$> seq 1 (Z.to_nat (roundCounter (storage w)));
  ev_donors : forall r,
    omap (logged_donor r) (events w)
    = Donation.donor <$> donations_at (storage w) r;
  ev_matchers : forall r,
    omap (logged_matcher r) (events w)
    = MatchingCommitment.matcher <$> commitments_at (storage w) r;
  ev_settled : forall r v,
    (r, v) ∈ omap logged_settlement (events w)
    <-> v = 0 /\ round_in_range w r = true
       /\ DonationRound.settled (round_at (storage w) r) = true;
  ev_settled_once : NoDup (omap logged_settlement (events w))
}.

(** * Reading storage back after a write *)

Section StorageLemmas.
Implicit Types (s : Storage) (r k : Z) (a : Z).

Lemma round_at_set_round s r x k :
  round_at (set_round r x s) k = if decide (r = k) then x else round_at s k.
Proof.
  unfold round_at, set_round; cbn. rewrite lookup_insert.
  by case_decide.
Qed.

Lemma round_at_update_round s r f k :
  round_at (update_round r f s) k
  = if decide (r = k) then f (round_at s r) else round_at s k.
Proof. unfold update_round. apply round_at_set_round. Qed.

Lemma donations_at_push_donation s r d k :
  donations_at (push_donation r d s) k
  = if decide (r = k) then donations_at s r ++ [d] else donations_at s k.
Proof.
  unfold donations_at, push_donation; cbn. rewrite lookup_insert.
  by case_decide.
Qed.

Lemma commitments_at_push_commitment s r c k :
  commitments_at (push_commitment r c s) k
  = if decide (r = k) then commitments_at s r ++ [c] else commitments_at s k.
Proof.
  unfold commitments_at, push_commitment; cbn. rewrite lookup_insert.
  by case_decide.
Qed.

Lemma hasDonated_at_set_hasDonated s r a v k b :
  hasDonated_at (set_hasDonated r a v s) k b
  = if decide ((r, a) = (k, b)) then v else hasDonated_at s k b.
Proof.
  unfold hasDonated_at, set_hasDonated; cbn. rewrite lookup_insert.
  by case_decide.
Qed.

Lemma hasCommittedMatching_at_set s r a v k b :
  hasCommittedMatching_at (set_hasCommittedMatching r a v s) k b
  = if decide ((r, a) = (k, b)) then v else hasCommittedMatching_at s k b.
Proof.
  unfold hasCommittedMatching_at, set_hasCommittedMatching; cbn.
  rewrite lookup_insert. by case_decide.
Qed.

Lemma round_at_set_round_eq s r x : round_at (set_round r x s) r = x.
Proof. rewrite round_at_set_round. by rewrite decide_True. Qed.

Lemma round_at_update_round_eq s r f :
  round_at (update_round r f s) r = f (round_at s r).
Proof. rewrite round_at_update_round. by rewrite decide_True. Qed.

Lemma donations_at_push_donation_eq s r d :
  donations_at (push_donation r d s) r = donations_at s r ++ [d].
Proof. rewrite donations_at_push_donation. by rewrite decide_True. Qed.

Lemma commitments_at_push_commitment_eq s r c :
  commitments_at (push_commitment r c s) r = commitments_at s r ++ [c].
Proof. rewrite commitments_at_push_commitment. by rewrite decide_True. Qed.

Lemma hasDonated_at_set_hasDonated_eq s r a v :
  hasDonated_at (set_hasDonated r a v s) r a = v.
Proof. rewrite hasDonated_at_set_hasDonated. by rewrite decide_True. Qed.

Lemma hasCommittedMatching_at_set_eq s r a v :
  hasCommittedMatching_at (set_hasCommittedMatching r a v s) r a = v.
Proof. rewrite hasCommittedMatching_at_set. by rewrite decide_True. Qed.

(** Writes to one variable leave the others as they were. *)
Lemma roundCounter_set_roundCounter s v : roundCounter (set_roundCounter v s) = v.
Proof. reflexivity. Qed.
Lemma roundCounter_update_round s r f : roundCounter (update_round r f s) = roundCounter s.
Proof. reflexivity. Qed.
Lemma roundCounter_set_round s r x : roundCounter (set_round r x s) = roundCounter s.
Proof. reflexivity. Qed.
Lemma roundCounter_push_donation s r d : roundCounter (push_donation r d s) = roundCounter s.
Proof. reflexivity. Qed.
Lemma roundCounter_push_commitment s r c :
  roundCounter (push_commitment r c s) = roundCounter s.
Proof. reflexivity. Qed.
Lemma roundCounter_set_hasDonated s r a v :
  roundCounter (set_hasDonated r a v s) = roundCounter s.
Proof. reflexivity. Qed.
Lemma roundCounter_set_hasCommittedMatching s r a v :
  roundCounter (set_hasCommittedMatching r a v s) = roundCounter s.
Proof. reflexivity. Qed.

Lemma round_at_set_roundCounter s v k : round_at (set_roundCounter v s) k = round_at s k.
Proof. reflexivity. Qed.
Lemma round_at_push_donation s r d k : round_at (push_donation r d s) k = round_at s k.
Proof. reflexivity. Qed.
Lemma round_at_push_commitment s r c k : round_at (push_commitment r c s) k = round_at s k.
Proof. reflexivity. Qed.
Lemma round_at_set_hasDonated s r a v k : round_at (set_hasDonated r a v s) k = round_at s k.
Proof. reflexivity. Qed.
Lemma round_at_set_hasCommittedMatching s r a v k :
  round_at (set_hasCommittedMatching r a v s) k = round_at s k.
Proof. reflexivity. Qed.

Lemma donations_at_set_roundCounter s v k :
  donations_at (set_roundCounter v s) k = donations_at s k.
Proof. reflexivity. Qed.
Lemma donations_at_set_round s r x k : donations_at (set_round r x s) k = donations_at s k.
Proof. reflexivity. Qed.
Lemma donations_at_update_round s r f k :
  donations_at (update_round r f s) k = donations_at s k.
Proof. reflexivity. Qed.
Lemma donations_at_push_commitment s r c k :
  donations_at (push_commitment r c s) k = donations_at s k.
Proof. reflexivity. Qed.
Lemma donations_at_set_hasDonated s r a v k :
  donations_at (set_hasDonated r a v s) k = donations_at s k.
Proof. reflexivity. Qed.
Lemma donations_at_set_hasCommittedMatching s r a v k :
  donations_at (set_hasCommittedMatching r a v s) k = donations_at s k.
Proof. reflexivity. Qed.

Lemma commitments_at_set_roundCounter s v k :
  commitments_at (set_roundCounter v s) k = commitments_at s k.
Proof. reflexivity. Qed.
Lemma commitments_at_set_round s r x k :
  commitments_at (set_round r x s) k = commitments_at s k.
Proof. reflexivity. Qed.
Lemma commitments_at_update_round s r f k :
  commitments_at (update_round r f s) k = commitments_at s k.
Proof. reflexivity. Qed.
Lemma commitments_at_push_donation s r d k :
  commitments_at (push_donation r d s) k = commitments_at s k.
Proof. reflexivity. Qed.
Lemma commitments_at_set_hasDonated s r a v k :
  commitments_at (set_hasDonated r a v s) k = commitments_at s k.
Proof. reflexivity. Qed.
Lemma commitments_at_set_hasCommittedMatching s r a v k :
  commitments_at (set_hasCommittedMatching r a v s) k = commitments_at s k.
Proof. reflexivity. Qed.

Lemma hasDonated_at_set_roundCounter s v k b :
  hasDonated_at (set_roundCounter v s) k b = hasDonated_at s k b.
Proof. reflexivity. Qed.
Lemma hasDonated_at_set_round s r x k b :
  hasDonated_at (set_round r x s) k b = hasDonated_at s k b.
Proof. reflexivity. Qed.
Lemma hasDonated_at_update_round s r f k b :
  hasDonated_at (update_round r f s) k b = hasDonated_at s k b.
Proof. reflexivity. Qed.
Lemma hasDonated_at_push_donation s r d k b :
  hasDonated_at (push_donation r d s) k b = hasDonated_at s k b.
Proof. reflexivity. Qed.
Lemma hasDonated_at_push_commitment s r c k b :
  hasDonated_at (push_commitment r c s) k b = hasDonated_at s k b.
Proof. reflexivity. Qed.
Lemma hasDonated_at_set_hasCommittedMatching s r a v k b :
  hasDonated_at (set_hasCommittedMatching r a v s) k b = hasDonated_at s k b.
Proof. reflexivity. Qed.

Lemma hasCommittedMatching_at_set_roundCounter s v k b :
  hasCommittedMatching_at (set_roundCounter v s) k b = hasCommittedMatching_at s k b.
Proof. reflexivity. Qed.
Lemma hasCommittedMatching_at_set_round s r x k b :
  hasCommittedMatching_at (set_round r x s) k b = hasCommittedMatching_at s k b.
Proof. reflexivity. Qed.
Lemma hasCommittedMatching_at_update_round s r f k b :
  hasCommittedMatching_at (update_round r f s) k b = hasCommittedMatching_at s k b.
Proof. reflexivity. Qed.
Lemma hasCommittedMatching_at_push_donation s r d k b :
  hasCommittedMatching_at (push_donation r d s) k b = hasCommittedMatching_at s k b.
Proof. reflexivity. Qed.
Lemma hasCommittedMatching_at_push_commitment s r c k b :
  hasCommittedMatching_at (push_commitment r c s) k b = hasCommittedMatching_at s k b.
Proof. reflexivity. Qed.
Lemma hasCommittedMatching_at_set_hasDonated s r a v k b :
  hasCommittedMatching_at (set_hasDonated r a v s) k b = hasCommittedMatching_at s k b.
Proof. reflexivity. Qed.

End StorageLemmas.

Create Rewrite HintDb storage.
#[global] Hint Rewrite
  round_at_set_round_eq round_at_update_round_eq donations_at_push_donation_eq
  commitments_at_push_commitment_eq hasDonated_at_set_hasDonated_eq
  hasCommittedMatching_at_set_eq
  roundCounter_set_roundCounter roundCounter_update_round roundCounter_set_round
  roundCounter_push_donation roundCounter_push_commitment
  roundCounter_set_hasDonated roundCounter_set_hasCommittedMatching
  round_at_set_roundCounter round_at_push_donation round_at_push_commitment
  round_at_set_hasDonated round_at_set_hasCommittedMatching
  donations_at_set_roundCounter donations_at_set_round donations_at_update_round
  donations_at_push_commitment donations_at_set_hasDonated
  donations_at_set_hasCommittedMatching
  commitments_at_set_roundCounter commitments_at_set_round
  commitments_at_update_round commitments_at_push_donation
  commitments_at_set_hasDonated commitments_at_set_hasCommittedMatching
  hasDonated_at_set_roundCounter hasDonated_at_set_round
  hasDonated_at_update_round hasDonated_at_push_donation
  hasDonated_at_push_commitment hasDonated_at_set_hasCommittedMatching
  hasCommittedMatching_at_set_roundCounter hasCommittedMatching_at_set_round
  hasCommittedMatching_at_update_round hasCommittedMatching_at_push_donation
  hasCommittedMatching_at_push_commitment hasCommittedMatching_at_set_hasDonated
  : storage.

Create Rewrite HintDb storage_gen.
#[global] Hint Rewrite
  round_at_set_round round_at_update_round donations_at_push_donation
  commitments_at_push_commitment hasDonated_at_set_hasDonated
  hasCommittedMatching_at_set
  roundCounter_set_roundCounter roundCounter_update_round roundCounter_set_round
  roundCounter_push_donation roundCounter_push_commitment
  roundCounter_set_hasDonated roundCounter_set_hasCommittedMatching
  round_at_set_roundCounter round_at_push_donation round_at_push_commitment
  round_at_set_hasDonated round_at_set_hasCommittedMatching
  donations_at_set_roundCounter donations_at_set_round donations_at_update_round
  donations_at_push_commitment donations_at_set_hasDonated
  donations_at_set_hasCommittedMatching
  commitments_at_set_roundCounter commitments_at_set_round
  commitments_at_update_round commitments_at_push_donation
  commitments_at_set_hasDonated commitments_at_set_hasCommittedMatching
  hasDonated_at_set_roundCounter hasDonated_at_set_round
  hasDonated_at_update_round hasDonated_at_push_donation
  hasDonated_at_push_commitment hasDonated_at_set_hasCommittedMatching
  hasCommittedMatching_at_set_roundCounter hasCommittedMatching_at_set_round
  hasCommittedMatching_at_update_round hasCommittedMatching_at_push_donation
  hasCommittedMatching_at_push_commitment hasCommittedMatching_at_set_hasDonated
  : storage_gen.

(** Reads of a world after a call, by cases on the key. *)
Ltac reads :=
  cbn [storage backend events] in *;
  autorewrite with storage_gen in *;
  cbn [DonationRound.id DonationRound.name DonationRound.description
       DonationRound.startTime DonationRound.endTime DonationRound.settled
       DonationRound.encryptedCommunityTotal DonationRound.encryptedMatchingTotal
       DonationRound.encryptedFinalTotal DonationRound.publicFinalTotal
       DonationRound.set_settled DonationRound.set_encryptedCommunityTotal
       DonationRound.set_encryptedMatchingTotal
       DonationRound.set_encryptedFinalTotal] in *.

(** * The backend: plaintexts persist, grants accumulate *)

Section BackendLemmas.
Implicit Types (b : Backend) (h : nat) (a v : Z).

Lemma fresh_extend v b : fresh (extend v b) = S (fresh b).
Proof. unfold fresh, extend; cbn. rewrite length_app; cbn. lia. Qed.

Lemma fresh_grant h a b : fresh (grant h a b) = fresh b.
Proof. reflexivity. Qed.

Lemma grant_all_cons h a l b :
  grant_all h (a :: l) b = grant_all h l (grant h a b).
Proof. reflexivity. Qed.

Lemma fresh_grant_all h l b : fresh (grant_all h l b) = fresh b.
Proof.
  revert b; induction l as [|a l IH]; intros b; [done|].
  by rewrite grant_all_cons, IH.
Qed.

Lemma decrypt_extend_fresh v b : decrypt (extend v b) (fresh b) = Some v.
Proof.
  cbn. rewrite lookup_app_r by lia. by rewrite Nat.sub_diag.
Qed.

Lemma decrypt_extend_old v b h x :
  decrypt b h = Some x -> decrypt (extend v b) h = Some x.
Proof.
  destruct h as [|i]; cbn; [done|]. intros Hx.
  by rewrite lookup_app_l by (by eapply lookup_lt_Some).
Qed.

Lemma decrypt_extend_lt v b h :
  (h < fresh b)%nat -> decrypt (extend v b) h = decrypt b h.
Proof.
  destruct h as [|i]; cbn; [done|]. unfold fresh. intros Hlt.
  by rewrite lookup_app_l by lia.
Qed.

Lemma decrypt_lt b h x : decrypt b h = Some x -> (h < fresh b)%nat.
Proof.
  destruct h as [|i]; cbn; [done|]. intros Hx%lookup_lt_Some.
  unfold fresh. lia.
Qed.

Lemma decrypt_grant b h a h' : decrypt (grant h a b) h' = decrypt b h'.
Proof. by destruct h'. Qed.

Lemma plain_grant_all h l b : plain (grant_all h l b) = plain b.
Proof.
  revert b; induction l as [|a l IH]; intros b; [done|].
  by rewrite grant_all_cons, IH.
Qed.

Lemma decrypt_grant_all b h l h' : decrypt (grant_all h l b) h' = decrypt b h'.
Proof. destruct h'; cbn; [done|]. by rewrite plain_grant_all. Qed.

Lemma cleartext_extend_fresh v b : cleartext (extend v b) (fresh b) = v.
Proof. unfold cleartext. by rewrite decrypt_extend_fresh. Qed.

Lemma cleartext_extend_old v b h x :
  decrypt b h = Some x -> cleartext (extend v b) h = x.
Proof. intros Hx. unfold cleartext. by rewrite (decrypt_extend_old _ _ _ x). Qed.

Lemma cleartext_grant b h a h' : cleartext (grant h a b) h' = cleartext b h'.
Proof. unfold cleartext. by rewrite decrypt_grant. Qed.

Lemma cleartext_Some b h x : decrypt b h = Some x -> cleartext b h = x.
Proof. unfold cleartext. by intros ->. Qed.

Lemma acl_extend v b : acl (extend v b) = acl b.
Proof. reflexivity. Qed.

Lemma elem_of_acl_grant b h a h' a' :
  (h', a') ∈ acl (grant h a b) <-> (h' = h /\ a' = a) \/ (h', a') ∈ acl b.
Proof.
  cbn. rewrite elem_of_union, elem_of_singleton. naive_solver.
Qed.

Lemma elem_of_acl_grant_all b h l h' a' :
  (h', a') ∈ acl (grant_all h l b) <-> (h' = h /\ a' ∈ l) \/ (h', a') ∈ acl b.
Proof.
  revert b; induction l as [|a l IH]; intros b.
  - cbn. rewrite elem_of_nil. naive_solver.
  - rewrite grant_all_cons, IH, elem_of_acl_grant, elem_of_cons. naive_solver.
Qed.

Lemma grant_all_app h l1 l2 b :
  grant_all h (l1 ++ l2) b = grant_all h l2 (grant_all h l1 b).
Proof. apply foldl_app. Qed.

Lemma wrap64_range z : 0 <= wrap64 z <= MAX_UINT64.
Proof.
  unfold wrap64, MAX_UINT64. pose proof (Z.mod_pos_bound z (2 ^ 64)). lia.
Qed.

Lemma wrap64_small z : 0 <= z <= MAX_UINT64 -> wrap64 z = z.
Proof. unfold wrap64, MAX_UINT64. intros. apply Z.mod_small. lia. Qed.

Lemma wrap64_add_l x y : wrap64 (wrap64 x + y) = wrap64 (x + y).
Proof. unfold wrap64. by rewrite Zplus_mod_idemp_l. Qed.

Lemma wrap64_add_r x y : wrap64 (x + wrap64 y) = wrap64 (x + y).
Proof. unfold wrap64. by rewrite Zplus_mod_idemp_r. Qed.

Lemma wrap64_idemp x : wrap64 (wrap64 x) = wrap64 x.
Proof. unfold wrap64. by rewrite Zmod_mod. Qed.

(** The two components of each backend operation. *)
Lemma asEuint64_fst v b : (FHE.asEuint64 v b).1 = fresh b.
Proof. reflexivity. Qed.
Lemma asEuint64_snd v b : (FHE.asEuint64 v b).2 = extend (wrap64 v) b.
Proof. reflexivity. Qed.
Lemma add_fst x y b : (FHE.add x y b).1 = fresh b.
Proof. reflexivity. Qed.
Lemma add_snd x y b :
  (FHE.add x y b).2 = extend (wrap64 (cleartext b x + cleartext b y)) b.
Proof. reflexivity. Qed.
Lemma ge_fst x y b : (FHE.ge x y b).1 = fresh b.
Proof. reflexivity. Qed.
Lemma ge_snd x y b :
  (FHE.ge x y b).2 = extend (if cleartext b y <=? cleartext b x then 1 else 0) b.
Proof. reflexivity. Qed.
Lemma select_fst c x y b : (FHE.select c x y b).1 = fresh b.
Proof. reflexivity. Qed.
Lemma select_snd c x y b :
  (FHE.select c x y b).2
  = extend (if cleartext b c =? 0 then cleartext b y else cleartext b x) b.
Proof. reflexivity. Qed.
Lemma allow_snd h a b : (FHE.allow h a b).2 = grant h a b.
Proof. reflexivity. Qed.
Lemma allowThis_fst this h b : (FHE.allowThis this h b).1 = h.
Proof. reflexivity. Qed.
Lemma allowThis_snd this h b : (FHE.allowThis this h b).2 = grant h this b.
Proof. reflexivity. Qed.

End BackendLemmas.

Create Rewrite HintDb backend.
#[global] Hint Rewrite
  asEuint64_fst asEuint64_snd add_fst add_snd ge_fst ge_snd select_fst select_snd
  allow_snd allowThis_fst allowThis_snd fresh_extend fresh_grant fresh_grant_all
  : backend.

(** * Running a transaction step by step *)

Section Steps.
Context {A B : Type}.
Implicit Types (k : A -> Tx B) (w : World).

Lemma run_ret (a : A) k w : (ret a ≫= k) w = k a w.
Proof. reflexivity. Qed.

Lemma run_sload (f : Storage -> A) k w : (sload f ≫= k) w = k (f (storage w)) w.
Proof. reflexivity. Qed.

Lemma run_fhe (op : Backend -> A * Backend) k w :
  (fhe op ≫= k) w
  = k (op (backend w)).1 (mkWorld (storage w) (op (backend w)).2 (events w)).
Proof. reflexivity. Qed.

Lemma run_index (l : list A) i x k w : l !! i = Some x -> (index l i ≫= k) w = k x w.
Proof. intros Hx. unfold index. by rewrite Hx. Qed.

Lemma run_assoc {C} (m : Tx C) (f : C -> Tx A) k w :
  ((m ≫= f) ≫= k) w = (m ≫= fun x => f x ≫= k) w.
Proof. unfold mbind, tx_bind, bind. by destruct (m w). Qed.

End Steps.

Section StepsUnit.
Context {B : Type}.
Implicit Types (k : unit -> Tx B) (w : World).

Lemma run_sstore f k w :
  (sstore f ≫= k) w = k tt (mkWorld (f (storage w)) (backend w) (events w)).
Proof. reflexivity. Qed.

Lemma run_emit e k w :
  (emit e ≫= k) w = k tt (mkWorld (storage w) (backend w) (events w ++ [e])).
Proof. reflexivity. Qed.

Lemma run_require_true reason k w : (require true reason ≫= k) w = k tt w.
Proof. reflexivity. Qed.

Lemma run_require_false reason k w :
  (require false reason ≫= k) w = Fail (Revert reason).
Proof. reflexivity. Qed.

End StepsUnit.

Lemma run_checked_add {B} x y (k : Z -> Tx B) w :
  x + y <= MAX_UINT256 -> (checked_add x y ≫= k) w = k (x + y) w.
Proof.
  intros Hle. unfold checked_add.
  by destruct (Z.leb_spec (x + y) MAX_UINT256); [|lia].
Qed.

Lemma run_checked_add_overflow {B} x y (k : Z -> Tx B) w :
  MAX_UINT256 < x + y -> (checked_add x y ≫= k) w = Fail (Panic PANIC_ARITHMETIC).
Proof.
  intros Hle. unfold checked_add.
  by destruct (Z.leb_spec (x + y) MAX_UINT256); [lia|].
Qed.

Lemma run_checked_sub {B} x y (k : Z -> Tx B) w :
  y <= x -> (checked_sub x y ≫= k) w = k (x - y) w.
Proof.
  intros Hle. unfold checked_sub.
  by destruct (Z.leb_spec y x); [|lia].
Qed.

Ltac tx_step :=
  first [ rewrite run_assoc | rewrite run_ret | rewrite run_sload
        | rewrite run_sstore | rewrite run_fhe | rewrite run_emit
        | rewrite run_require_true ];
  cbn [storage backend events fst snd];
  autorewrite with storage backend;
  cbn [DonationRound.id DonationRound.name DonationRound.description
       DonationRound.startTime DonationRound.endTime DonationRound.settled
       DonationRound.encryptedCommunityTotal DonationRound.encryptedMatchingTotal
       DonationRound.encryptedFinalTotal DonationRound.publicFinalTotal
       DonationRound.set_settled DonationRound.set_encryptedCommunityTotal
       DonationRound.set_encryptedMatchingTotal
       DonationRound.set_encryptedFinalTotal].

(** * The grant loops *)

Section Loops.
Variable roundId : Z.

(** The loop that grants one ciphertext of the round to the donors
    [donations[start .. start + count)]. *)
Lemma grant_donors_loop (sel : DonationRound.t -> nat) count : forall start w,
  (start + count <= length (donations_at (storage w) roundId))%nat ->
  for_range start count tt (fun i _ =>
      r ← sload (fun s => round_at s roundId);
      donations ← sload (fun s => donations_at s roundId);
      d ← index donations i;
      fhe (FHE.allow (sel r) (Donation.donor d))) w
  = Ok tt (mkWorld (storage w)
             (grant_all (sel (round_at (storage w) roundId))
                (Donation.donor <$>
                   take count (drop start (donations_at (storage w) roundId)))
                (backend w))
             (events w)).
Proof.
  induction count as [|count IH]; intros start w Hlen.
  - cbn. by destruct w.
  - destruct (lookup_lt_is_Some_2 (donations_at (storage w) roundId) start)
      as [d Hd]; [lia|].
    cbn [for_range].
    rewrite run_assoc, run_sload, run_assoc, run_sload, run_assoc.
    rewrite (run_index _ _ _ _ _ Hd).
    rewrite run_fhe, IH by (cbn [storage]; lia).
    cbn [storage backend events fst snd].
    by rewrite allow_snd, (drop_S _ _ _ Hd).
Qed.

Lemma grant_matchers_loop count : forall start w,
  (start + count <= length (commitments_at (storage w) roundId))%nat ->
  for_range start count tt (fun i _ =>
      commitments ← sload (fun s => commitments_at s roundId);
      c ← index commitments i;
      if MatchingCommitment.isActive c then
        r ← sload (fun s => round_at s roundId);
        fhe (FHE.allow (DonationRound.encryptedFinalTotal r)
                       (MatchingCommitment.matcher c))
      else ret tt) w
  = Ok tt (mkWorld (storage w)
             (grant_all (DonationRound.encryptedFinalTotal (round_at (storage w) roundId))
                (active_matchers
                   (take count (drop start (commitments_at (storage w) roundId))))
                (backend w))
             (events w)).
Proof.
  induction count as [|count IH]; intros start w Hlen.
  - cbn. by destruct w.
  - destruct (lookup_lt_is_Some_2 (commitments_at (storage w) roundId) start)
      as [c Hc]; [lia|].
    cbn [for_range].
    rewrite run_assoc, run_sload, run_assoc.
    rewrite (run_index _ _ _ _ _ Hc).
    rewrite (drop_S _ _ _ Hc). cbn [take].
    unfold active_matchers. rewrite filter_cons.
    destruct (MatchingCommitment.isActive c) eqn:Hact.
    + rewrite decide_True by done.
      rewrite run_assoc, run_sload, run_fhe, IH by (cbn; lia).
      cbn [storage backend events fst snd].
      by rewrite allow_snd.
    + rewrite decide_False by done.
      by rewrite run_ret, IH by lia.
Qed.

Lemma settle_commitment_run i acc w c :
  commitments_at (storage w) roundId !! i = Some c ->
  let res := settle_step (DonationRound.encryptedCommunityTotal
                            (round_at (storage w) roundId))
                         (acc, backend w) c in
  settle_commitment roundId i acc w
  = Ok res.1 (mkWorld (storage w) res.2 (events w)).
Proof.
  intros Hc res; subst res. unfold settle_commitment, settle_step.
  rewrite run_sload, (run_index _ _ _ _ _ Hc).
  destruct (MatchingCommitment.isActive c); cbn [negb].
  - rewrite run_sload.
    do 3 (rewrite run_fhe; cbn [storage backend events fst snd]).
    unfold fhe. cbn [storage backend events fst snd].
    by rewrite !ge_fst, !asEuint64_fst, !select_fst.
  - cbn. by destruct w.
Qed.

Lemma settle_loop count : forall start acc w,
  (start + count <= length (commitments_at (storage w) roundId))%nat ->
  let res := foldl
               (settle_step (DonationRound.encryptedCommunityTotal
                               (round_at (storage w) roundId)))
               (acc, backend w)
               (take count (drop start (commitments_at (storage w) roundId))) in
  for_range start count acc (settle_commitment roundId) w
  = Ok res.1 (mkWorld (storage w) res.2 (events w)).
Proof.
  induction count as [|count IH]; intros start acc w Hlen res; subst res.
  - cbn. by destruct w.
  - destruct (lookup_lt_is_Some_2 (commitments_at (storage w) roundId) start)
      as [c Hc]; [lia|].
    cbn [for_range]. unfold mbind at 1, tx_bind at 1, bind at 1.
    rewrite (settle_commitment_run _ _ _ _ Hc).
    rewrite IH by (cbn [storage]; lia).
    cbn [storage backend events].
    rewrite (drop_S _ _ _ Hc). cbn [take foldl].
    by rewrite <- surjective_pairing.
Qed.

End Loops.

(** * What each call computes *)

Section Runs.
Variable this : Z.
Variable verify : Z -> Z -> Z -> list Z -> option Z.

Lemma run_fromExternal_Some {B} sender input inputProof v (k : nat -> Tx B) w :
  verify this sender input inputProof = Some v ->
  (fromExternal this verify sender input inputProof ≫= k) w
  = k (fresh (backend w))
      (mkWorld (storage w) (extend (wrap64 v) (backend w)) (events w)).
Proof.
  intros Hv. unfold mbind, tx_bind, bind, fromExternal, FHE.fromExternal.
  by rewrite Hv.
Qed.

Lemma run_fromExternal_None {B} sender input inputProof (k : nat -> Tx B) w :
  verify this sender input inputProof = None ->
  (fromExternal this verify sender input inputProof ≫= k) w = Fail InvalidProof.
Proof.
  intros Hv. unfold mbind, tx_bind, bind, fromExternal, FHE.fromExternal.
  by rewrite Hv.
Qed.

Lemma createRound_run env name description duration w :
  createRound this env name description duration w =
    if negb (0 <? Z.of_nat (String.length name))
    then Fail (Revert "Round name cannot be empty")
    else if negb (0 <? duration) then Fail (Revert "Duration must be positive")
    else if negb (roundCounter (storage w) + 1 <=? MAX_UINT256)
    then Fail (Panic PANIC_ARITHMETIC)
    else if negb (block_timestamp env + duration <=? MAX_UINT256)
    then Fail (Panic PANIC_ARITHMETIC)
    else Ok tt (createRound_world this env name description duration w).
Proof.
  unfold createRound.
  destruct (0 <? Z.of_nat (String.length name)); [|reflexivity].
  destruct (0 <? duration); [|reflexivity].
  do 2 tx_step. tx_step.
  destruct (Z.leb_spec (roundCounter (storage w) + 1) MAX_UINT256);
    [|by rewrite run_checked_add_overflow].
  rewrite run_checked_add by done. tx_step.
  destruct (Z.leb_spec (block_timestamp env + duration) MAX_UINT256);
    [|by rewrite run_checked_add_overflow].
  rewrite run_checked_add by done.
  repeat tx_step.
  reflexivity.
Qed.

Lemma donate_run env roundId encryptedAmount inputProof w :
  donate this verify env roundId encryptedAmount inputProof w =
    if negb ((0 <? roundId) && (roundId <=? roundCounter (storage w)))
    then Fail NotFound
    else if DonationRound.settled (round_at (storage w) roundId)
    then Fail AlreadySettled
    else if negb (block_timestamp env
                  <? DonationRound.endTime (round_at (storage w) roundId))
    then Fail RoundEnded
    else if hasDonated_at (storage w) roundId (msg_sender env)
    then Fail DuplicateDonation
    else match verify this (msg_sender env) encryptedAmount inputProof with
         | None => Fail InvalidProof
         | Some v => Ok tt (donate_world this env roundId v w)
         end.
Proof.
  unfold donate, round_exists. do 3 tx_step.
  destruct ((0 <? roundId) && (roundId <=? roundCounter (storage w)));
    [|reflexivity].
  do 2 tx_step.
  destruct (DonationRound.settled (round_at (storage w) roundId));
    [reflexivity|].
  cbn [negb]. do 2 tx_step.
  destruct (block_timestamp env
            <? DonationRound.endTime (round_at (storage w) roundId));
    [|reflexivity].
  do 2 tx_step.
  destruct (hasDonated_at (storage w) roundId (msg_sender env));
    [reflexivity|].
  cbn [negb]. tx_step.
  destruct (verify this (msg_sender env) encryptedAmount inputProof) as [v|]
    eqn:Hv; [|by rewrite run_fromExternal_None].
  rewrite (run_fromExternal_Some _ _ _ v) by done.
  repeat tx_step.
  rewrite run_checked_sub by (rewrite length_app; cbn; lia).
  replace (Z.to_nat _) with (length (donations_at (storage w) roundId))
    by (rewrite length_app; cbn; lia).
  unfold mbind at 1, tx_bind at 1, bind at 1.
  rewrite grant_donors_loop
    by (cbn [storage]; autorewrite with storage; rewrite length_app; lia).
  cbn [storage backend events]. autorewrite with storage.
  cbn [DonationRound.encryptedCommunityTotal
       DonationRound.set_encryptedCommunityTotal].
  rewrite drop_0, take_app_length. reflexivity.
Qed.

Lemma commitMatching_run env roundId eMax eMin pMax pMin w :
  commitMatching this verify env roundId eMax eMin pMax pMin w =
    if negb ((0 <? roundId) && (roundId <=? roundCounter (storage w)))
    then Fail NotFound
    else if DonationRound.settled (round_at (storage w) roundId)
    then Fail AlreadySettled
    else if negb (block_timestamp env
                  <? DonationRound.endTime (round_at (storage w) roundId))
    then Fail RoundEnded
    else if hasCommittedMatching_at (storage w) roundId (msg_sender env)
    then Fail DuplicateCommitment
    else match verify this (msg_sender env) eMax pMax,
               verify this (msg_sender env) eMin pMin with
         | Some vMax, Some vMin =>
             Ok tt (commitMatching_world this env roundId vMax vMin w)
         | _, _ => Fail InvalidProof
         end.
Proof.
  unfold commitMatching, round_exists. do 3 tx_step.
  destruct ((0 <? roundId) && (roundId <=? roundCounter (storage w)));
    [|reflexivity].
  do 2 tx_step.
  destruct (DonationRound.settled (round_at (storage w) roundId));
    [reflexivity|].
  cbn [negb]. do 2 tx_step.
  destruct (block_timestamp env
            <? DonationRound.endTime (round_at (storage w) roundId));
    [|reflexivity].
  do 2 tx_step.
  destruct (hasCommittedMatching_at (storage w) roundId (msg_sender env));
    [reflexivity|].
  cbn [negb]. tx_step.
  destruct (verify this (msg_sender env) eMax pMax) as [vMax|] eqn:HvMax;
    [|by rewrite run_fromExternal_None].
  rewrite (run_fromExternal_Some _ _ _ vMax) by done.
  destruct (verify this (msg_sender env) eMin pMin) as [vMin|] eqn:HvMin;
    [|by rewrite run_fromExternal_None].
  rewrite (run_fromExternal_Some _ _ _ vMin) by done.
  repeat tx_step.
  reflexivity.
Qed.

Lemma settleRound_run env roundId w :
  settleRound this env roundId w =
    if negb ((0 <? roundId) && (roundId <=? roundCounter (storage w)))
    then Fail NotFound
    else if DonationRound.settled (round_at (storage w) roundId)
    then Fail AlreadySettled
    else if negb (DonationRound.endTime (round_at (storage w) roundId)
                  <=? block_timestamp env)
    then Fail RoundNotEnded
    else Ok tt (settleRound_world this env roundId w).
Proof.
  unfold settleRound, round_exists. do 3 tx_step.
  destruct ((0 <? roundId) && (roundId <=? roundCounter (storage w)));
    [|reflexivity].
  do 2 tx_step.
  destruct (DonationRound.settled (round_at (storage w) roundId));
    [reflexivity|].
  cbn [negb]. do 2 tx_step.
  destruct (DonationRound.endTime (round_at (storage w) roundId)
            <=? block_timestamp env); [|reflexivity].
  do 4 tx_step.
  unfold mbind at 1, tx_bind at 1, bind at 1.
  rewrite settle_loop by (cbn [storage]; autorewrite with storage; lia).
  cbn [storage backend events]. autorewrite with storage.
  cbn [DonationRound.encryptedCommunityTotal DonationRound.set_settled].
  rewrite drop_0, firstn_all.
  do 7 tx_step.
  unfold mbind at 1, tx_bind at 1, bind at 1.
  rewrite grant_donors_loop by (cbn [storage]; autorewrite with storage; lia).
  cbn [storage backend events]. autorewrite with storage.
  cbn [DonationRound.encryptedFinalTotal DonationRound.set_encryptedFinalTotal].
  rewrite drop_0, firstn_all. tx_step.
  unfold mbind at 1, tx_bind at 1, bind at 1.
  rewrite grant_matchers_loop by (cbn [storage]; autorewrite with storage; lia).
  cbn [storage backend events]. autorewrite with storage.
  cbn [DonationRound.encryptedFinalTotal DonationRound.set_encryptedFinalTotal].
  rewrite drop_0, firstn_all. reflexivity.
Qed.

End Runs.

(** * Plaintexts under the backend operations *)

Lemma sumZ_app l1 l2 : sumZ (l1 ++ l2) = sumZ l1 + sumZ l2.
Proof. unfold sumZ. induction l1 as [|x l1 IH]; cbn; [done|]. rewrite IH. lia. Qed.

Lemma sumZ_nonneg l : Forall (fun v => 0 <= v) l -> 0 <= sumZ l.
Proof. unfold sumZ. induction 1; cbn; lia. Qed.

Section Extends.
Implicit Types (b : Backend) (h : nat).

Lemma extends_refl b : extends b b.
Proof. by unfold extends. Qed.

Lemma extends_trans b1 b2 b3 : extends b1 b2 -> extends b2 b3 -> extends b1 b3.
Proof. unfold extends. by etrans. Qed.

Lemma extends_extend v b : extends b (extend v b).
Proof. unfold extends; cbn. by apply prefix_app_r. Qed.

Lemma extends_grant h a b : extends b (grant h a b).
Proof. by unfold extends. Qed.

Lemma extends_grant_all h l b : extends b (grant_all h l b).
Proof. unfold extends. by rewrite plain_grant_all. Qed.

Lemma extends_fresh b b' : extends b b' -> (fresh b <= fresh b')%nat.
Proof. unfold extends, fresh. intros Hp%prefix_length. lia. Qed.

Lemma decrypt_extends b b' h x :
  extends b b' -> decrypt b h = Some x -> decrypt b' h = Some x.
Proof.
  unfold extends. intros Hp. destruct h as [|i]; cbn; [done|].
  intros Hx. by eapply prefix_lookup_Some.
Qed.

Lemma cleartext_extends b b' h :
  extends b b' -> is_Some (decrypt b h) -> cleartext b' h = cleartext b h.
Proof.
  intros Hp [x Hx]. unfold cleartext.
  by rewrite (decrypt_extends _ _ _ _ Hp Hx), Hx.
Qed.

End Extends.

Create HintDb extends.
#[global] Hint Resolve extends_refl extends_extend extends_grant
  extends_grant_all : extends.

Lemma plain_ok_extend v b :
  0 <= v <= MAX_UINT64 -> plain_ok b -> plain_ok (extend v b).
Proof.
  unfold plain_ok; cbn. intros Hv Hb. apply Forall_app. split; [done|].
  by apply Forall_singleton.
Qed.

Lemma plain_ok_grant h a b : plain_ok b -> plain_ok (grant h a b).
Proof. done. Qed.

Lemma plain_ok_grant_all h l b : plain_ok b -> plain_ok (grant_all h l b).
Proof. unfold plain_ok. by rewrite plain_grant_all. Qed.

Lemma cleartext_range b h : plain_ok b -> 0 <= cleartext b h <= MAX_UINT64.
Proof.
  intros Hb. unfold cleartext, decrypt. destruct h as [|i]; cbn.
  - unfold MAX_UINT64. lia.
  - destruct (plain b !! i) as [v|] eqn:Hv; cbn.
    + by eapply (Forall_lookup_1 _ _ _ _ Hb).
    + unfold MAX_UINT64. lia.
Qed.

(** ** The settlement fold *)

Lemma contribution_range b community c :
  plain_ok b -> 0 <= contribution b community c <= MAX_UINT64.
Proof.
  intros Hb. unfold contribution.
  pose proof (cleartext_range b (MatchingCommitment.maxMatchingAmount c) Hb).
  repeat case_match; unfold MAX_UINT64 in *; lia.
Qed.

Lemma matching_sum_nonneg b community cs :
  plain_ok b -> 0 <= matching_sum b community cs.
Proof.
  intros Hb. apply sumZ_nonneg, Forall_fmap, Forall_forall. intros c _.
  by apply contribution_range.
Qed.

Lemma settle_step_spec hC C acc a b c :
  decrypt b hC = Some C ->
  decrypt b acc = Some a ->
  commitment_ok b c ->
  plain_ok b ->
  let res := settle_step hC (acc, b) c in
  extends b res.2
  /\ acl res.2 = acl b
  /\ plain_ok res.2
  /\ (acc <= res.1 < fresh res.2)%nat
  /\ decrypt res.2 res.1 = Some (if MatchingCommitment.isActive c
                                 then wrap64 (a + contribution b C c) else a).
Proof.
  intros HC Hacc [[M HM] [T HT]] Hb res; subst res.
  unfold settle_step, contribution.
  destruct (MatchingCommitment.isActive c); cbn [negb fst snd].
  2: { split_and!; [apply extends_refl|done|done|done|by eapply decrypt_lt|done]. }
  rewrite ge_snd, asEuint64_snd, select_snd, add_fst, add_snd.
  rewrite (cleartext_Some b hC C), !(cleartext_Some b _ T) by done.
  rewrite (cleartext_Some b _ M) by done.
  set (b1 := extend _ b). set (b2 := extend _ b1). set (b3 := extend _ b2).
  assert (extends b b1) as E1 by apply extends_extend.
  assert (extends b1 b2) as E2 by apply extends_extend.
  assert (extends b2 b3) as E3 by apply extends_extend.
  assert (extends b b3) as E
    by (eapply extends_trans; [exact E1|]; eapply extends_trans; [exact E2|exact E3]).
  assert (plain_ok b1) as P1
    by (apply plain_ok_extend; [case_match; unfold MAX_UINT64; lia|done]).
  assert (plain_ok b2) as P2
    by (apply plain_ok_extend; [apply wrap64_range|done]).
  assert (plain_ok b3) as P3
    by (apply plain_ok_extend; [case_match; by apply cleartext_range|done]).
  rewrite fresh_extend.
  split_and!.
  - eapply extends_trans; [exact E|]. apply extends_extend.
  - done.
  - apply plain_ok_extend; [apply wrap64_range|done].
  - apply decrypt_lt in Hacc. apply extends_fresh in E. lia.
  - lia.
  - rewrite decrypt_extend_fresh. f_equal.
    rewrite (cleartext_Some b3 acc a) by (by eapply decrypt_extends).
    f_equal. f_equal.
    subst b3. rewrite cleartext_extend_fresh.
    assert (cleartext b2 (fresh b) = if T <=? C then 1 else 0) as ->.
    { apply cleartext_Some. subst b2. apply decrypt_extend_old.
      subst b1. apply decrypt_extend_fresh. }
    assert (cleartext b2 (fresh b1) = 0) as ->.
    { apply cleartext_Some. subst b2. apply decrypt_extend_fresh. }
    assert (cleartext b2 (MatchingCommitment.maxMatchingAmount c) = M) as ->.
    { apply cleartext_Some.
      by eapply decrypt_extends; [eapply extends_trans; [exact E1|exact E2]|]. }
    by destruct (T <=? C).
Qed.

Lemma commitment_ok_extends b b' c :
  extends b b' -> commitment_ok b c -> commitment_ok b' c.
Proof.
  intros He [[M HM] [T HT]]. split; eexists; by eapply decrypt_extends.
Qed.

Lemma contribution_extends b b' community c :
  extends b b' -> commitment_ok b c ->
  contribution b' community c = contribution b community c.
Proof.
  intros He [HM HT]. unfold contribution.
  by rewrite !(cleartext_extends b b') by done.
Qed.

Lemma matching_sum_extends b b' community cs :
  extends b b' -> Forall (commitment_ok b) cs ->
  matching_sum b' community cs = matching_sum b community cs.
Proof.
  intros He Hcs. unfold matching_sum. f_equal.
  apply Forall_fmap_ext_1. eapply Forall_impl; [exact Hcs|].
  intros c Hc. by apply contribution_extends.
Qed.

Lemma decrypt_range b h x : plain_ok b -> decrypt b h = Some x -> 0 <= x <= MAX_UINT64.
Proof.
  intros Hb Hx. pose proof (cleartext_range b h Hb) as Hr.
  by rewrite (cleartext_Some _ _ _ Hx) in Hr.
Qed.

Lemma settle_fold_spec hC C cs : forall acc a b,
  decrypt b hC = Some C ->
  decrypt b acc = Some a ->
  Forall (commitment_ok b) cs ->
  plain_ok b ->
  let res := foldl (settle_step hC) (acc, b) cs in
  extends b res.2
  /\ acl res.2 = acl b
  /\ plain_ok res.2
  /\ (acc <= res.1 < fresh res.2)%nat
  /\ decrypt res.2 res.1 = Some (wrap64 (a + matching_sum b C cs)).
Proof.
  induction cs as [|c cs IH]; intros acc a b HC Hacc Hcs Hb res; subst res.
  - cbn [foldl fst snd]. split_and!; [apply extends_refl|done|done|done| |].
    + by eapply decrypt_lt.
    + unfold matching_sum; cbn. rewrite Z.add_0_r, wrap64_small; [done|].
      by eapply decrypt_range.
  - apply Forall_cons in Hcs as [Hc Hcs]. cbn [foldl].
    destruct (settle_step_spec hC C acc a b c HC Hacc Hc Hb)
      as (He & Hacl & Hp & [Hle _] & Hd).
    destruct (settle_step hC (acc, b) c) as [acc1 b1] eqn:Hstep.
    cbn [fst snd] in *.
    assert (Forall (commitment_ok b1) cs) as Hcs1.
    { eapply Forall_impl; [exact Hcs|]. intros c' Hc'.
      by eapply commitment_ok_extends. }
    destruct (IH acc1 _ b1 (decrypt_extends _ _ _ _ He HC) Hd Hcs1 Hp)
      as (He' & Hacl' & Hp' & [Hle' Hlt'] & Hd').
    split_and!.
    + by eapply extends_trans.
    + by rewrite Hacl'.
    + done.
    + lia.
    + done.
    + rewrite Hd'. f_equal.
      rewrite (matching_sum_extends b b1) by done.
      assert (matching_sum b C (c :: cs)
              = contribution b C c + matching_sum b C cs) as -> by done.
      assert (contribution b C c = 0 \/ MatchingCommitment.isActive c = true)
        as [H0|Hact].
      { unfold contribution. destruct (MatchingCommitment.isActive c); auto. }
      * destruct (MatchingCommitment.isActive c).
        -- rewrite wrap64_add_l. f_equal. lia.
        -- f_equal. lia.
      * rewrite Hact. rewrite wrap64_add_l. f_equal. lia.
Qed.

(** * Transactions and reachable states *)

Section Theory.
Variable this : Z.
Variable verify : Z -> Z -> Z -> list Z -> option Z.

Lemma round_in_range_true w roundId :
  round_in_range w roundId = true <-> 0 < roundId <= roundCounter (storage w).
Proof. unfold round_in_range. rewrite andb_true_iff, Z.ltb_lt, Z.leb_le. lia. Qed.

Lemma round_in_range_false w roundId :
  round_in_range w roundId = false
  <-> ~ (0 < roundId <= roundCounter (storage w)).
Proof. rewrite <- round_in_range_true. by destruct (round_in_range w roundId). Qed.

(** *** The views *)

Lemma getRound_run roundId w :
  getRound roundId w =
    if round_in_range w roundId then Ok (round_at (storage w) roundId) w
    else Fail NotFound.
Proof.
  unfold getRound, round_exists, round_in_range. do 3 tx_step.
  by destruct ((0 <? roundId) && (roundId <=? roundCounter (storage w))).
Qed.

Lemma getDonationCount_run roundId w :
  getDonationCount roundId w =
    if round_in_range w roundId
    then Ok (Z.of_nat (length (donations_at (storage w) roundId))) w
    else Fail NotFound.
Proof.
  unfold getDonationCount, round_exists, round_in_range. do 3 tx_step.
  by destruct ((0 <? roundId) && (roundId <=? roundCounter (storage w))).
Qed.

Lemma getMatchingCommitmentCount_run roundId w :
  getMatchingCommitmentCount roundId w =
    if round_in_range w roundId
    then Ok (Z.of_nat (length (commitments_at (storage w) roundId))) w
    else Fail NotFound.
Proof.
  unfold getMatchingCommitmentCount, round_exists, round_in_range. do 3 tx_step.
  by destruct ((0 <? roundId) && (roundId <=? roundCounter (storage w))).
Qed.

Lemma viewCurrentEncryptedTotal_run roundId w :
  viewCurrentEncryptedTotal roundId w =
    if round_in_range w roundId
    then Ok (DonationRound.encryptedCommunityTotal (round_at (storage w) roundId)) w
    else Fail NotFound.
Proof.
  unfold viewCurrentEncryptedTotal, round_exists, round_in_range. do 3 tx_step.
  by destruct ((0 <? roundId) && (roundId <=? roundCounter (storage w))).
Qed.

(** *** The calls *)

Lemma transact_createRound env name description duration w :
  transact this verify env (CreateRound name description duration) w =
    match createRound this env name description duration w with
    | Ok _ w' => (w', Success RNone)
    | Fail e => (w, Failed e)
    end.
Proof.
  unfold transact, dispatch, mbind, tx_bind, bind.
  by destruct (createRound _ _ _ _ _ _).
Qed.

Lemma transact_donate env roundId encryptedAmount inputProof w :
  transact this verify env (Donate roundId encryptedAmount inputProof) w =
    match donate this verify env roundId encryptedAmount inputProof w with
    | Ok _ w' => (w', Success RNone)
    | Fail e => (w, Failed e)
    end.
Proof.
  unfold transact, dispatch, mbind, tx_bind, bind.
  by destruct (donate _ _ _ _ _ _ _).
Qed.

Lemma transact_commitMatching env roundId eMax eMin pMax pMin w :
  transact this verify env (CommitMatching roundId eMax eMin pMax pMin) w =
    match commitMatching this verify env roundId eMax eMin pMax pMin w with
    | Ok _ w' => (w', Success RNone)
    | Fail e => (w, Failed e)
    end.
Proof.
  unfold transact, dispatch, mbind, tx_bind, bind.
  by destruct (commitMatching _ _ _ _ _ _ _ _ _).
Qed.

Lemma transact_settleRound env roundId w :
  transact this verify env (SettleRound roundId) w =
    match settleRound this env roundId w with
    | Ok _ w' => (w', Success RNone)
    | Fail e => (w, Failed e)
    end.
Proof.
  unfold transact, dispatch, mbind, tx_bind, bind.
  by destruct (settleRound _ _ _ _).
Qed.

Lemma transact_view env c w : is_view c = true -> (transact this verify env c w).1 = w.
Proof.
  destruct c; try discriminate; intros _;
    unfold transact, dispatch, mbind, tx_bind, bind.
  - rewrite viewCurrentEncryptedTotal_run. by destruct (round_in_range w roundId).
  - rewrite getRound_run. by destruct (round_in_range w roundId).
  - rewrite getDonationCount_run. by destruct (round_in_range w roundId).
  - rewrite getMatchingCommitmentCount_run. by destruct (round_in_range w roundId).
  - done.
Qed.

Lemma transact_effect env c w : effect this verify env w c (transact this verify env c w).1.
Proof.
  destruct c as [name description duration | roundId e p
                | roundId eMax eMin pMax pMin | roundId | roundId | roundId
                | roundId | roundId | ].
  - rewrite transact_createRound, createRound_run.
    destruct (0 <? Z.of_nat (String.length name)); cbn [negb fst];
      [|constructor].
    destruct (Z.ltb_spec 0 duration); cbn [negb fst]; [|constructor].
    destruct (Z.leb_spec (roundCounter (storage w) + 1) MAX_UINT256);
      cbn [negb fst]; [|constructor].
    destruct (block_timestamp env + duration <=? MAX_UINT256); cbn [negb fst];
      [|constructor].
    by constructor.
  - rewrite transact_donate, donate_run. fold (round_in_range w roundId).
    destruct (round_in_range w roundId) eqn:Hin; cbn [negb fst]; [|constructor].
    destruct (DonationRound.settled _) eqn:Hs; cbn [fst]; [constructor|].
    destruct (Z.ltb_spec (block_timestamp env)
                (DonationRound.endTime (round_at (storage w) roundId)));
      cbn [negb fst]; [|constructor].
    destruct (hasDonated_at _ _ _) eqn:Hd; cbn [fst]; [constructor|].
    destruct (verify _ _ _ _) as [v|] eqn:Hv; cbn [fst]; [|constructor].
    by econstructor.
  - rewrite transact_commitMatching, commitMatching_run.
    fold (round_in_range w roundId).
    destruct (round_in_range w roundId) eqn:Hin; cbn [negb fst]; [|constructor].
    destruct (DonationRound.settled _) eqn:Hs; cbn [fst]; [constructor|].
    destruct (block_timestamp env <? _); cbn [negb fst]; [|constructor].
    destruct (hasCommittedMatching_at _ _ _) eqn:Hd; cbn [fst]; [constructor|].
    destruct (verify _ _ eMax _) as [vMax|] eqn:HvMax; cbn [fst];
      [|constructor].
    destruct (verify _ _ eMin _) as [vMin|] eqn:HvMin; cbn [fst];
      [|constructor].
    by econstructor.
  - rewrite transact_view by done. constructor.
  - rewrite transact_settleRound, settleRound_run.
    fold (round_in_range w roundId).
    destruct (round_in_range w roundId) eqn:Hin; cbn [negb fst]; [|constructor].
    destruct (DonationRound.settled _) eqn:Hs; cbn [fst]; [constructor|].
    destruct (Z.leb_spec (DonationRound.endTime (round_at (storage w) roundId))
                (block_timestamp env)); cbn [negb fst]; [|constructor].
    by constructor.
  - rewrite transact_view by done. constructor.
  - rewrite transact_view by done. constructor.
  - rewrite transact_view by done. constructor.
  - rewrite transact_view by done. constructor.
Qed.

(** *** The backend after each write *)

Lemma createRound_backend env name description duration w :
  let b := backend w in
  let b' := backend (createRound_world this env name description duration w) in
  extends b b'
  /\ fresh b' = S (S (S (fresh b)))
  /\ (plain_ok b -> plain_ok b')
  /\ decrypt b' (fresh b) = Some 0
  /\ decrypt b' (S (fresh b)) = Some 0
  /\ decrypt b' (S (S (fresh b))) = Some 0
  /\ (forall h a, (h, a) ∈ acl b' <->
        (h, a) ∈ acl b
        \/ (a = this /\ (h = fresh b \/ h = S (fresh b) \/ h = S (S (fresh b))))).
Proof.
  intros b b'. subst b'. unfold createRound_world. cbn [backend]. fold b.
  split_and!.
  - repeat (eapply extends_trans; [|apply extends_grant]).
    repeat (eapply extends_trans; [|apply extends_extend]). apply extends_refl.
  - by rewrite !fresh_grant, !fresh_extend.
  - intros Hb. repeat apply plain_ok_grant.
    repeat (apply plain_ok_extend; [unfold MAX_UINT64; lia|]). done.
  - rewrite !decrypt_grant. do 2 apply decrypt_extend_old.
    apply decrypt_extend_fresh.
  - rewrite !decrypt_grant. apply decrypt_extend_old.
    rewrite <- (fresh_extend 0 b). apply decrypt_extend_fresh.
  - rewrite !decrypt_grant.
    rewrite <- (fresh_extend 0 b), <- (fresh_extend 0 (extend 0 b)).
    apply decrypt_extend_fresh.
  - intros h a. rewrite !elem_of_acl_grant, !acl_extend. naive_solver.
Qed.

Lemma donate_backend env roundId v w :
  let b := backend w in
  let b' := backend (donate_world this env roundId v w) in
  let old := DonationRound.encryptedCommunityTotal (round_at (storage w) roundId) in
  extends b b'
  /\ fresh b' = S (S (fresh b))
  /\ (plain_ok b -> plain_ok b')
  /\ decrypt b' (fresh b) = Some (wrap64 v)
  /\ (forall x, decrypt b old = Some x ->
        decrypt b' (S (fresh b)) = Some (wrap64 (x + wrap64 v)))
  /\ (forall h a, (h, a) ∈ acl b' <->
        (h, a) ∈ acl b
        \/ (h = fresh b /\ (a = this \/ a = msg_sender env))
        \/ (h = S (fresh b)
            /\ (a = this \/ a = msg_sender env
                \/ a ∈ Donation.donor <$> donations_at (storage w) roundId))).
Proof.
  intros b b' old. subst b'. unfold donate_world. cbn [backend]. fold b old.
  split_and!.
  - eapply extends_trans; [|apply extends_grant_all].
    repeat (eapply extends_trans; [|apply extends_grant]).
    eapply extends_trans; [|apply extends_extend].
    eapply extends_trans; [|apply extends_grant]. apply extends_extend.
  - by rewrite fresh_grant_all, !fresh_grant, fresh_extend, fresh_grant,
      fresh_extend.
  - intros Hb. apply plain_ok_grant_all. repeat apply plain_ok_grant.
    apply plain_ok_extend; [apply wrap64_range|]. apply plain_ok_grant.
    by apply plain_ok_extend; [apply wrap64_range|].
  - rewrite decrypt_grant_all, !decrypt_grant. apply decrypt_extend_old.
    rewrite decrypt_grant. apply decrypt_extend_fresh.
  - intros x Hx. rewrite decrypt_grant_all, !decrypt_grant.
    set (b1 := grant (fresh b) this (extend (wrap64 v) b)).
    replace (S (fresh b)) with (fresh b1)
      by (subst b1; by rewrite fresh_grant, fresh_extend).
    rewrite decrypt_extend_fresh. subst b1. do 2 f_equal.
    rewrite !cleartext_grant, cleartext_extend_fresh.
    by rewrite (cleartext_extend_old _ _ _ x).
  - intros h a. rewrite elem_of_acl_grant_all, !elem_of_acl_grant, acl_extend.
    rewrite elem_of_acl_grant, acl_extend. naive_solver.
Qed.

Lemma commitMatching_backend env roundId vMax vMin w :
  let b := backend w in
  let b' := backend (commitMatching_world this env roundId vMax vMin w) in
  extends b b'
  /\ fresh b' = S (S (fresh b))
  /\ (plain_ok b -> plain_ok b')
  /\ decrypt b' (fresh b) = Some (wrap64 vMax)
  /\ decrypt b' (S (fresh b)) = Some (wrap64 vMin)
  /\ (forall h a, (h, a) ∈ acl b' <->
        (h, a) ∈ acl b
        \/ ((h = fresh b \/ h = S (fresh b))
            /\ (a = this \/ a = msg_sender env))).
Proof.
  intros b b'. subst b'. unfold commitMatching_world. cbn [backend]. fold b.
  split_and!.
  - repeat (eapply extends_trans; [|apply extends_grant]).
    eapply extends_trans; [|apply extends_extend]. apply extends_extend.
  - by rewrite !fresh_grant, !fresh_extend.
  - intros Hb. repeat apply plain_ok_grant.
    repeat (apply plain_ok_extend; [apply wrap64_range|]). done.
  - rewrite !decrypt_grant. apply decrypt_extend_old, decrypt_extend_fresh.
  - rewrite !decrypt_grant. rewrite <- (fresh_extend (wrap64 vMax) b).
    apply decrypt_extend_fresh.
  - intros h a. rewrite !elem_of_acl_grant, !acl_extend. naive_solver.
Qed.

Lemma settleRound_backend env roundId w C :
  let b := backend w in
  let community := DonationRound.encryptedCommunityTotal (round_at (storage w) roundId) in
  let cs := commitments_at (storage w) roundId in
  let w' := settleRound_world this env roundId w in
  let b' := backend w' in
  let matchingTotal := DonationRound.encryptedMatchingTotal (round_at (storage w') roundId) in
  let finalTotal := DonationRound.encryptedFinalTotal (round_at (storage w') roundId) in
  plain_ok b ->
  decrypt b community = Some C ->
  Forall (commitment_ok b) cs ->
  extends b b'
  /\ plain_ok b'
  /\ (fresh b <= matchingTotal < finalTotal)%nat
  /\ fresh b' = S finalTotal
  /\ DonationRound.encryptedCommunityTotal (round_at (storage w') roundId) = community
  /\ decrypt b' matchingTotal = Some (wrap64 (matching_sum b C cs))
  /\ decrypt b' finalTotal = Some (wrap64 (C + matching_sum b C cs))
  /\ (forall h a, (h, a) ∈ acl b' <->
        (h, a) ∈ acl b
        \/ (h = finalTotal
            /\ (a = this
                \/ a ∈ Donation.donor <$> donations_at (storage w) roundId
                \/ a ∈ active_matchers cs))).
Proof.
  intros b community cs w' b' matchingTotal finalTotal Hb HC Hcs.
  subst w' b' matchingTotal finalTotal. unfold settleRound_world.
  cbn [storage backend]. autorewrite with storage.
  cbn [DonationRound.encryptedCommunityTotal DonationRound.encryptedMatchingTotal
       DonationRound.encryptedFinalTotal DonationRound.set_settled
       DonationRound.set_encryptedMatchingTotal
       DonationRound.set_encryptedFinalTotal].
  fold b community cs.
  assert (extends b (extend 0 b)) as E0 by apply extends_extend.
  assert (plain_ok (extend 0 b)) as P0
    by (apply plain_ok_extend; [unfold MAX_UINT64; lia|done]).
  assert (Forall (commitment_ok (extend 0 b)) cs) as Hcs0.
  { eapply Forall_impl; [exact Hcs|]. intros c Hc.
    by eapply commitment_ok_extends. }
  destruct (settle_fold_spec community C cs (fresh b) 0 (extend 0 b)
              (decrypt_extends _ _ _ _ E0 HC) (decrypt_extend_fresh 0 b) Hcs0 P0)
    as (He & Hacl & Hp & [Hle Hlt] & Hd).
  set (res := foldl (settle_step community) (fresh b, extend 0 b) cs) in *.
  rewrite Z.add_0_l, (matching_sum_extends b (extend 0 b)) in Hd by done.
  split_and!.
  - eapply extends_trans; [|apply extends_grant_all].
    eapply extends_trans; [|apply extends_grant_all].
    eapply extends_trans; [|apply extends_grant].
    eapply extends_trans; [|apply extends_extend].
    by eapply extends_trans.
  - do 2 apply plain_ok_grant_all. apply plain_ok_grant.
    by apply plain_ok_extend; [apply wrap64_range|].
  - done.
  - lia.
  - by rewrite !fresh_grant_all, fresh_grant, fresh_extend.
  - done.
  - rewrite !decrypt_grant_all, decrypt_grant. by apply decrypt_extend_old.
  - rewrite !decrypt_grant_all, decrypt_grant, decrypt_extend_fresh.
    f_equal. rewrite (cleartext_Some _ _ _ Hd).
    rewrite (cleartext_Some res.2 community C); [|by eapply decrypt_extends;
      [eapply extends_trans; [exact E0|exact He]|]].
    by rewrite wrap64_add_r.
  - intros h a. rewrite !elem_of_acl_grant_all, elem_of_acl_grant, acl_extend.
    rewrite Hacl, acl_extend. naive_solver.
Qed.

(** *** The invariant of the reachable states *)

Lemma donated_extends b b' ds :
  extends b b' ->
  (forall d, d ∈ ds -> is_Some (decrypt b (Donation.amount d))) ->
  donated b' ds = donated b ds.
Proof.
  intros He Hds. unfold donated. f_equal. apply Forall_fmap_ext_1.
  apply Forall_forall. intros d Hd. apply cleartext_extends; auto.
Qed.

Lemma wf_initial : wf this initial_world.
Proof.
  assert (forall r, donations_at initial_storage r = []) as Hd by done.
  assert (forall r, commitments_at initial_storage r = []) as Hc by done.
  split; cbn [storage backend initial_world]; try rewrite Hd; try rewrite Hc.
  - done.
  - done.
  - by apply Forall_nil.
  - intros h a Hin. by apply not_elem_of_empty in Hin.
  - intros r d Hin. rewrite Hd in Hin. by apply not_elem_of_nil in Hin.
  - intros r. cbn. lia.
  - intros r c Hin. rewrite Hc in Hin. by apply not_elem_of_nil in Hin.
  - intros r d Hin. rewrite Hd in Hin. by apply not_elem_of_nil in Hin.
  - intros r. cbn. lia.
  - intros r a. rewrite Hd. split; [done|].
    intros Hin. by apply not_elem_of_nil in Hin.
  - intros r. rewrite Hd. apply NoDup_nil_2.
  - intros r c Hin. rewrite Hc in Hin. by apply not_elem_of_nil in Hin.
Qed.

Lemma wf_createRound w env name description duration :
  wf this w -> wf this (createRound_world this env name description duration w).
Proof.
  intros Hwf.
  destruct (createRound_backend env name description duration w)
    as (He & Hfresh & Hp & Hd1 & _ & _ & Hacl).
  set (w' := createRound_world this env name description duration w) in *.
  assert (forall k, donations_at (storage w') k = donations_at (storage w) k)
    as Hdon by done.
  assert (forall k, commitments_at (storage w') k = commitments_at (storage w) k)
    as Hcom by done.
  assert (forall k a, hasDonated_at (storage w') k a = hasDonated_at (storage w) k a)
    as Hhas by done.
  assert (roundCounter (storage w') = roundCounter (storage w) + 1) as Hcnt by done.
  assert (forall k, k <> roundCounter (storage w) + 1 ->
            round_at (storage w') k = round_at (storage w) k) as Hold.
  { intros k Hk. subst w'. unfold createRound_world. reads.
    by rewrite decide_False by done. }
  assert (round_at (storage w') (roundCounter (storage w) + 1)
          = DonationRound.mk (roundCounter (storage w) + 1) name description
              (block_timestamp env) (block_timestamp env + duration) false
              (fresh (backend w)) (S (fresh (backend w)))
              (S (S (fresh (backend w)))) 0) as Hnew.
  { subst w'. unfold createRound_world. reads. by rewrite decide_True by done. }
  pose proof (wf_counter _ _ Hwf) as Hc0.
  split.
  - rewrite Hcnt. lia.
  - intros r Hr. rewrite Hdon. apply (wf_unborn _ _ Hwf). lia.
  - apply Hp, (wf_plain _ _ Hwf).
  - intros h a [Hin|[-> Hh]]%Hacl; rewrite Hfresh.
    + apply (wf_acl _ _ Hwf) in Hin. lia.
    + lia.
  - intros r d Hin. rewrite Hdon in Hin.
    destruct (wf_amount _ _ Hwf r d Hin) as [x Hx]. exists x.
    by eapply decrypt_extends.
  - intros r Hr. rewrite Hdon.
    destruct (decide (r = roundCounter (storage w) + 1)) as [->|Hne].
    + rewrite Hnew; cbn [DonationRound.encryptedCommunityTotal].
      rewrite (wf_unborn _ _ Hwf) by lia. by rewrite Hd1.
    + rewrite Hold by done.
      rewrite (donated_extends (backend w)) by (eauto using wf_amount).
      eapply decrypt_extends; [exact He|]. apply (wf_total _ _ Hwf). lia.
  - intros r c Hin. rewrite Hcom in Hin.
    eapply commitment_ok_extends; [exact He|]. by eapply wf_commit.
  - intros r d Hin. rewrite Hdon in Hin. apply Hacl. left.
    destruct (decide (r = roundCounter (storage w) + 1)) as [->|Hne].
    + rewrite (wf_unborn _ _ Hwf) in Hin by lia. by apply not_elem_of_nil in Hin.
    + rewrite Hold by done. by apply (wf_granted _ _ Hwf).
  - intros r Hr. apply Hacl.
    destruct (decide (r = roundCounter (storage w) + 1)) as [->|Hne].
    + rewrite Hnew; cbn [DonationRound.encryptedCommunityTotal]. right. auto.
    + rewrite Hold by done. left. apply (wf_granted_this _ _ Hwf). lia.
  - intros r a. rewrite Hhas, Hdon. apply (wf_hasDonated _ _ Hwf).
  - intros r. rewrite Hdon. apply (wf_nodup _ _ Hwf).
  - intros r c Hin. rewrite Hcom in Hin. by eapply wf_active.
Qed.

Lemma donated_snoc b ds d :
  donated b (ds ++ [d]) = donated b ds + cleartext b (Donation.amount d).
Proof.
  unfold donated. rewrite fmap_app, sumZ_app. cbn. lia.
Qed.

Lemma wf_donate w env roundId v :
  wf this w ->
  round_in_range w roundId = true ->
  hasDonated_at (storage w) roundId (msg_sender env) = false ->
  wf this (donate_world this env roundId v w).
Proof.
  intros Hwf Hin%round_in_range_true Hnew.
  destruct (donate_backend env roundId v w)
    as (He & Hfresh & Hp & HdA & HdT & Hacl).
  set (w' := donate_world this env roundId v w) in *.
  set (d0 := Donation.mk (msg_sender env) (fresh (backend w))
               (block_timestamp env) roundId).
  assert (forall k, donations_at (storage w') k
            = if decide (roundId = k) then donations_at (storage w) roundId ++ [d0]
              else donations_at (storage w) k) as Hdon.
  { intros k. subst w'. unfold donate_world. by reads. }
  assert (forall k, commitments_at (storage w') k = commitments_at (storage w) k)
    as Hcom by done.
  assert (roundCounter (storage w') = roundCounter (storage w)) as Hcnt by done.
  assert (forall k, round_at (storage w') k
            = if decide (roundId = k)
              then DonationRound.set_encryptedCommunityTotal
                     (S (fresh (backend w))) (round_at (storage w) roundId)
              else round_at (storage w) k) as Hround.
  { intros k. subst w'. unfold donate_world. by reads. }
  assert (forall k a, hasDonated_at (storage w') k a
            = if decide ((roundId, msg_sender env) = (k, a)) then true
              else hasDonated_at (storage w) k a) as Hhas.
  { intros k a. subst w'. unfold donate_world. by reads. }
  assert (forall k d, d ∈ donations_at (storage w) k ->
            is_Some (decrypt (backend w) (Donation.amount d))) as Hamt
    by apply (wf_amount _ _ Hwf).
  split.
  - rewrite Hcnt. apply (wf_counter _ _ Hwf).
  - intros k Hk. rewrite Hdon, decide_False by lia.
    apply (wf_unborn _ _ Hwf). lia.
  - apply Hp, (wf_plain _ _ Hwf).
  - intros h a Hha%Hacl. rewrite Hfresh.
    destruct Hha as [Hha|[[-> _]|[-> _]]]; [|lia|lia].
    apply (wf_acl _ _ Hwf) in Hha. lia.
  - intros k d. rewrite Hdon. case_decide as Hk.
    + intros [Hd| ->%list_elem_of_singleton]%elem_of_app.
      * destruct (Hamt _ _ Hd) as [x Hx]. exists x. by eapply decrypt_extends.
      * by eexists.
    + intros Hd. destruct (Hamt _ _ Hd) as [x Hx]. exists x.
      by eapply decrypt_extends.
  - intros k Hk. rewrite Hcnt in Hk. rewrite Hround, Hdon.
    case_decide as Hrk.
    + subst k. cbn [DonationRound.encryptedCommunityTotal
                    DonationRound.set_encryptedCommunityTotal].
      rewrite (HdT _ (wf_total _ _ Hwf roundId Hk)). f_equal.
      rewrite donated_snoc, (donated_extends (backend w) _ _ He (Hamt roundId)).
      cbn [Donation.amount d0]. rewrite (cleartext_Some _ _ _ HdA).
      apply wrap64_add_l.
    + rewrite (donated_extends (backend w) _ _ He (Hamt k)).
      eapply decrypt_extends; [exact He|]. by apply (wf_total _ _ Hwf).
  - intros k c Hc. rewrite Hcom in Hc.
    eapply commitment_ok_extends; [exact He|]. by eapply wf_commit.
  - intros k d. rewrite Hdon, Hround. case_decide as Hrk.
    + cbn [DonationRound.encryptedCommunityTotal
           DonationRound.set_encryptedCommunityTotal].
      intros [Hd| ->%list_elem_of_singleton]%elem_of_app; apply Hacl;
        right; right; split; [done| |done|].
      * right; right. by apply list_elem_of_fmap_2.
      * right; left. done.
    + intros Hd. apply Hacl. left. by apply (wf_granted _ _ Hwf).
  - intros k Hk. rewrite Hcnt in Hk. rewrite Hround. apply Hacl.
    case_decide as Hrk.
    + right; right. cbn. auto.
    + left. by apply (wf_granted_this _ _ Hwf).
  - intros k a. rewrite Hhas, Hdon.
    pose proof (wf_hasDonated _ _ Hwf k a) as Hold.
    case_decide as Hka.
    + injection Hka as <- <-. rewrite decide_True by done.
      rewrite fmap_app, elem_of_app. split; [|done]. intros _. right.
      cbn. apply list_elem_of_singleton. done.
    + case_decide as Hrk; [|done]. subst k.
      rewrite fmap_app, elem_of_app, Hold. cbn.
      rewrite list_elem_of_singleton. split; [auto|].
      intros [?| ->]; [done|]. by destruct Hka.
  - intros k. rewrite Hdon. case_decide as Hrk; [|apply (wf_nodup _ _ Hwf)].
    rewrite fmap_app. apply NoDup_app. split_and!.
    + apply (wf_nodup _ _ Hwf).
    + intros a Ha ->%list_elem_of_singleton.
      apply (wf_hasDonated _ _ Hwf) in Ha. cbn in Ha. congruence.
    + apply NoDup_singleton.
  - intros k c Hc. rewrite Hcom in Hc. by eapply wf_active.
Qed.

Lemma wf_commitMatching w env roundId vMax vMin :
  wf this w -> wf this (commitMatching_world this env roundId vMax vMin w).
Proof.
  intros Hwf.
  destruct (commitMatching_backend env roundId vMax vMin w)
    as (He & Hfresh & Hp & HdM & HdT & Hacl).
  set (w' := commitMatching_world this env roundId vMax vMin w) in *.
  set (c0 := MatchingCommitment.mk (msg_sender env) (fresh (backend w))
               (S (fresh (backend w))) roundId (block_timestamp env) true).
  assert (forall k, commitments_at (storage w') k
            = if decide (roundId = k)
              then commitments_at (storage w) roundId ++ [c0]
              else commitments_at (storage w) k) as Hcom.
  { intros k. subst w'. unfold commitMatching_world. by reads. }
  assert (forall k, donations_at (storage w') k = donations_at (storage w) k)
    as Hdon by done.
  assert (roundCounter (storage w') = roundCounter (storage w)) as Hcnt by done.
  assert (forall k, round_at (storage w') k = round_at (storage w) k)
    as Hround by done.
  assert (forall k a, hasDonated_at (storage w') k a = hasDonated_at (storage w) k a)
    as Hhas by done.
  assert (forall k d, d ∈ donations_at (storage w) k ->
            is_Some (decrypt (backend w) (Donation.amount d))) as Hamt
    by apply (wf_amount _ _ Hwf).
  split.
  - rewrite Hcnt. apply (wf_counter _ _ Hwf).
  - intros k Hk. rewrite Hdon. by apply (wf_unborn _ _ Hwf).
  - apply Hp, (wf_plain _ _ Hwf).
  - intros h a Hha%Hacl. rewrite Hfresh.
    destruct Hha as [Hha|[[-> | ->] _]]; [|lia|lia].
    apply (wf_acl _ _ Hwf) in Hha. lia.
  - intros k d Hd. rewrite Hdon in Hd.
    destruct (Hamt _ _ Hd) as [x Hx]. exists x. by eapply decrypt_extends.
  - intros k Hk. rewrite Hcnt in Hk. rewrite Hround, Hdon.
    rewrite (donated_extends (backend w) _ _ He (Hamt k)).
    eapply decrypt_extends; [exact He|]. by apply (wf_total _ _ Hwf).
  - intros k c. rewrite Hcom. case_decide as Hrk.
    + intros [Hc| ->%list_elem_of_singleton]%elem_of_app.
      * eapply commitment_ok_extends; [exact He|]. by eapply wf_commit.
      * split; by eexists.
    + intros Hc. eapply commitment_ok_extends; [exact He|]. by eapply wf_commit.
  - intros k d Hd. rewrite Hdon in Hd. rewrite Hround. apply Hacl. left.
    by apply (wf_granted _ _ Hwf).
  - intros k Hk. rewrite Hcnt in Hk. rewrite Hround. apply Hacl. left.
    by apply (wf_granted_this _ _ Hwf).
  - intros k a. rewrite Hhas, Hdon. apply (wf_hasDonated _ _ Hwf).
  - intros k. rewrite Hdon. apply (wf_nodup _ _ Hwf).
  - intros k c. rewrite Hcom. case_decide as Hrk.
    + intros [Hc| ->%list_elem_of_singleton]%elem_of_app; [|done].
      by eapply wf_active.
    + intros Hc. by eapply wf_active.
Qed.

Lemma wf_settleRound w env roundId :
  wf this w ->
  round_in_range w roundId = true ->
  wf this (settleRound_world this env roundId w).
Proof.
  intros Hwf Hin%round_in_range_true.
  assert (Forall (commitment_ok (backend w)) (commitments_at (storage w) roundId))
    as Hcs.
  { apply Forall_forall. intros c Hc. by eapply wf_commit. }
  destruct (settleRound_backend env roundId w _ (wf_plain _ _ Hwf)
              (wf_total _ _ Hwf roundId Hin) Hcs)
    as (He & Hp & Hlt & Hfresh & Hct & _ & _ & Hacl).
  set (w' := settleRound_world this env roundId w) in *.
  assert (forall k, commitments_at (storage w') k = commitments_at (storage w) k)
    as Hcom by done.
  assert (forall k, donations_at (storage w') k = donations_at (storage w) k)
    as Hdon by done.
  assert (roundCounter (storage w') = roundCounter (storage w)) as Hcnt by done.
  assert (forall k, k <> roundId -> round_at (storage w') k = round_at (storage w) k)
    as Hround.
  { intros k Hk. subst w'. unfold settleRound_world. reads.
    by rewrite !decide_False by done. }
  assert (forall k, DonationRound.encryptedCommunityTotal (round_at (storage w') k)
            = DonationRound.encryptedCommunityTotal (round_at (storage w) k))
    as Hsame.
  { intros k. destruct (decide (k = roundId)) as [->|Hk]; [done|].
    by rewrite Hround. }
  assert (forall k a, hasDonated_at (storage w') k a = hasDonated_at (storage w) k a)
    as Hhas by done.
  assert (forall k d, d ∈ donations_at (storage w) k ->
            is_Some (decrypt (backend w) (Donation.amount d))) as Hamt
    by apply (wf_amount _ _ Hwf).
  split.
  - rewrite Hcnt. apply (wf_counter _ _ Hwf).
  - intros k Hk. rewrite Hdon. by apply (wf_unborn _ _ Hwf).
  - done.
  - intros h a Hha%Hacl. rewrite Hfresh.
    destruct Hha as [Hha|[-> _]]; [|lia].
    apply (wf_acl _ _ Hwf) in Hha. lia.
  - intros k d Hd. rewrite Hdon in Hd.
    destruct (Hamt _ _ Hd) as [x Hx]. exists x. by eapply decrypt_extends.
  - intros k Hk. rewrite Hcnt in Hk. rewrite Hsame, Hdon.
    rewrite (donated_extends (backend w) _ _ He (Hamt k)).
    eapply decrypt_extends; [exact He|]. by apply (wf_total _ _ Hwf).
  - intros k c Hc. rewrite Hcom in Hc.
    eapply commitment_ok_extends; [exact He|]. by eapply wf_commit.
  - intros k d Hd. rewrite Hdon in Hd. rewrite Hsame. apply Hacl. left.
    by apply (wf_granted _ _ Hwf).
  - intros k Hk. rewrite Hcnt in Hk. rewrite Hsame. apply Hacl. left.
    by apply (wf_granted_this _ _ Hwf).
  - intros k a. rewrite Hhas, Hdon. apply (wf_hasDonated _ _ Hwf).
  - intros k. rewrite Hdon. apply (wf_nodup _ _ Hwf).
  - intros k c Hc. rewrite Hcom in Hc. by eapply wf_active.
Qed.

Lemma wf_effect w env c w' : wf this w -> effect this verify env w c w' -> wf this w'.
Proof.
  intros Hwf Heff. destruct Heff.
  - done.
  - by apply wf_createRound.
  - by apply wf_donate.
  - by apply wf_commitMatching.
  - by apply wf_settleRound.
Qed.

Lemma wf_transact w env c : wf this w -> wf this (transact this verify env c w).1.
Proof. intros Hwf. eapply wf_effect; [exact Hwf|apply transact_effect]. Qed.

(** What each write does to one round of the storage. *)
Lemma effect_round env w c w' k :
  effect this verify env w c w' ->
  round_in_range w k = true ->
  round_in_range w' k = true
  /\ DonationRound.endTime (round_at (storage w') k)
     = DonationRound.endTime (round_at (storage w) k)
  /\ (DonationRound.settled (round_at (storage w) k) = true ->
      DonationRound.settled (round_at (storage w') k) = true)
  /\ (DonationRound.settled (round_at (storage w') k) = true ->
      DonationRound.settled (round_at (storage w) k) = true
      \/ (c = SettleRound k
          /\ DonationRound.endTime (round_at (storage w) k) <= block_timestamp env)).
Proof.
  intros Heff Hk. pose proof Hk as Hk'%round_in_range_true.
  destruct Heff as [c|name description duration Hdur Hmax
                   |roundId e p v Hin Hs Hend Hd Hv
                   |roundId eMax eMin pMax pMin vMax vMin Hin Hs Hd HvM HvT
                   |roundId Hin Hs Hend].
  - auto.
  - assert (round_at (storage (createRound_world this env name description
                                 duration w)) k = round_at (storage w) k) as ->.
    { unfold createRound_world. reads. rewrite decide_False by lia. done. }
    split_and!; auto. apply round_in_range_true.
    unfold createRound_world. reads. lia.
  - assert (round_at (storage (donate_world this env roundId v w)) k
            = if decide (roundId = k)
              then DonationRound.set_encryptedCommunityTotal
                     (S (fresh (backend w))) (round_at (storage w) roundId)
              else round_at (storage w) k) as ->.
    { unfold donate_world. by reads. }
    case_decide as Hrk; [subst k|]; cbn; auto.
  - auto.
  - assert (round_at (storage (settleRound_world this env roundId w)) k
            = if decide (roundId = k)
              then DonationRound.set_encryptedFinalTotal
                     (fresh (foldl (settle_step
                         (DonationRound.encryptedCommunityTotal
                            (round_at (storage w) roundId)))
                         (fresh (backend w), extend 0 (backend w))
                         (commitments_at (storage w) roundId)).2)
                     (DonationRound.set_encryptedMatchingTotal
                        (foldl (settle_step
                         (DonationRound.encryptedCommunityTotal
                            (round_at (storage w) roundId)))
                         (fresh (backend w), extend 0 (backend w))
                         (commitments_at (storage w) roundId)).1
                        (DonationRound.set_settled true
                           (round_at (storage w) roundId)))
              else round_at (storage w) k) as ->.
    { unfold settleRound_world. reads. by repeat case_decide. }
    case_decide as Hrk; [subst k|]; cbn; auto.
    split_and!; auto.
Qed.

Lemma settled_before_effect t w env c w' :
  wf this w -> settled_before t w -> t <= block_timestamp env ->
  effect this verify env w c w' ->
  settled_before (block_timestamp env) w'.
Proof.
  intros Hwf Hsb Ht Heff k Hs.
  destruct (round_in_range w k) eqn:Hk.
  - destruct (effect_round env w c w' k Heff Hk) as (_ & -> & _ & Hback).
    destruct (Hback Hs) as [Hold|[_ Hend]]; [|done].
    specialize (Hsb k Hold). lia.
  - (* a round not yet created is the zero round, or the one just created *)
    apply round_in_range_false in Hk.
    destruct Heff as [c|name description duration Hdur Hmax
                     |roundId e p v Hin%round_in_range_true Hs' Hend Hd Hv
                     |roundId eMax eMin pMax pMin vMax vMin Hin Hs' Hd HvM HvT
                     |roundId Hin%round_in_range_true Hs' Hend].
    + specialize (Hsb k Hs). lia.
    + revert Hs. unfold createRound_world. reads. case_decide; [done|].
      intros Hs. specialize (Hsb k Hs). lia.
    + revert Hs. unfold donate_world. reads.
      case_decide as Hrk; [subst k; by destruct Hk|].
      intros Hs. specialize (Hsb k Hs). lia.
    + revert Hs. unfold commitMatching_world. reads.
      intros Hs. specialize (Hsb k Hs). lia.
    + revert Hs. unfold settleRound_world. reads.
      case_decide as Hrk; [subst k; by destruct Hk|].
      intros Hs. specialize (Hsb k Hs). lia.
Qed.

(** *** What a successful write tells *)

Lemma createRound_success env name description duration w w' r :
  transact this verify env (CreateRound name description duration) w
    = (w', Success r) ->
  name <> "" /\ 0 < duration
  /\ roundCounter (storage w) + 1 <= MAX_UINT256
  /\ block_timestamp env + duration <= MAX_UINT256
  /\ r = RNone
  /\ w' = createRound_world this env name description duration w.
Proof.
  rewrite transact_createRound, createRound_run.
  destruct (Z.ltb_spec 0 (Z.of_nat (String.length name))); cbn [negb];
    [|discriminate].
  destruct (Z.ltb_spec 0 duration); cbn [negb]; [|discriminate].
  destruct (Z.leb_spec (roundCounter (storage w) + 1) MAX_UINT256);
    cbn [negb]; [|discriminate].
  destruct (Z.leb_spec (block_timestamp env + duration) MAX_UINT256);
    cbn [negb]; [|discriminate].
  intros [= <- <-]. split_and!; try done.
  intros ->. cbn in *. lia.
Qed.

Lemma donate_success env roundId encryptedAmount inputProof w w' r :
  transact this verify env (Donate roundId encryptedAmount inputProof) w
    = (w', Success r) ->
  round_in_range w roundId = true
  /\ DonationRound.settled (round_at (storage w) roundId) = false
  /\ block_timestamp env < DonationRound.endTime (round_at (storage w) roundId)
  /\ hasDonated_at (storage w) roundId (msg_sender env) = false
  /\ r = RNone
  /\ exists v, verify this (msg_sender env) encryptedAmount inputProof = Some v
            /\ w' = donate_world this env roundId v w.
Proof.
  rewrite transact_donate, donate_run. fold (round_in_range w roundId).
  destruct (round_in_range w roundId); cbn [negb]; [|discriminate].
  destruct (DonationRound.settled _); [discriminate|].
  destruct (Z.ltb_spec (block_timestamp env)
              (DonationRound.endTime (round_at (storage w) roundId)));
    cbn [negb]; [|discriminate].
  destruct (hasDonated_at _ _ _); [discriminate|].
  destruct (verify _ _ _ _) as [v|]; [|discriminate].
  intros [= <- <-]. split_and!; try done. by exists v.
Qed.

Lemma commitMatching_success env roundId eMax eMin pMax pMin w w' r :
  transact this verify env (CommitMatching roundId eMax eMin pMax pMin) w
    = (w', Success r) ->
  round_in_range w roundId = true
  /\ DonationRound.settled (round_at (storage w) roundId) = false
  /\ block_timestamp env < DonationRound.endTime (round_at (storage w) roundId)
  /\ hasCommittedMatching_at (storage w) roundId (msg_sender env) = false
  /\ r = RNone
  /\ exists vMax vMin,
       verify this (msg_sender env) eMax pMax = Some vMax
       /\ verify this (msg_sender env) eMin pMin = Some vMin
       /\ w' = commitMatching_world this env roundId vMax vMin w.
Proof.
  rewrite transact_commitMatching, commitMatching_run.
  fold (round_in_range w roundId).
  destruct (round_in_range w roundId); cbn [negb]; [|discriminate].
  destruct (DonationRound.settled _); [discriminate|].
  destruct (Z.ltb_spec (block_timestamp env)
              (DonationRound.endTime (round_at (storage w) roundId)));
    cbn [negb]; [|discriminate].
  destruct (hasCommittedMatching_at _ _ _); [discriminate|].
  destruct (verify _ _ eMax _) as [vMax|]; [|discriminate].
  destruct (verify _ _ eMin _) as [vMin|]; [|discriminate].
  intros [= <- <-]. split_and!; try done. by exists vMax, vMin.
Qed.

Lemma settleRound_success env roundId w w' r :
  transact this verify env (SettleRound roundId) w = (w', Success r) ->
  round_in_range w roundId = true
  /\ DonationRound.settled (round_at (storage w) roundId) = false
  /\ DonationRound.endTime (round_at (storage w) roundId) <= block_timestamp env
  /\ r = RNone
  /\ w' = settleRound_world this env roundId w.
Proof.
  rewrite transact_settleRound, settleRound_run.
  fold (round_in_range w roundId).
  destruct (round_in_range w roundId); cbn [negb]; [|discriminate].
  destruct (DonationRound.settled _); [discriminate|].
  destruct (Z.leb_spec (DonationRound.endTime (round_at (storage w) roundId))
              (block_timestamp env)); cbn [negb]; [|discriminate].
  by intros [= <- <-].
Qed.

(** A call only grants on ciphertexts it produced itself. *)
Lemma effect_backend env w c w' :
  wf this w -> effect this verify env w c w' ->
  extends (backend w) (backend w')
  /\ (forall h a, (h < fresh (backend w))%nat ->
        (h, a) ∈ acl (backend w') <-> (h, a) ∈ acl (backend w)).
Proof.
  intros Hwf Heff.
  destruct Heff as [c|name description duration Hdur Hmax
                   |roundId e p v Hin Hs Hend Hd Hv
                   |roundId eMax eMin pMax pMin vMax vMin Hin Hs Hd HvM HvT
                   |roundId Hin%round_in_range_true Hs Hend].
  - split; [apply extends_refl|done].
  - destruct (createRound_backend env name description duration w)
      as (He & _ & _ & _ & _ & _ & Hacl).
    split; [done|]. intros h a Hlt. rewrite Hacl. split; [|auto].
    intros [?|[_ ?]]; [done|lia].
  - destruct (donate_backend env roundId v w) as (He & _ & _ & _ & _ & Hacl).
    split; [done|]. intros h a Hlt. rewrite Hacl. split; [|auto].
    intros [?|[[? _]|[? _]]]; [done|lia|lia].
  - destruct (commitMatching_backend env roundId vMax vMin w)
      as (He & _ & _ & _ & _ & Hacl).
    split; [done|]. intros h a Hlt. rewrite Hacl. split; [|auto].
    intros [?|[? _]]; [done|lia].
  - assert (Forall (commitment_ok (backend w))
              (commitments_at (storage w) roundId)) as Hcs.
    { apply Forall_forall. intros c Hc. by eapply wf_commit. }
    destruct (settleRound_backend env roundId w _ (wf_plain _ _ Hwf)
                (wf_total _ _ Hwf roundId Hin) Hcs)
      as (He & _ & Hlt' & _ & _ & _ & _ & Hacl).
    split; [done|]. intros h a Hlt. rewrite Hacl. split; [|auto].
    intros [?|[? _]]; [done|lia].
Qed.

Lemma wf_run_trace tr : forall w, wf this w -> wf this (run_trace this verify tr w).
Proof.
  induction tr as [|[env c] tr IH]; intros w Hwf; [done|].
  apply IH. by apply wf_transact.
Qed.

Lemma run_trace_backend tr : forall w,
  wf this w ->
  extends (backend w) (backend (run_trace this verify tr w))
  /\ (forall h a, (h < fresh (backend w))%nat ->
        (h, a) ∈ acl (backend (run_trace this verify tr w))
        <-> (h, a) ∈ acl (backend w)).
Proof.
  induction tr as [|[env c] tr IH]; intros w Hwf.
  - split; [apply extends_refl|done].
  - destruct (effect_backend env w c _ Hwf (transact_effect env c w))
      as [He Hacl].
    destruct (IH _ (wf_transact w env c Hwf)) as [He' Hacl'].
    split; [by eapply extends_trans|].
    intros h a Hlt. cbn [run_trace foldl fst snd] in *.
    rewrite Hacl' by (apply extends_fresh in He; lia). by apply Hacl.
Qed.


Lemma donations_run_range roundId w l w' :
  donations_run this verify roundId w l w' ->
  Forall (fun v => 0 <= v) l.*2.
Proof.
  induction 1 as [w|w env e p v w1 l w2 Htx Hv Hrun IH|w env c l w2 Hc Hrun IH];
    cbn; [done| |done].
  constructor; [|done]. apply wrap64_range.
Qed.

(** A call other than a successful donation to a round leaves the donations
    of that round as they are. *)
Lemma transact_donations env c w k :
  (forall e p, c = Donate k e p ->
     (transact this verify env c w).2 <> Success RNone) ->
  donations_at (storage (transact this verify env c w).1) k
  = donations_at (storage w) k.
Proof.
  intros Hc.
  destruct c as [name description duration | roundId e p
                | roundId eMax eMin pMax pMin | roundId | roundId | roundId
                | roundId | roundId | ]; try (by rewrite transact_view).
  - rewrite transact_createRound, createRound_run.
    repeat case_match; simplify_eq; cbn [fst]; done.
  - revert Hc. rewrite transact_donate, donate_run.
    repeat case_match; simplify_eq; cbn [fst snd]; try done. intros Hc.
    unfold donate_world. reads. case_decide as Hk; [|done].
    subst k. by destruct (Hc e p).
  - rewrite transact_commitMatching, commitMatching_run.
    repeat case_match; simplify_eq; cbn [fst]; done.
  - rewrite transact_settleRound, settleRound_run.
    repeat case_match; simplify_eq; cbn [fst]; done.
Qed.

Lemma donations_run_spec roundId w l w' :
  donations_run this verify roundId w l w' ->
  wf this w -> round_in_range w roundId = true ->
  wf this w'
  /\ round_in_range w' roundId = true
  /\ Donation.donor <$> donations_at (storage w') roundId
     = (Donation.donor <$> donations_at (storage w) roundId) ++ l.*1
  /\ donated (backend w') (donations_at (storage w') roundId)
     = donated (backend w) (donations_at (storage w) roundId) + sumZ l.*2.
Proof.
  induction 1 as [w|w env e p v w1 l w2 Htx Hv Hrun IH|w env c l w2 Hc Hrun IH];
    intros Hwf Hin.
  - split_and!; try done.
    + by rewrite app_nil_r.
    + cbn. lia.
  - apply donate_success in Htx as (_ & Hs & Hend & Hd & _ & v' & Hv' & ->).
    assert (v' = v) as -> by congruence.
    destruct (donate_backend env roundId v w)
      as (He & Hfresh & Hp & HdA & HdT & Hacl).
    assert (wf this (donate_world this env roundId v w)) as Hwf1
      by (by apply wf_donate).
    assert (round_in_range (donate_world this env roundId v w) roundId = true)
      as Hin1 by done.
    destruct (IH Hwf1 Hin1) as (Hwf2 & Hin2 & Hdonors & Hsum).
    split_and!; try done.
    + rewrite Hdonors. unfold donate_world at 1. cbn [storage].
      autorewrite with storage. rewrite fmap_app, <- app_assoc. done.
    + rewrite Hsum. unfold donate_world at 2. cbn [storage].
      autorewrite with storage.
      rewrite donated_snoc, (donated_extends (backend w) _ _ He
                              (wf_amount _ _ Hwf roundId)).
      cbn [Donation.amount]. rewrite (cleartext_Some _ _ _ HdA).
      cbn [fmap list_fmap snd]. unfold sumZ at 2. cbn [foldr].
      fold (sumZ l.*2). lia.
  - pose proof (transact_effect env c w) as Heff.
    destruct (effect_round env w c _ roundId Heff Hin) as (Hin1 & _).
    destruct (effect_backend env w c _ Hwf Heff) as [He _].
    destruct (IH (wf_transact w env c Hwf) Hin1)
      as (Hwf2 & Hin2 & Hdonors & Hsum).
    rewrite (transact_donations env c w roundId Hc) in Hdonors, Hsum.
    rewrite (donated_extends (backend w) _ _ He (wf_amount _ _ Hwf roundId))
      in Hsum.
    done.
Qed.

Lemma reachable_run_trace tr : forall t w,
  reachable this verify t w ->
  trace_ordered t tr = true ->
  reachable this verify (trace_end t tr) (run_trace this verify tr w).
Proof.
  induction tr as [|[env c] tr IH]; intros t w Hreach Hord; [done|].
  cbn in Hord. apply andb_true_iff in Hord as [Ht%Z.leb_le Hord].
  apply (IH (block_timestamp env)); [|done].
  by apply (reach_call _ _ t).
Qed.

Lemma reachable_wf t w : reachable this verify t w -> wf this w /\ settled_before t w.
Proof.
  induction 1 as [t|t w env c _ [IH1 IH2] Ht|t t' w _ [IH1 IH2] Ht].
  - split; [apply wf_initial|]. intros k. discriminate.
  - split; [by apply wf_transact|].
    eapply settled_before_effect; [exact IH1|exact IH2|exact Ht|].
    apply transact_effect.
  - split; [done|]. intros k Hs. specialize (IH2 k Hs). lia.
Qed.

End Theory.

(** * The claims *)

Section Claims.
Variable this : Z.
Variable verify : Z -> Z -> Z -> list Z -> option Z.

(** C9. For an id outside [1, roundCount()] each of getRound,
    getDonationCount and getMatchingCommitmentCount fails with the
    not-found revert; for an id inside that range each succeeds, returning
    the stored round, the number of donations and the number of commitments;
    in every case the world after the call is the world before it. *)
Theorem C9_reads_found_or_not env w roundId :
  let n := roundCounter (storage w) in
  transact this verify env GetRoundCount w = (w, Success (RUint n))
  /\ (~ (1 <= roundId <= n) ->
      transact this verify env (GetRound roundId) w = (w, Failed NotFound)
      /\ transact this verify env (GetDonationCount roundId) w
         = (w, Failed NotFound)
      /\ transact this verify env (GetMatchingCommitmentCount roundId) w
         = (w, Failed NotFound))
  /\ (1 <= roundId <= n ->
      transact this verify env (GetRound roundId) w
        = (w, Success (RRound (round_at (storage w) roundId)))
      /\ transact this verify env (GetDonationCount roundId) w
         = (w, Success (RUint (Z.of_nat (length (donations_at (storage w) roundId)))))
      /\ transact this verify env (GetMatchingCommitmentCount roundId) w
         = (w, Success (RUint (Z.of_nat
                                 (length (commitments_at (storage w) roundId)))))).
Proof.
  intros n; subst n. split; [done|]. split.
  - intros Hout.
    assert (round_in_range w roundId = false) as Hr
      by (apply round_in_range_false; lia).
    unfold transact, dispatch, mbind, tx_bind, bind.
    by rewrite getRound_run, getDonationCount_run,
      getMatchingCommitmentCount_run, Hr.
  - intros Hin.
    assert (round_in_range w roundId = true) as Hr
      by (apply round_in_range_true; lia).
    unfold transact, dispatch, mbind, tx_bind, bind.
    by rewrite getRound_run, getDonationCount_run,
      getMatchingCommitmentCount_run, Hr.
Qed.

(** C4. donate checks its preconditions in the order: the round exists,
    the round is not settled, the current time is before the end time, the
    caller has not donated to the round; the first one that fails decides
    the revert, and a failed call changes nothing: the world after it is the
    world before it, so no donation is appended and the donation count, the
    community total and the has-donated flags are as they were. *)
Theorem C4_donate_preconditions env w roundId encryptedAmount inputProof :
  let out := transact this verify env (Donate roundId encryptedAmount inputProof) w in
  let r := round_at (storage w) roundId in
  (~ (1 <= roundId <= roundCounter (storage w)) -> out = (w, Failed NotFound))
  /\ (1 <= roundId <= roundCounter (storage w) ->
      DonationRound.settled r = true -> out = (w, Failed AlreadySettled))
  /\ (1 <= roundId <= roundCounter (storage w) ->
      DonationRound.settled r = false ->
      DonationRound.endTime r <= block_timestamp env ->
      out = (w, Failed RoundEnded))
  /\ (1 <= roundId <= roundCounter (storage w) ->
      DonationRound.settled r = false ->
      block_timestamp env < DonationRound.endTime r ->
      hasDonated_at (storage w) roundId (msg_sender env) = true ->
      out = (w, Failed DuplicateDonation))
  /\ (forall e, out.2 = Failed e ->
      out.1 = w
      /\ donations_at (storage out.1) roundId = donations_at (storage w) roundId
      /\ DonationRound.encryptedCommunityTotal (round_at (storage out.1) roundId)
         = DonationRound.encryptedCommunityTotal r
      /\ (forall a, hasDonated_at (storage out.1) roundId a
                    = hasDonated_at (storage w) roundId a)).
Proof.
  intros out r; subst out r.
  rewrite transact_donate, donate_run. fold (round_in_range w roundId).
  split_and!.
  - intros Hout.
    rewrite (proj2 (round_in_range_false w roundId)) by lia. done.
  - intros Hin Hs.
    rewrite (proj2 (round_in_range_true w roundId)), Hs by lia. done.
  - intros Hin Hs Hend.
    rewrite (proj2 (round_in_range_true w roundId)), Hs by lia. cbn [negb].
    by destruct (Z.ltb_spec (block_timestamp env)
                   (DonationRound.endTime (round_at (storage w) roundId)));
      [lia|].
  - intros Hin Hs Hend Hd.
    rewrite (proj2 (round_in_range_true w roundId)), Hs, Hd by lia. cbn [negb].
    by destruct (Z.ltb_spec (block_timestamp env)
                   (DonationRound.endTime (round_at (storage w) roundId)));
      [|lia].
  - intros e.
    destruct (round_in_range w roundId); cbn [negb]; [|done].
    destruct (DonationRound.settled _); [done|].
    destruct (block_timestamp env <? _); cbn [negb]; [|done].
    destruct (hasDonated_at _ _ _); [done|].
    by destruct (verify _ _ _ _).
Qed.

(** C10. After a successful donate, the donation appended to the round
    records the caller as donor and the ingested amount as its ciphertext,
    and the caller (and the contract) holds a decrypt grant on that
    ciphertext, whose plaintext is the donated amount. *)
Theorem C10_donor_reads_own_amount env w roundId encryptedAmount inputProof w' r :
  transact this verify env (Donate roundId encryptedAmount inputProof) w
    = (w', Success r) ->
  exists d v,
    donations_at (storage w') roundId = donations_at (storage w) roundId ++ [d]
    /\ Donation.donor d = msg_sender env
    /\ verify this (msg_sender env) encryptedAmount inputProof = Some v
    /\ decrypt (backend w') (Donation.amount d) = Some (wrap64 v)
    /\ (Donation.amount d, msg_sender env) ∈ acl (backend w')
    /\ (Donation.amount d, this) ∈ acl (backend w')
    /\ Donation.amount d
       <> DonationRound.encryptedCommunityTotal (round_at (storage w') roundId).
Proof.
  intros (Hin & Hs & Hend & Hd & -> & v & Hv & ->)%donate_success.
  destruct (donate_backend this verify env roundId v w)
    as (He & Hfresh & Hp & HdA & HdT & Hacl).
  exists (Donation.mk (msg_sender env) (fresh (backend w))
            (block_timestamp env) roundId), v.
  cbn [Donation.donor Donation.amount].
  split_and!; try done.
  - unfold donate_world. cbn [storage]. by autorewrite with storage.
  - apply Hacl. right; left. auto.
  - apply Hacl. right; left. auto.
  - unfold donate_world. cbn [storage]. autorewrite with storage. cbn. lia.
Qed.

(** C2. After a successful donate on a round, the updated community total
    is a new ciphertext on which the contract, the donor who just donated
    and every prior donor of the round hold a decrypt grant, the prior donors
    being granted one after the other in donation order; and in every
    reachable state, whoever has donated to a round holds a grant on the
    round's current community total. *)
Theorem C2_donors_keep_access t w :
  reachable this verify t w ->
  (forall env roundId encryptedAmount inputProof w' r,
      transact this verify env (Donate roundId encryptedAmount inputProof) w
        = (w', Success r) ->
      let total :=
        DonationRound.encryptedCommunityTotal (round_at (storage w') roundId) in
      let prior := Donation.donor <$> donations_at (storage w) roundId in
      (fresh (backend w) <= total)%nat
      /\ (total, this) ∈ acl (backend w')
      /\ (total, msg_sender env) ∈ acl (backend w')
      /\ (forall a, a ∈ prior -> (total, a) ∈ acl (backend w'))
      /\ exists b0, backend w' = grant_all total prior b0)
  /\ (forall roundId a,
        hasDonated_at (storage w) roundId a = true ->
        (DonationRound.encryptedCommunityTotal (round_at (storage w) roundId), a)
          ∈ acl (backend w)).
Proof.
  intros [Hwf _]%reachable_wf. split.
  - intros env roundId e p w' r
      (Hin & Hs & Hend & Hd & -> & v & Hv & ->)%donate_success total prior.
    destruct (donate_backend this verify env roundId v w)
      as (He & Hfresh & Hp & HdA & HdT & Hacl).
    assert (total = S (fresh (backend w))) as ->.
    { subst total. unfold donate_world. cbn [storage].
      by autorewrite with storage. }
    split_and!.
    + lia.
    + apply Hacl. right; right. auto.
    + apply Hacl. right; right. auto.
    + intros a Ha. apply Hacl. right; right. auto.
    + unfold donate_world. cbn [backend]. by eexists.
  - intros roundId a Ha. apply (wf_hasDonated _ _ Hwf) in Ha.
    apply list_elem_of_fmap in Ha as [d [-> Hd]].
    by apply (wf_granted _ _ Hwf).
Qed.


(** C7, as the code has it. createRound fails with an invalid-argument
    revert when the name is empty or the duration is not positive, and
    then changes nothing. Otherwise, when the round counter or the end time
    would overflow 256 bits it panics and changes nothing, and when neither
    does it succeeds: the new round has the id
    roundCount + 1, starts now, ends at now + duration, is not settled, has
    three totals that decrypt to zero and a public final total of 0; the
    other rounds are untouched; the new id is carried by the
    DonationRoundCreated event, the call itself returning nothing; and no
    call ever decreases the round counter. *)
Theorem C7_createRound env w name description duration :
  let out := transact this verify env (CreateRound name description duration) w in
  let n := roundCounter (storage w) in
  let now := block_timestamp env in
  (name = "" \/ duration <= 0 -> exists e, out = (w, Failed e) /\ InvalidArgument e)
  /\ (name <> "" -> 0 < duration ->
      n + 1 <= MAX_UINT256 -> now + duration <= MAX_UINT256 ->
      out.2 = Success RNone
      /\ roundCounter (storage out.1) = n + 1
      /\ (exists zc zm zf,
            round_at (storage out.1) (n + 1)
            = DonationRound.mk (n + 1) name description now (now + duration)
                false zc zm zf 0
            /\ decrypt (backend out.1) zc = Some 0
            /\ decrypt (backend out.1) zm = Some 0
            /\ decrypt (backend out.1) zf = Some 0)
      /\ (forall k, k <> n + 1 ->
            round_at (storage out.1) k = round_at (storage w) k)
      /\ events out.1
         = events w ++ [DonationRoundCreated (n + 1) name (now + duration)])
  /\ (name <> "" -> 0 < duration ->
      MAX_UINT256 < n + 1 \/ MAX_UINT256 < now + duration ->
      out = (w, Failed (Panic PANIC_ARITHMETIC)))
  /\ (forall env' c,
        roundCounter (storage w)
        <= roundCounter (storage (transact this verify env' c w).1)).
Proof.
  intros out n now; subst out n now.
  rewrite transact_createRound, createRound_run.
  split_and!.
  - intros [-> | Hdur].
    + eexists. split; [reflexivity|]. by left.
    + destruct (0 <? Z.of_nat (String.length name)); cbn [negb].
      * destruct (Z.ltb_spec 0 duration); [lia|]. cbn [negb].
        eexists. split; [reflexivity|]. by right.
      * eexists. split; [reflexivity|]. by left.
  - intros Hname Hdur Hcnt Hend.
    assert ((0 <? Z.of_nat (String.length name)) = true) as ->.
    { apply Z.ltb_lt. destruct name; [done|]. cbn. lia. }
    destruct (Z.ltb_spec 0 duration); [|lia].
    destruct (Z.leb_spec (roundCounter (storage w) + 1) MAX_UINT256); [|lia].
    destruct (Z.leb_spec (block_timestamp env + duration) MAX_UINT256); [|lia].
    cbn [negb fst snd].
    destruct (createRound_backend this verify env name description duration w)
      as (_ & _ & _ & Hd1 & Hd2 & Hd3 & _).
    split_and!; try done.
    + exists (fresh (backend w)), (S (fresh (backend w))),
        (S (S (fresh (backend w)))).
      split_and!; try done.
      unfold createRound_world. cbn [storage]. by autorewrite with storage.
    + intros k Hk. unfold createRound_world. reads.
      by rewrite decide_False by done.
  - intros Hname Hdur Hover.
    assert ((0 <? Z.of_nat (String.length name)) = true) as ->.
    { apply Z.ltb_lt. destruct name; [done|]. cbn. lia. }
    destruct (Z.ltb_spec 0 duration); [|lia]. cbn [negb].
    destruct (Z.leb_spec (roundCounter (storage w) + 1) MAX_UINT256);
      cbn [negb]; [|done].
    by destruct (Z.leb_spec (block_timestamp env + duration) MAX_UINT256);
      [lia|].
  - intros env' c.
    destruct (transact_effect this verify env' c w); try done.
    unfold createRound_world. reads. lia.
Qed.

(** C1, as the code has it. When settleRound succeeds on a reachable
    state, the community total still decrypts to what it did, the new
    matching total decrypts to the sum modulo 2^64, over the round's
    commitments in insertion order whose active flag is set, of the maximum
    matching amount when the community total reaches the trigger and of 0
    otherwise, and the new final total decrypts to the community total plus
    that sum, modulo 2^64. When the community total plus the sum fits in 64
    bits the two totals are these sums exactly; for a round with a single
    commitment with trigger T and maximum M whose sum with the community
    total fits, the final total is communityTotal + M when
    communityTotal >= T and communityTotal when communityTotal < T. *)
Theorem C1_settlement_totals t w env roundId w' r :
  reachable this verify t w ->
  transact this verify env (SettleRound roundId) w = (w', Success r) ->
  let b := backend w in
  let C := cleartext b (DonationRound.encryptedCommunityTotal
                          (round_at (storage w) roundId)) in
  let cs := commitments_at (storage w) roundId in
  let ms := matching_sum b C cs in
  let round' := round_at (storage w') roundId in
  decrypt (backend w') (DonationRound.encryptedCommunityTotal round') = Some C
  /\ decrypt (backend w') (DonationRound.encryptedMatchingTotal round')
     = Some (wrap64 ms)
  /\ decrypt (backend w') (DonationRound.encryptedFinalTotal round')
     = Some (wrap64 (C + ms))
  /\ (C + ms <= MAX_UINT64 ->
      decrypt (backend w') (DonationRound.encryptedMatchingTotal round') = Some ms
      /\ decrypt (backend w') (DonationRound.encryptedFinalTotal round')
         = Some (C + ms))
  /\ (forall c,
        cs = [c] ->
        let T := cleartext b (MatchingCommitment.minTrigger c) in
        let M := cleartext b (MatchingCommitment.maxMatchingAmount c) in
        C + M <= MAX_UINT64 ->
        decrypt (backend w') (DonationRound.encryptedFinalTotal round')
        = Some (if T <=? C then C + M else C)).
Proof.
  intros [Hwf _]%reachable_wf (Hin & Hs & Hend & -> & ->)%settleRound_success
    b C cs ms round'.
  pose proof Hin as Hin'%round_in_range_true.
  assert (Forall (commitment_ok b) cs) as Hcs.
  { apply Forall_forall. intros c Hc. by eapply wf_commit. }
  pose proof (wf_total _ _ Hwf roundId Hin') as HC.
  assert (decrypt b (DonationRound.encryptedCommunityTotal
                       (round_at (storage w) roundId)) = Some C) as HC'.
  { subst C b. by rewrite (cleartext_Some _ _ _ HC). }
  destruct (settleRound_backend this verify env roundId w C (wf_plain _ _ Hwf)
              HC' Hcs) as (He & Hp & _ & _ & Hct & HdM & HdF & _).
  fold round' b cs ms in Hct, HdM, HdF.
  pose proof (cleartext_range b
                (DonationRound.encryptedCommunityTotal
                   (round_at (storage w) roundId)) (wf_plain _ _ Hwf)) as HCr.
  fold C in HCr.
  pose proof (matching_sum_nonneg b C cs (wf_plain _ _ Hwf)) as Hms.
  fold ms in Hms.
  split_and!.
  - rewrite Hct. by eapply decrypt_extends.
  - done.
  - done.
  - intros Hfit. rewrite HdM, HdF.
    rewrite !wrap64_small by (unfold MAX_UINT64 in *; lia). done.
  - intros c Hc T M Hfit. rewrite HdF. f_equal.
    assert (MatchingCommitment.isActive c = true) as Hact.
    { apply (wf_active _ _ Hwf roundId). fold cs. rewrite Hc.
      by apply list_elem_of_singleton. }
    assert (ms = if T <=? C then M else 0) as ->.
    { subst ms. rewrite Hc. unfold matching_sum, contribution; cbn.
      rewrite Hact. fold T M. destruct (T <=? C); lia. }
    pose proof (cleartext_range b (MatchingCommitment.maxMatchingAmount c)
                  (wf_plain _ _ Hwf)) as HMr.
    fold M in HMr.
    destruct (T <=? C).
    + apply wrap64_small. unfold MAX_UINT64 in *. lia.
    + rewrite Z.add_0_r. apply wrap64_small. done.
Qed.


(** C6. Starting from a reachable state in which a round has no
    donation yet, after any sequence of calls among which k are successful
    donate calls to that round, the donors are k distinct addresses, the
    donation count of the round is k, and the community total decrypts to
    the exact sum of the k plaintext amounts whenever that sum does not
    exceed 2^64 - 1. *)
Theorem C6_donations_add_up t w roundId l w' :
  reachable this verify t w ->
  1 <= roundId <= roundCounter (storage w) ->
  donations_at (storage w) roundId = [] ->
  donations_run this verify roundId w l w' ->
  (forall env,
      transact this verify env (GetDonationCount roundId) w'
      = (w', Success (RUint (Z.of_nat (length l)))))
  /\ NoDup l.*1
  /\ (sumZ l.*2 <= MAX_UINT64 ->
      decrypt (backend w')
        (DonationRound.encryptedCommunityTotal (round_at (storage w') roundId))
      = Some (sumZ l.*2)).
Proof.
  intros [Hwf _]%reachable_wf Hin Hempty Hrun.
  assert (round_in_range w roundId = true) as Hr
    by (apply round_in_range_true; lia).
  destruct (donations_run_spec this verify roundId w l w' Hrun Hwf Hr)
    as (Hwf' & Hr' & Hdonors & Hsum).
  rewrite Hempty in Hdonors, Hsum. cbn in Hdonors, Hsum.
  split_and!.
  - intros env. unfold transact, dispatch, mbind, tx_bind, bind.
    rewrite getDonationCount_run, Hr'. do 3 f_equal.
    rewrite <- (length_fmap Donation.donor), Hdonors. by rewrite length_fmap.
  - rewrite <- Hdonors. apply (wf_nodup _ _ Hwf').
  - intros Hfit.
    rewrite (wf_total _ _ Hwf' roundId) by (by apply round_in_range_true).
    rewrite Hsum. f_equal. apply wrap64_small. split; [|done].
    eapply sumZ_nonneg, donations_run_range, Hrun.
Qed.

(** C8. After a successful commitMatching, the two ciphertexts of the
    new commitment, the maximum matching amount and the trigger, are granted
    to the contract and to the committing matcher and to nobody else, and
    whatever calls follow, settleRound included, the set of addresses
    holding a grant on either of them stays exactly that. *)
Theorem C8_commitment_stays_private t w env roundId eMax eMin pMax pMin w1 r :
  reachable this verify t w ->
  transact this verify env (CommitMatching roundId eMax eMin pMax pMin) w
    = (w1, Success r) ->
  exists c,
    commitments_at (storage w1) roundId = commitments_at (storage w) roundId ++ [c]
    /\ MatchingCommitment.matcher c = msg_sender env
    /\ forall tr a,
         let w2 := run_trace this verify tr w1 in
         ((MatchingCommitment.maxMatchingAmount c, a) ∈ acl (backend w2)
          <-> a = this \/ a = msg_sender env)
         /\ ((MatchingCommitment.minTrigger c, a) ∈ acl (backend w2)
             <-> a = this \/ a = msg_sender env).
Proof.
  intros [Hwf _]%reachable_wf
    (Hin & Hs & Hend & Hd & -> & vMax & vMin & HvM & HvT & ->)%commitMatching_success.
  destruct (commitMatching_backend this verify env roundId vMax vMin w)
    as (He & Hfresh & Hp & HdM & HdT & Hacl).
  exists (MatchingCommitment.mk (msg_sender env) (fresh (backend w))
            (S (fresh (backend w))) roundId (block_timestamp env) true).
  cbn [MatchingCommitment.matcher MatchingCommitment.maxMatchingAmount
       MatchingCommitment.minTrigger].
  split_and!.
  - unfold commitMatching_world. cbn [storage]. by autorewrite with storage.
  - done.
  - intros tr a.
    assert (wf this (commitMatching_world this env roundId vMax vMin w)) as Hwf1
      by (by apply wf_commitMatching).
    destruct (run_trace_backend this verify tr _ Hwf1) as [_ Hframe].
    rewrite !Hframe by (rewrite Hfresh; lia). rewrite !Hacl.
    split; (split; [intros [Hold|[_ ?]]; [|done]|intros ?; right; auto]).
    + apply (wf_acl _ _ Hwf) in Hold. lia.
    + apply (wf_acl _ _ Hwf) in Hold. lia.
Qed.

End Claims.

(** * The deployment at work *)

Lemma demo_after_reachable n :
  reachable demo_this demo_verify (trace_end 0 (take n demo_trace)) (demo_after n).
Proof.
  apply reachable_run_trace; [apply reach_deploy|].
  do 5 (destruct n as [|n]; [reflexivity|]). reflexivity.
Qed.

Lemma overflow_open_reachable :
  reachable demo_this demo_verify 1002 overflow_open.
Proof.
  apply (reachable_run_trace demo_this demo_verify overflow_trace 0);
    [apply reach_deploy|reflexivity].
Qed.

Lemma demo_settle_succeeds :
  transact demo_this demo_verify demo_settle_env (SettleRound 1) demo_open
  = (demo_settled, Success RNone).
Proof. vm_compute. reflexivity. Qed.

Lemma demo_open_counter : roundCounter (storage demo_open) = 1.
Proof. reflexivity. Qed.

(** C9 at work: round 1 of the deployment has two donations. *)
Lemma C9_witness :
  1 <= 1 <= roundCounter (storage demo_open)
  /\ transact demo_this demo_verify demo_settle_env (GetDonationCount 1) demo_open
     = (demo_open, Success (RUint 2)).
Proof.
  assert (1 <= 1 <= roundCounter (storage demo_open)) as Hin
    by (rewrite demo_open_counter; lia).
  split; [exact Hin|].
  pose proof (C9_reads_found_or_not demo_this demo_verify demo_settle_env
                demo_open 1) as H.
  cbv zeta in H. destruct H as (_ & _ & H). destruct (H Hin) as (_ & Hc & _).
  rewrite Hc. reflexivity.
Defined.

(** C4 at work: a donation to a round that was never created. *)
Lemma C4_witness :
  ~ (1 <= 7 <= roundCounter (storage demo_open))
  /\ transact demo_this demo_verify (mkEnv 5 1004) (Donate 7 10 [1]) demo_open
     = (demo_open, Failed NotFound).
Proof.
  assert (~ (1 <= 7 <= roundCounter (storage demo_open))) as Hout
    by (rewrite demo_open_counter; lia).
  split; [exact Hout|].
  pose proof (C4_donate_preconditions demo_this demo_verify (mkEnv 5 1004)
                demo_open 7 10 [1]) as H.
  cbv zeta in H. destruct H as (H & _). exact (H Hout).
Defined.

(** C10 at work: the second donor holds a grant on the own amount. *)
Lemma C10_witness :
  transact demo_this demo_verify (mkEnv 3 1002) (Donate 1 200 [1]) (demo_after 2)
  = (demo_after 3, Success RNone)
  /\ exists d,
       last (donations_at (storage (demo_after 3)) 1) = Some d
       /\ decrypt (backend (demo_after 3)) (Donation.amount d) = Some 200
       /\ (Donation.amount d, 3) ∈ acl (backend (demo_after 3)).
Proof.
  assert (transact demo_this demo_verify (mkEnv 3 1002) (Donate 1 200 [1])
            (demo_after 2) = (demo_after 3, Success RNone)) as Htx
    by (vm_compute; reflexivity).
  split; [exact Htx|].
  destruct (C10_donor_reads_own_amount demo_this demo_verify _ _ _ _ _ _ _ Htx)
    as (d & v & Hdon & _ & Hv & Hdec & Hacl & _).
  exists d. split_and!.
  - rewrite Hdon. apply last_snoc.
  - rewrite Hdec. injection Hv as <-. reflexivity.
  - exact Hacl.
Defined.

(** C2 at work: the first donor still reads the community total after the
    second donation and the commitment. *)
Lemma C2_witness :
  reachable demo_this demo_verify 1003 demo_open
  /\ hasDonated_at (storage demo_open) 1 2 = true
  /\ (DonationRound.encryptedCommunityTotal (round_at (storage demo_open) 1), 2)
       ∈ acl (backend demo_open).
Proof.
  pose proof (demo_after_reachable 4) as Hreach.
  assert (hasDonated_at (storage demo_open) 1 2 = true) as Hd
    by (vm_compute; reflexivity).
  split_and!; [exact Hreach|exact Hd|].
  destruct (C2_donors_keep_access demo_this demo_verify _ _ Hreach) as [_ H].
  exact (H 1 2 Hd).
Defined.


(** C7 fails as stated: a successful createRound hands nothing back to its
    caller, and a duration that makes the end time overflow is refused with
    an arithmetic panic, which is neither an invalid-argument revert nor a
    success. *)
Lemma C7_counterexample :
  let created :=
    transact demo_this demo_verify (mkEnv 1 1000)
      (CreateRound "Climate" "Support" 86400) initial_world in
  let refused :=
    transact demo_this demo_verify (mkEnv 1 1000)
      (CreateRound "Climate" "Support" MAX_UINT256) initial_world in
  created.2 = Success RNone
  /\ created.2 <> Success (RUint (roundCounter (storage initial_world) + 1))
  /\ 0 < MAX_UINT256
  /\ refused = (initial_world, Failed (Panic PANIC_ARITHMETIC))
  /\ ~ InvalidArgument (Panic PANIC_ARITHMETIC).
Proof.
  cbv zeta. split_and!.
  - reflexivity.
  - discriminate.
  - reflexivity.
  - vm_compute. reflexivity.
  - intros [H|H]; discriminate H.
Qed.

(** C7 at work: the first round of the deployment. *)
Lemma C7_witness :
  "Climate" <> ""
  /\ 0 < 86400
  /\ roundCounter (storage initial_world) + 1 <= MAX_UINT256
  /\ block_timestamp (mkEnv 1 1000) + 86400 <= MAX_UINT256
  /\ roundCounter
       (storage (transact demo_this demo_verify (mkEnv 1 1000)
                   (CreateRound "Climate" "Support" 86400) initial_world).1)
     = roundCounter (storage initial_world) + 1.
Proof.
  assert ("Climate" <> "") as Hname by discriminate.
  assert (0 < 86400) as Hdur by lia.
  assert (roundCounter (storage initial_world) + 1 <= MAX_UINT256) as Hcnt
    by (vm_compute; discriminate).
  assert (block_timestamp (mkEnv 1 1000) + 86400 <= MAX_UINT256) as Hend
    by (vm_compute; discriminate).
  split_and!; [exact Hname|exact Hdur|exact Hcnt|exact Hend|].
  pose proof (C7_createRound demo_this demo_verify (mkEnv 1 1000) initial_world
                "Climate" "Support" 86400) as H.
  cbv zeta in H. destruct H as (_ & H & _).
  destruct (H Hname Hdur Hcnt Hend) as (_ & Hn & _). exact Hn.
Defined.

(** C1 fails as stated: with a community total of 2^64 - 1 and a single
    commitment of 1 whose trigger 0 is met, the final total decrypts to 0,
    not to communityTotal + 1. *)
Lemma C1_counterexample :
  let w := overflow_open in
  let w' := overflow_settled in
  let C := cleartext (backend w)
             (DonationRound.encryptedCommunityTotal (round_at (storage w) 1)) in
  reachable demo_this demo_verify 1002 w
  /\ transact demo_this demo_verify (mkEnv 1 2000) (SettleRound 1) w
     = (w', Success RNone)
  /\ exists c,
       commitments_at (storage w) 1 = [c]
       /\ MatchingCommitment.isActive c = true
       /\ cleartext (backend w) (MatchingCommitment.minTrigger c) <= C
       /\ decrypt (backend w')
            (DonationRound.encryptedFinalTotal (round_at (storage w') 1))
          <> Some (C + cleartext (backend w) (MatchingCommitment.maxMatchingAmount c)).
Proof.
  cbv zeta. split_and!.
  - exact overflow_open_reachable.
  - vm_compute. reflexivity.
  - eexists. split_and!.
    + vm_compute. reflexivity.
    + reflexivity.
    + vm_compute. discriminate.
    + vm_compute. discriminate.
Qed.

(** C1 at work: 300 of donations meet the trigger of 300 and 50 is added. *)
Lemma C1_witness :
  reachable demo_this demo_verify 1003 demo_open
  /\ transact demo_this demo_verify demo_settle_env (SettleRound 1) demo_open
     = (demo_settled, Success RNone)
  /\ decrypt (backend demo_settled)
       (DonationRound.encryptedFinalTotal (round_at (storage demo_settled) 1))
     = Some 350.
Proof.
  pose proof (demo_after_reachable 4) as Hreach.
  split_and!; [exact Hreach|exact demo_settle_succeeds|].
  pose proof (C1_settlement_totals demo_this demo_verify _ _ _ _ _ _ Hreach
                demo_settle_succeeds) as H.
  cbv zeta in H. destruct H as (_ & _ & H & _).
  rewrite H. vm_compute. reflexivity.
Defined.



(** C6 at work: 100 and 200 add up to 300, the commitment that follows
    changing nothing. *)
Lemma C6_witness :
  reachable demo_this demo_verify 1000 (demo_after 1)
  /\ 1 <= 1 <= roundCounter (storage (demo_after 1))
  /\ donations_at (storage (demo_after 1)) 1 = []
  /\ donations_run demo_this demo_verify 1 (demo_after 1) [(2, 100); (3, 200)]
       demo_open
  /\ sumZ [(2, 100); (3, 200)].*2 <= MAX_UINT64
  /\ decrypt (backend demo_open)
       (DonationRound.encryptedCommunityTotal (round_at (storage demo_open) 1))
     = Some 300.
Proof.
  pose proof (demo_after_reachable 1) as Hreach.
  assert (1 <= 1 <= roundCounter (storage (demo_after 1))) as Hin
    by (vm_compute; split; discriminate).
  assert (donations_at (storage (demo_after 1)) 1 = []) as Hempty by reflexivity.
  assert (donations_run demo_this demo_verify 1 (demo_after 1)
            [(2, 100); (3, 200)] demo_open) as Hrun.
  { apply (run_donate demo_this demo_verify 1 (demo_after 1) (mkEnv 2 1001)
             100 [1] 100 (demo_after 2)); [vm_compute; reflexivity|reflexivity|].
    apply (run_donate demo_this demo_verify 1 (demo_after 2) (mkEnv 3 1002)
             200 [1] 200 (demo_after 3)); [vm_compute; reflexivity|reflexivity|].
    apply (run_other demo_this demo_verify 1 (demo_after 3) (mkEnv 4 1003)
             (CommitMatching 1 50 300 [1] [1])); [discriminate|].
    apply run_done. }
  assert (sumZ [(2, 100); (3, 200)].*2 <= MAX_UINT64) as Hfit
    by (vm_compute; discriminate).
  refine (conj Hreach (conj Hin (conj Hempty (conj Hrun (conj Hfit _))))).
  destruct (C6_donations_add_up demo_this demo_verify _ _ _ _ _ Hreach Hin
              Hempty Hrun) as (_ & _ & H).
  exact (H Hfit).
Defined.

(** C8 at work: after settlement the first donor still has no grant on the
    matcher's maximum. *)
Lemma C8_witness :
  reachable demo_this demo_verify 1002 (demo_after 3)
  /\ transact demo_this demo_verify (mkEnv 4 1003)
       (CommitMatching 1 50 300 [1] [1]) (demo_after 3)
     = (demo_open, Success RNone)
  /\ exists c,
       last (commitments_at (storage demo_open) 1) = Some c
       /\ (MatchingCommitment.maxMatchingAmount c, 2)
            ∉ acl (backend (run_trace demo_this demo_verify
                              [(demo_settle_env, SettleRound 1)] demo_open)).
Proof.
  pose proof (demo_after_reachable 3) as Hreach.
  assert (transact demo_this demo_verify (mkEnv 4 1003)
            (CommitMatching 1 50 300 [1] [1]) (demo_after 3)
          = (demo_open, Success RNone)) as Htx by (vm_compute; reflexivity).
  split_and!; [exact Hreach|exact Htx|].
  destruct (C8_commitment_stays_private demo_this demo_verify _ _ _ _ _ _ _ _ _ _
              Hreach Htx) as (c & Hc & _ & Hall).
  exists c. split.
  - rewrite Hc. apply last_snoc.
  - intros Hin.
    apply (Hall [(demo_settle_env, SettleRound 1)] 2) in Hin.
    destruct Hin as [Hin|Hin]; vm_compute in Hin; discriminate Hin.
Defined.

(** * More about the contract *)

Section More.

Variable this : Z.
Variable verify : Z -> Z -> Z -> list Z -> option Z.

(** ** The storage after each write *)

Lemma transact_written env c w :
  written this verify env w c (transact this verify env c w).1.
Proof.
  destruct (transact this verify env c w) as [w' [r|e]] eqn:Htx; cbn [fst].
  - destruct c as [name description duration | roundId e p
                  | roundId eMax eMin pMax pMin | roundId | roundId | roundId
                  | roundId | roundId | ].
    + apply createRound_success in Htx as (? & ? & ? & ? & _ & ->).
      by constructor.
    + apply donate_success in Htx as (? & ? & ? & ? & _ & v & ? & ->).
      by econstructor.
    + apply commitMatching_success in Htx
        as (? & ? & ? & ? & _ & vMax & vMin & ? & ? & ->).
      by econstructor.
    + pose proof (transact_view this verify env (ViewCurrentEncryptedTotal roundId) w
                    eq_refl) as Hv.
      rewrite Htx in Hv. cbn in Hv. subst w'. constructor.
    + apply settleRound_success in Htx as (? & ? & ? & _ & ->).
      by constructor.
    + pose proof (transact_view this verify env (GetRound roundId) w eq_refl) as Hv.
      rewrite Htx in Hv. cbn in Hv. subst w'. constructor.
    + pose proof (transact_view this verify env (GetDonationCount roundId) w
                    eq_refl) as Hv.
      rewrite Htx in Hv. cbn in Hv. subst w'. constructor.
    + pose proof (transact_view this verify env
                    (GetMatchingCommitmentCount roundId) w eq_refl) as Hv.
      rewrite Htx in Hv. cbn in Hv. subst w'. constructor.
    + pose proof (transact_view this verify env GetRoundCount w eq_refl) as Hv.
      rewrite Htx in Hv. cbn in Hv. subst w'. constructor.
  - assert (w' = w) as ->; [|constructor].
    revert Htx. unfold transact. by destruct (dispatch this verify env c w);
      intros [= <- _].
Qed.

Lemma written_effect env w c w' :
  written this verify env w c w' -> effect this verify env w c w'.
Proof. destruct 1; by econstructor. Qed.

Lemma createRound_storage env name description duration w :
  let w' := createRound_world this env name description duration w in
  let N := roundCounter (storage w) + 1 in
  roundCounter (storage w') = N
  /\ round_at (storage w') N
     = DonationRound.mk N name description (block_timestamp env)
         (block_timestamp env + duration) false (fresh (backend w))
         (S (fresh (backend w))) (S (S (fresh (backend w)))) 0
  /\ (forall k, k <> N -> round_at (storage w') k = round_at (storage w) k)
  /\ (forall k, donations_at (storage w') k = donations_at (storage w) k)
  /\ (forall k, commitments_at (storage w') k = commitments_at (storage w) k)
  /\ (forall k a, hasDonated_at (storage w') k a = hasDonated_at (storage w) k a)
  /\ (forall k a, hasCommittedMatching_at (storage w') k a
                  = hasCommittedMatching_at (storage w) k a)
  /\ events w' = events w ++ [DonationRoundCreated N name (block_timestamp env + duration)].
Proof.
  intros w' N; subst w' N. unfold createRound_world. split_and!; try done.
  - reads. by rewrite decide_True.
  - intros k Hk. reads. by rewrite decide_False.
Qed.

Lemma donate_storage env roundId v w :
  let w' := donate_world this env roundId v w in
  let d := Donation.mk (msg_sender env) (fresh (backend w))
             (block_timestamp env) roundId in
  roundCounter (storage w') = roundCounter (storage w)
  /\ round_at (storage w') roundId
     = DonationRound.set_encryptedCommunityTotal (S (fresh (backend w)))
         (round_at (storage w) roundId)
  /\ (forall k, k <> roundId -> round_at (storage w') k = round_at (storage w) k)
  /\ donations_at (storage w') roundId = donations_at (storage w) roundId ++ [d]
  /\ (forall k, k <> roundId ->
        donations_at (storage w') k = donations_at (storage w) k)
  /\ (forall k, commitments_at (storage w') k = commitments_at (storage w) k)
  /\ hasDonated_at (storage w') roundId (msg_sender env) = true
  /\ (forall k a, (k, a) <> (roundId, msg_sender env) ->
        hasDonated_at (storage w') k a = hasDonated_at (storage w) k a)
  /\ (forall k a, hasCommittedMatching_at (storage w') k a
                  = hasCommittedMatching_at (storage w) k a)
  /\ events w'
     = events w ++ [DonationMade roundId (msg_sender env) (block_timestamp env)].
Proof.
  intros w' d; subst w' d. unfold donate_world. split_and!; try done.
  - reads. by rewrite decide_True.
  - intros k Hk. reads. by rewrite decide_False.
  - reads. by rewrite decide_True.
  - intros k Hk. reads. by rewrite decide_False.
  - reads. by rewrite decide_True.
  - intros k a Hk. reads. rewrite decide_False; [done|]. congruence.
Qed.

Lemma commitMatching_storage env roundId vMax vMin w :
  let w' := commitMatching_world this env roundId vMax vMin w in
  let c := MatchingCommitment.mk (msg_sender env) (fresh (backend w))
             (S (fresh (backend w))) roundId (block_timestamp env) true in
  roundCounter (storage w') = roundCounter (storage w)
  /\ (forall k, round_at (storage w') k = round_at (storage w) k)
  /\ (forall k, donations_at (storage w') k = donations_at (storage w) k)
  /\ commitments_at (storage w') roundId = commitments_at (storage w) roundId ++ [c]
  /\ (forall k, k <> roundId ->
        commitments_at (storage w') k = commitments_at (storage w) k)
  /\ (forall k a, hasDonated_at (storage w') k a = hasDonated_at (storage w) k a)
  /\ hasCommittedMatching_at (storage w') roundId (msg_sender env) = true
  /\ (forall k a, (k, a) <> (roundId, msg_sender env) ->
        hasCommittedMatching_at (storage w') k a
        = hasCommittedMatching_at (storage w) k a)
  /\ events w'
     = events w ++ [MatchingCommitted roundId (msg_sender env) (block_timestamp env)].
Proof.
  intros w' c; subst w' c. unfold commitMatching_world. split_and!; try done.
  - reads. by rewrite decide_True.
  - intros k Hk. reads. by rewrite decide_False.
  - reads. by rewrite decide_True.
  - intros k a Hk. reads. rewrite decide_False; [done|]. congruence.
Qed.

Lemma settleRound_storage env roundId w :
  let w' := settleRound_world this env roundId w in
  let R := round_at (storage w) roundId in
  let R' := round_at (storage w') roundId in
  roundCounter (storage w') = roundCounter (storage w)
  /\ R' = DonationRound.mk (DonationRound.id R) (DonationRound.name R)
            (DonationRound.description R) (DonationRound.startTime R)
            (DonationRound.endTime R) true
            (DonationRound.encryptedCommunityTotal R)
            (DonationRound.encryptedMatchingTotal R')
            (DonationRound.encryptedFinalTotal R')
            (DonationRound.publicFinalTotal R)
  /\ (forall k, k <> roundId -> round_at (storage w') k = round_at (storage w) k)
  /\ (forall k, donations_at (storage w') k = donations_at (storage w) k)
  /\ (forall k, commitments_at (storage w') k = commitments_at (storage w) k)
  /\ (forall k a, hasDonated_at (storage w') k a = hasDonated_at (storage w) k a)
  /\ (forall k a, hasCommittedMatching_at (storage w') k a
                  = hasCommittedMatching_at (storage w) k a)
  /\ events w' = events w ++ [RoundSettled roundId 0].
Proof.
  intros w' R R'; subst w' R R'. unfold settleRound_world.
  split_and!; try done.
  - cbn [storage]. by autorewrite with storage.
  - intros k Hk. reads. by rewrite !decide_False.
Qed.

(** ** The shape of the records is kept *)

Lemma wf_records_initial t : wf_records t initial_world.
Proof.
  assert (forall r, round_in_range initial_world r = false) as Hr.
  { intros r. apply round_in_range_false. cbn. lia. }
  split.
  - intros r Hin. by rewrite Hr in Hin.
  - intros r d Hd. by apply not_elem_of_nil in Hd.
  - intros r c Hc. by apply not_elem_of_nil in Hc.
  - intros r a. split; [done|]. intros Hin. by apply not_elem_of_nil in Hin.
  - intros r. apply NoDup_nil_2.
Qed.

Lemma wf_records_wait t t' w : wf_records t w -> t <= t' -> wf_records t' w.
Proof.
  intros [Hround Hdon Hcom Hflag Hnd] Hle. split; try done.
  intros r Hin. destruct (Hround r Hin) as (? & ? & ? & ? & ?).
  split_and!; try done. lia.
Qed.

Lemma wf_records_written t w env c w' :
  wf_records t w -> t <= block_timestamp env ->
  written this verify env w c w' ->
  wf_records (block_timestamp env) w'.
Proof.
  intros Hrec Ht Hw.
  destruct Hw as [c|name description duration Hname Hdur Hmax Hend
                 |r0 e p v Hin Hs Hend Hd Hv
                 |r0 eMax eMin pMax pMin vMax vMin Hin Hs Hend Hd HvM HvT
                 |r0 Hin Hs Hend].
  - by eapply wf_records_wait.
  - destruct (createRound_storage env name description duration w)
      as (Hcnt & Hnew & Hold & Hdon & Hcom & _ & Hflag & _).
    set (w' := createRound_world this env name description duration w) in *.
    assert (forall r, round_in_range w r = true ->
              round_in_range w' r = true
              /\ round_at (storage w') r = round_at (storage w) r) as Hkeep.
    { intros r Hr%round_in_range_true. split.
      - apply round_in_range_true. rewrite Hcnt. lia.
      - apply Hold. lia. }
    split.
    + intros r Hr%round_in_range_true. rewrite Hcnt in Hr.
      destruct (decide (r = roundCounter (storage w) + 1)) as [->|Hne].
      * rewrite Hnew. cbn. split_and!; try done; lia.
      * rewrite Hold by done.
        destruct (rec_round _ _ Hrec r) as (? & ? & ? & ? & ?);
          [apply round_in_range_true; lia|].
        split_and!; try done. lia.
    + intros r d. rewrite Hdon. intros Hd'.
      destruct (rec_donation _ _ Hrec r d Hd') as (Hr & ? & ? & ?).
      destruct (Hkeep r Hr) as [Hr' ->]. done.
    + intros r c. rewrite Hcom. intros Hc'.
      destruct (rec_commitment _ _ Hrec r c Hc') as (Hr & ? & ? & ?).
      destruct (Hkeep r Hr) as [Hr' ->]. done.
    + intros r a. rewrite Hflag, Hcom. apply (rec_committed _ _ Hrec).
    + intros r. rewrite Hcom. apply (rec_matchers _ _ Hrec).
  - destruct (donate_storage env r0 v w)
      as (Hcnt & Hnew & Hold & Hdon & Hdon' & Hcom & _ & _ & Hflag & _).
    set (w' := donate_world this env r0 v w) in *.
    assert (forall r, round_in_range w' r = round_in_range w r) as Hrange.
    { intros r. unfold round_in_range. by rewrite Hcnt. }
    assert (forall r, DonationRound.startTime (round_at (storage w') r)
                      = DonationRound.startTime (round_at (storage w) r)
                      /\ DonationRound.endTime (round_at (storage w') r)
                         = DonationRound.endTime (round_at (storage w) r)) as Htimes.
    { intros r. destruct (decide (r = r0)) as [->|Hne].
      - by rewrite Hnew. - by rewrite Hold. }
    destruct (rec_round _ _ Hrec r0 Hin) as (_ & _ & _ & Hstart & _).
    split.
    + intros r Hr. rewrite Hrange in Hr.
      destruct (rec_round _ _ Hrec r Hr) as (? & ? & ? & ? & ?).
      destruct (decide (r = r0)) as [->|Hne].
      * rewrite Hnew. cbn. split_and!; try done. lia.
      * rewrite Hold by done. split_and!; try done. lia.
    + intros r d. rewrite Hrange. destruct (Htimes r) as [-> ->].
      destruct (decide (r = r0)) as [->|Hne].
      * rewrite Hdon. intros [Hd'| ->%list_elem_of_singleton]%elem_of_app.
        -- by apply (rec_donation _ _ Hrec).
        -- cbn. split_and!; try done. lia.
      * rewrite Hdon' by done. by apply (rec_donation _ _ Hrec).
    + intros r c. rewrite Hrange, Hcom. destruct (Htimes r) as [-> ->].
      by apply (rec_commitment _ _ Hrec).
    + intros r a. rewrite Hflag, Hcom. apply (rec_committed _ _ Hrec).
    + intros r. rewrite Hcom. apply (rec_matchers _ _ Hrec).
  - destruct (commitMatching_storage env r0 vMax vMin w)
      as (Hcnt & Hround & Hdon & Hcom & Hcom' & _ & Hset & Hflag & _).
    set (w' := commitMatching_world this env r0 vMax vMin w) in *.
    assert (forall r, round_in_range w' r = round_in_range w r) as Hrange.
    { intros r. unfold round_in_range. by rewrite Hcnt. }
    destruct (rec_round _ _ Hrec r0 Hin) as (_ & _ & _ & Hstart & _).
    split.
    + intros r Hr. rewrite Hrange in Hr. rewrite Hround.
      destruct (rec_round _ _ Hrec r Hr) as (? & ? & ? & ? & ?).
      split_and!; try done. lia.
    + intros r d. rewrite Hrange, Hdon, Hround. by apply (rec_donation _ _ Hrec).
    + intros r c. rewrite Hrange, Hround.
      destruct (decide (r = r0)) as [->|Hne].
      * rewrite Hcom. intros [Hc'| ->%list_elem_of_singleton]%elem_of_app.
        -- by apply (rec_commitment _ _ Hrec).
        -- cbn. split_and!; try done. lia.
      * rewrite Hcom' by done. by apply (rec_commitment _ _ Hrec).
    + intros r a. pose proof (rec_committed _ _ Hrec r a) as Hold.
      destruct (decide ((r, a) = (r0, msg_sender env))) as [[= -> ->]|Hne].
      * rewrite Hset, Hcom, fmap_app, elem_of_app. split; [|done].
        intros _. right. cbn. by apply list_elem_of_singleton.
      * rewrite Hflag by done.
        destruct (decide (r = r0)) as [->|Hr]; [|by rewrite Hcom'].
        rewrite Hcom, fmap_app, elem_of_app, Hold. cbn.
        rewrite list_elem_of_singleton. split; [auto|].
        intros [?| ->]; [done|]. by destruct Hne.
    + intros r. destruct (decide (r = r0)) as [->|Hr];
        [|rewrite Hcom' by done; apply (rec_matchers _ _ Hrec)].
      rewrite Hcom, fmap_app. apply NoDup_app. split_and!.
      * apply (rec_matchers _ _ Hrec).
      * intros a Ha ->%list_elem_of_singleton.
        apply (rec_committed _ _ Hrec) in Ha. cbn in Ha. congruence.
      * apply NoDup_singleton.
  - destruct (settleRound_storage env r0 w)
      as (Hcnt & Hnew & Hold & Hdon & Hcom & _ & Hflag & _).
    set (w' := settleRound_world this env r0 w) in *.
    assert (forall r, round_in_range w' r = round_in_range w r) as Hrange.
    { intros r. unfold round_in_range. by rewrite Hcnt. }
    assert (forall r, DonationRound.startTime (round_at (storage w') r)
                      = DonationRound.startTime (round_at (storage w) r)
                      /\ DonationRound.endTime (round_at (storage w') r)
                         = DonationRound.endTime (round_at (storage w) r)) as Htimes.
    { intros r. destruct (decide (r = r0)) as [->|Hne].
      - by rewrite Hnew. - by rewrite Hold. }
    split.
    + intros r Hr. rewrite Hrange in Hr.
      destruct (rec_round _ _ Hrec r Hr) as (? & ? & ? & ? & ?).
      destruct (decide (r = r0)) as [->|Hne].
      * rewrite Hnew. cbn. split_and!; try done. lia.
      * rewrite Hold by done. split_and!; try done. lia.
    + intros r d. rewrite Hrange, Hdon. destruct (Htimes r) as [-> ->].
      by apply (rec_donation _ _ Hrec).
    + intros r c. rewrite Hrange, Hcom. destruct (Htimes r) as [-> ->].
      by apply (rec_commitment _ _ Hrec).
    + intros r a. rewrite Hflag, Hcom. apply (rec_committed _ _ Hrec).
    + intros r. rewrite Hcom. apply (rec_matchers _ _ Hrec).
Qed.

(** ** Who reads the totals and what they hold *)

Lemma wf_totals_initial : wf_totals this initial_world.
Proof.
  assert (forall r, round_in_range initial_world r = false) as Hr.
  { intros r. apply round_in_range_false. cbn. lia. }
  split; intros r; intros; by rewrite Hr in *.
Qed.

Lemma settled_totals_extends b b' (R : DonationRound.t) cs :
  extends b b' ->
  is_Some (decrypt b (DonationRound.encryptedCommunityTotal R)) ->
  Forall (commitment_ok b) cs ->
  let C := cleartext b (DonationRound.encryptedCommunityTotal R) in
  let C' := cleartext b' (DonationRound.encryptedCommunityTotal R) in
  decrypt b (DonationRound.encryptedMatchingTotal R)
    = Some (wrap64 (matching_sum b C cs))
  /\ decrypt b (DonationRound.encryptedFinalTotal R)
     = Some (wrap64 (C + matching_sum b C cs)) ->
  decrypt b' (DonationRound.encryptedMatchingTotal R)
    = Some (wrap64 (matching_sum b' C' cs))
  /\ decrypt b' (DonationRound.encryptedFinalTotal R)
     = Some (wrap64 (C' + matching_sum b' C' cs)).
Proof.
  intros He Hct Hcs C C' [HM HF]. subst C C'.
  rewrite (cleartext_extends b b') by done.
  rewrite (matching_sum_extends b b') by done.
  split; by eapply decrypt_extends.
Qed.

Lemma wf_totals_written w env c w' :
  wf this w -> wf_totals this w ->
  written this verify env w c w' ->
  wf_totals this w'.
Proof.
  intros Hwf Htot Hw.
  destruct (effect_backend this verify env w c w' Hwf (written_effect _ _ _ _ Hw))
    as [He Hframe].
  assert (forall r, round_in_range w r = true ->
            (DonationRound.encryptedCommunityTotal (round_at (storage w) r)
             < fresh (backend w))%nat) as Hvalid.
  { intros r Hr%round_in_range_true. eapply decrypt_lt. by apply (wf_total _ _ Hwf). }
  assert (forall r, Forall (commitment_ok (backend w))
                      (commitments_at (storage w) r)) as Hcs.
  { intros r. apply Forall_forall. intros c' Hc'. by eapply wf_commit. }
  assert (forall r, round_in_range w r = true ->
            is_Some (decrypt (backend w)
                       (DonationRound.encryptedCommunityTotal
                          (round_at (storage w) r)))) as Hsome.
  { intros r Hr%round_in_range_true. eexists. by apply (wf_total _ _ Hwf). }
  destruct Hw as [c|name description duration Hname Hdur Hmax Hend
                 |r0 e p v Hin Hs Hend Hd Hv
                 |r0 eMax eMin pMax pMin vMax vMin Hin Hs Hend Hd HvM HvT
                 |r0 Hin Hs Hend].
  - done.
  - destruct (createRound_storage env name description duration w)
      as (Hcnt & Hnew & Hold & Hdon & Hcom & _).
    destruct (createRound_backend this verify env name description duration w)
      as (_ & _ & _ & _ & Hd2 & Hd3 & Hacl).
    set (w' := createRound_world this env name description duration w) in *.
    pose proof (wf_counter _ _ Hwf) as Hc0.
    assert (forall r, round_in_range w' r = true ->
              r = roundCounter (storage w) + 1
              \/ (round_in_range w r = true
                  /\ round_at (storage w') r = round_at (storage w) r)) as Hcase.
    { intros r Hr%round_in_range_true. rewrite Hcnt in Hr.
      destruct (decide (r = roundCounter (storage w) + 1)); [by left|right].
      split; [apply round_in_range_true; lia|by apply Hold]. }
    split.
    + intros r a Hr. rewrite Hdon. destruct (Hcase r Hr) as [->|[Hr0 ->]].
      * rewrite Hnew; cbn [DonationRound.encryptedCommunityTotal].
        rewrite (wf_unborn _ _ Hwf) by lia. rewrite Hacl. split.
        -- intros [Hin'%(wf_acl _ _ Hwf)|[-> _]]; [lia|by left].
        -- intros [->|Hin']; [right; auto|by apply not_elem_of_nil in Hin'].
      * rewrite Hframe by auto. by apply (tot_community_acl _ _ Htot).
    + intros r Hr. destruct (Hcase r Hr) as [->|[Hr0 ->]].
      * rewrite Hnew. by cbn.
      * intros Hs. destruct (tot_unsettled _ _ Htot r Hr0 Hs).
        split; by eapply decrypt_extends.
    + intros r Hr. destruct (Hcase r Hr) as [->|[Hr0 ->]].
      * rewrite Hnew. by cbn.
      * intros Hs. rewrite Hcom. apply (settled_totals_extends (backend w)); auto.
        by apply (tot_settled _ _ Htot).
  - destruct (donate_storage env r0 v w)
      as (Hcnt & Hnew & Hold & Hdon & Hdon' & Hcom & _).
    destruct (donate_backend this verify env r0 v w) as (_ & _ & _ & _ & _ & Hacl).
    set (w' := donate_world this env r0 v w) in *.
    assert (forall r, round_in_range w' r = round_in_range w r) as Hrange.
    { intros r. unfold round_in_range. by rewrite Hcnt. }
    split.
    + intros r a. rewrite Hrange. intros Hr.
      destruct (decide (r = r0)) as [->|Hne].
      * rewrite Hnew, Hdon, fmap_app, elem_of_app.
        cbn [DonationRound.encryptedCommunityTotal
             DonationRound.set_encryptedCommunityTotal fmap list_fmap
             Donation.donor].
        rewrite Hacl, list_elem_of_singleton. split.
        -- intros [Hin'%(wf_acl _ _ Hwf)|[[? _]|[_ ?]]]; [lia|lia|naive_solver].
        -- intros ?. right; right. naive_solver.
      * rewrite Hold, Hdon' by done. rewrite Hframe by auto.
        by apply (tot_community_acl _ _ Htot).
    + intros r. rewrite Hrange. intros Hr.
      assert (round_at (storage w') r = round_at (storage w) r
              \/ round_at (storage w') r
                 = DonationRound.set_encryptedCommunityTotal
                     (S (fresh (backend w))) (round_at (storage w) r)) as [-> | ->].
      { destruct (decide (r = r0)) as [->|Hne]; [by right|left; by apply Hold]. }
      * intros Hs'. destruct (tot_unsettled _ _ Htot r Hr Hs').
        split; by eapply decrypt_extends.
      * cbn. intros Hs'. destruct (tot_unsettled _ _ Htot r Hr Hs').
        split; by eapply decrypt_extends.
    + intros r. rewrite Hrange. intros Hr.
      destruct (decide (r = r0)) as [->|Hne].
      * rewrite Hnew. cbn. by rewrite Hs.
      * rewrite Hold, Hcom by done. intros Hs'.
        apply (settled_totals_extends (backend w)); auto.
        by apply (tot_settled _ _ Htot).
  - destruct (commitMatching_storage env r0 vMax vMin w)
      as (Hcnt & Hround & Hdon & Hcom & Hcom' & _).
    set (w' := commitMatching_world this env r0 vMax vMin w) in *.
    assert (forall r, round_in_range w' r = round_in_range w r) as Hrange.
    { intros r. unfold round_in_range. by rewrite Hcnt. }
    split.
    + intros r a. rewrite Hrange, Hround, Hdon. intros Hr.
      rewrite Hframe by auto. by apply (tot_community_acl _ _ Htot).
    + intros r. rewrite Hrange, Hround. intros Hr Hs'.
      destruct (tot_unsettled _ _ Htot r Hr Hs').
      split; by eapply decrypt_extends.
    + intros r. rewrite Hrange, Hround. intros Hr Hs'.
      assert (r <> r0) as Hne by congruence.
      rewrite Hcom' by done.
      apply (settled_totals_extends (backend w)); auto.
      by apply (tot_settled _ _ Htot).
  - destruct (settleRound_storage env r0 w)
      as (Hcnt & Hnew & Hold & Hdon & Hcom & _).
    pose proof Hin as Hin'%round_in_range_true.
    destruct (settleRound_backend this verify env r0 w _ (wf_plain _ _ Hwf)
                (wf_total _ _ Hwf r0 Hin') (Hcs r0))
      as (_ & _ & _ & _ & Hct & HdM & HdF & _).
    set (w' := settleRound_world this env r0 w) in *.
    assert (forall r, round_in_range w' r = round_in_range w r) as Hrange.
    { intros r. unfold round_in_range. by rewrite Hcnt. }
    assert (forall r, DonationRound.encryptedCommunityTotal (round_at (storage w') r)
              = DonationRound.encryptedCommunityTotal (round_at (storage w) r))
      as Hsame.
    { intros r. destruct (decide (r = r0)) as [->|Hne]; [done|by rewrite Hold]. }
    split.
    + intros r a. rewrite Hrange, Hsame, Hdon. intros Hr.
      rewrite Hframe by auto. by apply (tot_community_acl _ _ Htot).
    + intros r. rewrite Hrange. intros Hr.
      destruct (decide (r = r0)) as [->|Hne].
      * rewrite Hnew. by cbn.
      * rewrite Hold by done. intros Hs'.
        destruct (tot_unsettled _ _ Htot r Hr Hs').
        split; by eapply decrypt_extends.
    + intros r. rewrite Hrange. intros Hr.
      destruct (decide (r = r0)) as [->|Hne].
      * intros _. rewrite Hct, Hcom. cbv zeta.
        rewrite (cleartext_extends (backend w)) by auto.
        rewrite (matching_sum_extends (backend w)) by auto.
        rewrite (cleartext_Some _ _ _ (wf_total _ _ Hwf r0 Hin')).
        by split.
      * rewrite Hold, Hcom by done. intros Hs'.
        apply (settled_totals_extends (backend w)); auto.
        by apply (tot_settled _ _ Htot).
Qed.

(** ** The event log follows the storage *)

Lemma wf_events_initial : wf_events initial_world.
Proof.
  split; try done.
  - intros r v. split.
    + intros Hin. by apply not_elem_of_nil in Hin.
    + intros (_ & Hr & _). revert Hr. unfold round_in_range. cbn.
      rewrite andb_true_iff, Z.ltb_lt, Z.leb_le. lia.
  - apply NoDup_nil_2.
Qed.

Lemma wf_events_written w env c w' :
  wf this w -> wf_events w ->
  written this verify env w c w' ->
  wf_events w'.
Proof.
  intros Hwf Hev Hw.
  destruct Hw as [c|name description duration Hname Hdur Hmax Hend
                 |r0 e p v Hin Hs Hend Hd Hv
                 |r0 eMax eMin pMax pMin vMax vMin Hin Hs Hend Hd HvM HvT
                 |r0 Hin Hs Hend].
  - done.
  - destruct (createRound_storage env name description duration w)
      as (Hcnt & Hnew & Hold & Hdon & Hcom & _ & _ & Hlog).
    set (w' := createRound_world this env name description duration w) in *.
    pose proof (wf_counter _ _ Hwf) as Hc0.
    split; [|intros r|intros r|intros r v'|]; rewrite Hlog, omap_app; cbn [omap list_omap logged_round logged_donor
      logged_matcher logged_settlement]; rewrite ?app_nil_r.
    + rewrite (ev_rounds _ Hev), Hcnt.
      replace (Z.to_nat (roundCounter (storage w) + 1))
        with (S (Z.to_nat (roundCounter (storage w)))) by lia.
      rewrite seq_S, fmap_app. cbn. do 3 f_equal. lia.
    + rewrite Hdon. apply (ev_donors _ Hev).
    + rewrite Hcom. apply (ev_matchers _ Hev).
    + rewrite (ev_settled _ Hev).
      rewrite !round_in_range_true, Hcnt.
      destruct (decide (r = roundCounter (storage w) + 1)) as [->|Hne].
      * rewrite Hnew. cbn. split; intros (? & ? & ?); [lia|done].
      * rewrite Hold by done. split; intros (? & ? & ?); split_and!; try done; lia.
    + apply (ev_settled_once _ Hev).
  - destruct (donate_storage env r0 v w)
      as (Hcnt & Hnew & Hold & Hdon & Hdon' & Hcom & _ & _ & _ & Hlog).
    set (w' := donate_world this env r0 v w) in *.
    assert (forall r, round_in_range w' r = round_in_range w r) as Hrange.
    { intros r. unfold round_in_range. by rewrite Hcnt. }
    assert (forall r, DonationRound.settled (round_at (storage w') r)
                      = DonationRound.settled (round_at (storage w) r)) as Hset.
    { intros r. destruct (decide (r = r0)) as [->|Hne].
      - by rewrite Hnew. - by rewrite Hold. }
    split; [|intros r|intros r|intros r v'|]; rewrite Hlog, omap_app; cbn [omap list_omap logged_round logged_donor
      logged_matcher logged_settlement]; rewrite ?app_nil_r.
    + rewrite Hcnt. apply (ev_rounds _ Hev).
    + rewrite (ev_donors _ Hev). case_decide as Hr0.
      * subst r. by rewrite Hdon, fmap_app.
      * rewrite Hdon' by done. by rewrite app_nil_r.
    + rewrite Hcom. apply (ev_matchers _ Hev).
    + rewrite Hrange, Hset. apply (ev_settled _ Hev).
    + apply (ev_settled_once _ Hev).
  - destruct (commitMatching_storage env r0 vMax vMin w)
      as (Hcnt & Hround & Hdon & Hcom & Hcom' & _ & _ & _ & Hlog).
    set (w' := commitMatching_world this env r0 vMax vMin w) in *.
    assert (forall r, round_in_range w' r = round_in_range w r) as Hrange.
    { intros r. unfold round_in_range. by rewrite Hcnt. }
    split; [|intros r|intros r|intros r v'|]; rewrite Hlog, omap_app; cbn [omap list_omap logged_round logged_donor
      logged_matcher logged_settlement]; rewrite ?app_nil_r.
    + rewrite Hcnt. apply (ev_rounds _ Hev).
    + rewrite Hdon. apply (ev_donors _ Hev).
    + rewrite (ev_matchers _ Hev). case_decide as Hr0.
      * subst r. by rewrite Hcom, fmap_app.
      * rewrite Hcom' by done. by rewrite app_nil_r.
    + rewrite Hrange, Hround. apply (ev_settled _ Hev).
    + apply (ev_settled_once _ Hev).
  - destruct (settleRound_storage env r0 w)
      as (Hcnt & Hnew & Hold & Hdon & Hcom & _ & _ & Hlog).
    set (w' := settleRound_world this env r0 w) in *.
    assert (forall r, round_in_range w' r = round_in_range w r) as Hrange.
    { intros r. unfold round_in_range. by rewrite Hcnt. }
    assert (forall v', (r0, v') ∉ omap logged_settlement (events w)) as Hfresh.
    { intros v' (_ & _ & Hs')%(ev_settled _ Hev). congruence. }
    split; [|intros r|intros r|intros r v'|]; rewrite Hlog, omap_app; cbn [omap list_omap logged_round logged_donor
      logged_matcher logged_settlement]; rewrite ?app_nil_r.
    + rewrite Hcnt. apply (ev_rounds _ Hev).
    + rewrite Hdon. apply (ev_donors _ Hev).
    + rewrite Hcom. apply (ev_matchers _ Hev).
    + rewrite Hrange, elem_of_app, list_elem_of_singleton.
      destruct (decide (r = r0)) as [->|Hne].
      * rewrite Hnew. cbn. split.
        -- intros [Hold'|[= ->]]; [by apply Hfresh in Hold'|done].
        -- intros (-> & _). by right.
      * rewrite Hold by done. rewrite (ev_settled _ Hev). split.
        -- intros [?|[= ? ?]]; done.
        -- intros ?. by left.
    + apply NoDup_app. split_and!.
      * apply (ev_settled_once _ Hev).
      * intros [r v'] Hold' Heq%list_elem_of_singleton.
        injection Heq as -> ->. by apply Hfresh in Hold'.
      * apply NoDup_singleton.
Qed.

(** ** Worlds only move forward *)

Lemma evolves_refl w : evolves w w.
Proof. split; done. Qed.

Lemma evolves_trans w1 w2 w3 : evolves w1 w2 -> evolves w2 w3 -> evolves w1 w3.
Proof.
  intros H12 H23. split.
  - pose proof (evo_counter _ _ H12). pose proof (evo_counter _ _ H23). lia.
  - intros k. etrans; [apply (evo_donations _ _ H12)|apply (evo_donations _ _ H23)].
  - intros k.
    etrans; [apply (evo_commitments _ _ H12)|apply (evo_commitments _ _ H23)].
  - etrans; [apply (evo_events _ _ H12)|apply (evo_events _ _ H23)].
  - intros k a Hd. by apply (evo_hasDonated _ _ H23), (evo_hasDonated _ _ H12).
  - intros k a Hd. by apply (evo_hasCommitted _ _ H23), (evo_hasCommitted _ _ H12).
  - intros k Hk.
    destruct (evo_round _ _ H12 k Hk) as (Hk2 & H1 & H2 & H3 & H4 & H5 & H6).
    destruct (evo_round _ _ H23 k Hk2) as (Hk3 & H1' & H2' & H3' & H4' & H5' & H6').
    split_and!; [done|congruence..].
  - intros k Hk Hs.
    destruct (evo_round _ _ H12 k Hk) as (Hk2 & _).
    destruct (evo_frozen _ _ H12 k Hk Hs) as (HR & Hd & Hc).
    destruct (evo_frozen _ _ H23 k Hk2) as (HR' & Hd' & Hc'); [by rewrite HR|].
    by rewrite HR', Hd', Hc'.
Qed.

Lemma written_evolves env w c w' : written this verify env w c w' -> evolves w w'.
Proof.
  intros Hw.
  destruct Hw as [c|name description duration Hname Hdur Hmax Hend
                 |r0 e p v Hin Hs Hend Hd Hv
                 |r0 eMax eMin pMax pMin vMax vMin Hin Hs Hend Hd HvM HvT
                 |r0 Hin Hs Hend].
  - apply evolves_refl.
  - destruct (createRound_storage env name description duration w)
      as (Hcnt & Hnew & Hold & Hdon & Hcom & HhD & HhC & Hlog).
    set (w' := createRound_world this env name description duration w) in *.
    assert (forall k, round_in_range w k = true ->
              round_in_range w' k = true
              /\ round_at (storage w') k = round_at (storage w) k) as Hkeep.
    { intros k Hk%round_in_range_true. split.
      - apply round_in_range_true. rewrite Hcnt. lia.
      - apply Hold. lia. }
    split.
    + rewrite Hcnt. lia.
    + intros k. by rewrite Hdon.
    + intros k. by rewrite Hcom.
    + rewrite Hlog. by apply prefix_app_r.
    + intros k a. by rewrite HhD.
    + intros k a. by rewrite HhC.
    + intros k Hk. destruct (Hkeep k Hk) as [Hk' ->]. done.
    + intros k Hk _. destruct (Hkeep k Hk) as [Hk' ->]. by rewrite Hdon, Hcom.
  - destruct (donate_storage env r0 v w)
      as (Hcnt & Hnew & Hold & Hdon & Hdon' & Hcom & Hset & HhD & HhC & Hlog).
    set (w' := donate_world this env r0 v w) in *.
    assert (forall k, round_in_range w' k = round_in_range w k) as Hrange.
    { intros k. unfold round_in_range. by rewrite Hcnt. }
    split.
    + rewrite Hcnt. lia.
    + intros k. destruct (decide (k = r0)) as [->|Hne].
      * rewrite Hdon. by apply prefix_app_r.
      * by rewrite Hdon'.
    + intros k. by rewrite Hcom.
    + rewrite Hlog. by apply prefix_app_r.
    + intros k a Hk.
      destruct (decide ((k, a) = (r0, msg_sender env))) as [[= -> ->]|Hne];
        [done|by rewrite HhD].
    + intros k a. by rewrite HhC.
    + intros k Hk. rewrite Hrange.
      destruct (decide (k = r0)) as [->|Hne]; [by rewrite Hnew|by rewrite Hold].
    + intros k Hk Hs'. assert (k <> r0) as Hne by congruence.
      by rewrite Hold, Hdon', Hcom.
  - destruct (commitMatching_storage env r0 vMax vMin w)
      as (Hcnt & Hround & Hdon & Hcom & Hcom' & HhD & Hset & HhC & Hlog).
    set (w' := commitMatching_world this env r0 vMax vMin w) in *.
    assert (forall k, round_in_range w' k = round_in_range w k) as Hrange.
    { intros k. unfold round_in_range. by rewrite Hcnt. }
    split.
    + rewrite Hcnt. lia.
    + intros k. by rewrite Hdon.
    + intros k. destruct (decide (k = r0)) as [->|Hne].
      * rewrite Hcom. by apply prefix_app_r.
      * by rewrite Hcom'.
    + rewrite Hlog. by apply prefix_app_r.
    + intros k a. by rewrite HhD.
    + intros k a Hk.
      destruct (decide ((k, a) = (r0, msg_sender env))) as [[= -> ->]|Hne];
        [done|by rewrite HhC].
    + intros k Hk. by rewrite Hrange, Hround.
    + intros k Hk Hs'. assert (k <> r0) as Hne by congruence.
      by rewrite Hround, Hdon, Hcom'.
  - destruct (settleRound_storage env r0 w)
      as (Hcnt & Hnew & Hold & Hdon & Hcom & HhD & HhC & Hlog).
    set (w' := settleRound_world this env r0 w) in *.
    assert (forall k, round_in_range w' k = round_in_range w k) as Hrange.
    { intros k. unfold round_in_range. by rewrite Hcnt. }
    split.
    + rewrite Hcnt. lia.
    + intros k. by rewrite Hdon.
    + intros k. by rewrite Hcom.
    + rewrite Hlog. by apply prefix_app_r.
    + intros k a. by rewrite HhD.
    + intros k a. by rewrite HhC.
    + intros k Hk. rewrite Hrange.
      destruct (decide (k = r0)) as [->|Hne]; [by rewrite Hnew|by rewrite Hold].
    + intros k Hk Hs'. assert (k <> r0) as Hne by congruence.
      by rewrite Hold, Hdon, Hcom.
Qed.

Lemma run_trace_evolves tr : forall w, evolves w (run_trace this verify tr w).
Proof.
  induction tr as [|[env c] tr IH]; intros w; [apply evolves_refl|].
  eapply evolves_trans; [|apply IH].
  eapply written_evolves, transact_written.
Qed.

(** ** All of it holds in the reachable states *)

Lemma reachable_more t w :
  reachable this verify t w ->
  wf_records t w /\ wf_totals this w /\ wf_events w.
Proof.
  induction 1 as [t|t w env c Hreach (IH1 & IH2 & IH3) Ht
                 |t t' w Hreach (IH1 & IH2 & IH3) Ht].
  - split_and!; [apply wf_records_initial|apply wf_totals_initial
                |apply wf_events_initial].
  - destruct (reachable_wf this verify t w Hreach) as [Hwf _].
    pose proof (transact_written env c w) as Hw.
    split_and!.
    + by eapply wf_records_written.
    + by eapply wf_totals_written.
    + by eapply wf_events_written.
  - split_and!; try done. by eapply wf_records_wait.
Qed.

(** ** The outcome of each write, in one piece *)

Lemma transact_createRound_run env name description duration w :
  transact this verify env (CreateRound name description duration) w =
    if negb (0 <? Z.of_nat (String.length name))
    then (w, Failed (Revert "Round name cannot be empty"))
    else if negb (0 <? duration)
    then (w, Failed (Revert "Duration must be positive"))
    else if negb (roundCounter (storage w) + 1 <=? MAX_UINT256)
    then (w, Failed (Panic PANIC_ARITHMETIC))
    else if negb (block_timestamp env + duration <=? MAX_UINT256)
    then (w, Failed (Panic PANIC_ARITHMETIC))
    else (createRound_world this env name description duration w, Success RNone).
Proof.
  rewrite transact_createRound, createRound_run.
  destruct (0 <? Z.of_nat (String.length name)); cbn [negb]; [|done].
  destruct (0 <? duration); cbn [negb]; [|done].
  destruct (roundCounter (storage w) + 1 <=? MAX_UINT256); cbn [negb]; [|done].
  by destruct (block_timestamp env + duration <=? MAX_UINT256).
Qed.

Lemma transact_donate_run env roundId encryptedAmount inputProof w :
  transact this verify env (Donate roundId encryptedAmount inputProof) w =
    if negb (round_in_range w roundId) then (w, Failed NotFound)
    else if DonationRound.settled (round_at (storage w) roundId)
    then (w, Failed AlreadySettled)
    else if negb (block_timestamp env
                  <? DonationRound.endTime (round_at (storage w) roundId))
    then (w, Failed RoundEnded)
    else if hasDonated_at (storage w) roundId (msg_sender env)
    then (w, Failed DuplicateDonation)
    else match verify this (msg_sender env) encryptedAmount inputProof with
         | None => (w, Failed InvalidProof)
         | Some v => (donate_world this env roundId v w, Success RNone)
         end.
Proof.
  rewrite transact_donate, donate_run. fold (round_in_range w roundId).
  destruct (round_in_range w roundId); cbn [negb]; [|done].
  destruct (DonationRound.settled _); [done|].
  destruct (block_timestamp env <? _); cbn [negb]; [|done].
  destruct (hasDonated_at _ _ _); [done|].
  by destruct (verify _ _ _ _).
Qed.

Lemma transact_commitMatching_run env roundId eMax eMin pMax pMin w :
  transact this verify env (CommitMatching roundId eMax eMin pMax pMin) w =
    if negb (round_in_range w roundId) then (w, Failed NotFound)
    else if DonationRound.settled (round_at (storage w) roundId)
    then (w, Failed AlreadySettled)
    else if negb (block_timestamp env
                  <? DonationRound.endTime (round_at (storage w) roundId))
    then (w, Failed RoundEnded)
    else if hasCommittedMatching_at (storage w) roundId (msg_sender env)
    then (w, Failed DuplicateCommitment)
    else match verify this (msg_sender env) eMax pMax,
               verify this (msg_sender env) eMin pMin with
         | Some vMax, Some vMin =>
             (commitMatching_world this env roundId vMax vMin w, Success RNone)
         | _, _ => (w, Failed InvalidProof)
         end.
Proof.
  rewrite transact_commitMatching, commitMatching_run.
  fold (round_in_range w roundId).
  destruct (round_in_range w roundId); cbn [negb]; [|done].
  destruct (DonationRound.settled _); [done|].
  destruct (block_timestamp env <? _); cbn [negb]; [|done].
  destruct (hasCommittedMatching_at _ _ _); [done|].
  destruct (verify _ _ eMax _); [|done].
  by destruct (verify _ _ eMin _).
Qed.

Lemma transact_settleRound_run env roundId w :
  transact this verify env (SettleRound roundId) w =
    if negb (round_in_range w roundId) then (w, Failed NotFound)
    else if DonationRound.settled (round_at (storage w) roundId)
    then (w, Failed AlreadySettled)
    else if negb (DonationRound.endTime (round_at (storage w) roundId)
                  <=? block_timestamp env)
    then (w, Failed RoundNotEnded)
    else (settleRound_world this env roundId w, Success RNone).
Proof.
  rewrite transact_settleRound, settleRound_run.
  fold (round_in_range w roundId).
  destruct (round_in_range w roundId); cbn [negb]; [|done].
  destruct (DonationRound.settled _); [done|].
  by destruct (_ <=? block_timestamp env).
Qed.

Lemma transact_viewCurrentEncryptedTotal_run env roundId w :
  transact this verify env (ViewCurrentEncryptedTotal roundId) w =
    if round_in_range w roundId
    then (w, Success (RCiphertext (DonationRound.encryptedCommunityTotal
                                     (round_at (storage w) roundId))))
    else (w, Failed NotFound).
Proof.
  unfold transact, dispatch, mbind, tx_bind, bind.
  rewrite viewCurrentEncryptedTotal_run. by destruct (round_in_range w roundId).
Qed.

Lemma transact_getRound_run env roundId w :
  transact this verify env (GetRound roundId) w =
    if round_in_range w roundId
    then (w, Success (RRound (round_at (storage w) roundId)))
    else (w, Failed NotFound).
Proof.
  unfold transact, dispatch, mbind, tx_bind, bind.
  rewrite getRound_run. by destruct (round_in_range w roundId).
Qed.

(** ** The invariants along any sequence of calls *)

Lemma wf_totals_run_trace tr : forall w,
  wf this w -> wf_totals this w -> wf_totals this (run_trace this verify tr w).
Proof.
  induction tr as [|[env c] tr IH]; intros w Hwf Htot; [done|].
  apply IH; [by apply wf_transact|].
  eapply wf_totals_written; [exact Hwf|exact Htot|apply transact_written].
Qed.

End More.

Lemma decrypt_extends_lt b b' h :
  extends b b' -> (h < fresh b)%nat -> decrypt b' h = decrypt b h.
Proof.
  unfold extends, fresh. intros Hp Hlt. destruct h as [|i]; cbn; [done|].
  destruct (lookup_lt_is_Some_2 (plain b) i) as [x Hx]; [lia|].
  rewrite Hx. by eapply prefix_lookup_Some.
Qed.

Lemma active_matchers_all cs :
  (forall c, c ∈ cs -> MatchingCommitment.isActive c = true) ->
  active_matchers cs = MatchingCommitment.matcher <$> cs.
Proof.
  intros Hall. unfold active_matchers. f_equal.
  induction cs as [|c cs IH]; [done|].
  rewrite filter_cons_True by (apply Hall; left).
  f_equal. apply IH. intros c' Hc'. apply Hall. by right.
Qed.

(** * Further properties of the contract *)

Section Extras.
Variable this : Z.
Variable verify : Z -> Z -> Z -> list Z -> option Z.

(** X1. commitMatching checks, in this order, that the round exists, that
    it is not settled, that the current time is before its end and that the
    caller has not committed to it yet, and only then ingests the two
    inputs; the first check that fails decides the revert, a rejected input
    fails the call, and every failed call leaves the world as it was. When
    all the checks pass and both inputs are accepted the call succeeds. *)
Theorem X1_commitMatching_preconditions env w roundId eMax eMin pMax pMin :
  let out :=
    transact this verify env (CommitMatching roundId eMax eMin pMax pMin) w in
  let r := round_at (storage w) roundId in
  let n := roundCounter (storage w) in
  (~ (1 <= roundId <= n) -> out = (w, Failed NotFound))
  /\ (1 <= roundId <= n ->
      DonationRound.settled r = true -> out = (w, Failed AlreadySettled))
  /\ (1 <= roundId <= n ->
      DonationRound.settled r = false ->
      DonationRound.endTime r <= block_timestamp env ->
      out = (w, Failed RoundEnded))
  /\ (1 <= roundId <= n ->
      DonationRound.settled r = false ->
      block_timestamp env < DonationRound.endTime r ->
      hasCommittedMatching_at (storage w) roundId (msg_sender env) = true ->
      out = (w, Failed DuplicateCommitment))
  /\ (1 <= roundId <= n ->
      DonationRound.settled r = false ->
      block_timestamp env < DonationRound.endTime r ->
      hasCommittedMatching_at (storage w) roundId (msg_sender env) = false ->
      (verify this (msg_sender env) eMax pMax = None
       \/ verify this (msg_sender env) eMin pMin = None ->
       out = (w, Failed InvalidProof))
      /\ (is_Some (verify this (msg_sender env) eMax pMax) ->
          is_Some (verify this (msg_sender env) eMin pMin) ->
          out.2 = Success RNone)).
Proof.
  intros out r n; subst out r n. rewrite transact_commitMatching_run.
  split_and!.
  - intros Hout.
    rewrite (proj2 (round_in_range_false w roundId)) by lia. done.
  - intros Hin Hs.
    rewrite (proj2 (round_in_range_true w roundId)), Hs by lia. done.
  - intros Hin Hs Hend.
    rewrite (proj2 (round_in_range_true w roundId)), Hs by lia. cbn [negb].
    by destruct (Z.ltb_spec (block_timestamp env)
                   (DonationRound.endTime (round_at (storage w) roundId)));
      [lia|].
  - intros Hin Hs Hend Hd.
    rewrite (proj2 (round_in_range_true w roundId)), Hs, Hd by lia. cbn [negb].
    by destruct (Z.ltb_spec (block_timestamp env)
                   (DonationRound.endTime (round_at (storage w) roundId)));
      [|lia].
  - intros Hin Hs Hend Hd.
    rewrite (proj2 (round_in_range_true w roundId)), Hs, Hd by lia. cbn [negb].
    destruct (Z.ltb_spec (block_timestamp env)
                (DonationRound.endTime (round_at (storage w) roundId)));
      [|lia].
    cbn [negb]. split.
    + intros [-> | ->]; [done|]. by destruct (verify _ _ eMax _).
    + by intros [vMax ->] [vMin ->].
Qed.


(** X3. Once an address has committed to a round, whatever calls follow,
    a further commitMatching of that address to that round fails, with the
    already-settled, the round-ended or the duplicate-commitment revert, and
    changes nothing. *)
Theorem X3_one_commitment_per_matcher w roundId env tr eMax eMin pMax pMin :
  round_in_range w roundId = true ->
  hasCommittedMatching_at (storage w) roundId (msg_sender env) = true ->
  let w2 := run_trace this verify tr w in
  exists e,
    transact this verify env (CommitMatching roundId eMax eMin pMax pMin) w2
      = (w2, Failed e)
    /\ (e = AlreadySettled \/ e = RoundEnded \/ e = DuplicateCommitment).
Proof.
  intros Hin Hflag w2.
  pose proof (run_trace_evolves this verify tr w) as Hev. fold w2 in Hev.
  destruct (evo_round _ _ Hev roundId Hin) as (Hin2 & _).
  pose proof (evo_hasCommitted _ _ Hev roundId _ Hflag) as Hflag2.
  rewrite transact_commitMatching_run, Hin2, Hflag2. cbn [negb].
  destruct (DonationRound.settled _); [eauto|].
  destruct (block_timestamp env <? _); cbn [negb]; eauto.
Qed.

(** X4. Once an address has donated to a round, whatever calls follow, a
    further donate of that address to that round fails, with the
    already-settled, the round-ended or the duplicate-donation revert, and
    changes nothing. *)
Theorem X4_one_donation_per_donor w roundId env tr encryptedAmount inputProof :
  round_in_range w roundId = true ->
  hasDonated_at (storage w) roundId (msg_sender env) = true ->
  let w2 := run_trace this verify tr w in
  exists e,
    transact this verify env (Donate roundId encryptedAmount inputProof) w2
      = (w2, Failed e)
    /\ (e = AlreadySettled \/ e = RoundEnded \/ e = DuplicateDonation).
Proof.
  intros Hin Hflag w2.
  pose proof (run_trace_evolves this verify tr w) as Hev. fold w2 in Hev.
  destruct (evo_round _ _ Hev roundId Hin) as (Hin2 & _).
  pose proof (evo_hasDonated _ _ Hev roundId _ Hflag) as Hflag2.
  rewrite transact_donate_run, Hin2, Hflag2. cbn [negb].
  destruct (DonationRound.settled _); [eauto|].
  destruct (block_timestamp env <? _); cbn [negb]; eauto.
Qed.

(** X5. viewCurrentEncryptedTotal fails with the not-found revert outside
    [1, roundCount()] and changes nothing; inside, in every reachable state,
    it hands back the round's community total, a ciphertext that decrypts to
    the sum modulo 2^64 of the plaintexts of the donations on record, and
    the state is left as it was. *)
Theorem X5_viewCurrentEncryptedTotal t w env roundId :
  reachable this verify t w ->
  let out := transact this verify env (ViewCurrentEncryptedTotal roundId) w in
  (~ (1 <= roundId <= roundCounter (storage w)) -> out = (w, Failed NotFound))
  /\ (1 <= roundId <= roundCounter (storage w) ->
      exists h,
        out = (w, Success (RCiphertext h))
        /\ h = DonationRound.encryptedCommunityTotal (round_at (storage w) roundId)
        /\ decrypt (backend w) h
           = Some (wrap64 (donated (backend w) (donations_at (storage w) roundId)))).
Proof.
  intros [Hwf _]%reachable_wf out; subst out.
  rewrite transact_viewCurrentEncryptedTotal_run. split.
  - intros Hout.
    rewrite (proj2 (round_in_range_false w roundId)) by lia. done.
  - intros Hin.
    rewrite (proj2 (round_in_range_true w roundId)) by lia.
    eexists. split_and!; [done..|].
    apply (wf_total _ _ Hwf). lia.
Qed.

(** X6. Whatever calls are made, the donations and the commitments of a
    round and the event log only grow at their end, the round counter does
    not decrease, and a has-donated or has-committed flag that is set stays
    set. *)
Theorem X6_history_only_grows tr w k :
  let w2 := run_trace this verify tr w in
  donations_at (storage w) k `prefix_of` donations_at (storage w2) k
  /\ commitments_at (storage w) k `prefix_of` commitments_at (storage w2) k
  /\ events w `prefix_of` events w2
  /\ roundCounter (storage w) <= roundCounter (storage w2)
  /\ (forall a, hasDonated_at (storage w) k a = true ->
        hasDonated_at (storage w2) k a = true)
  /\ (forall a, hasCommittedMatching_at (storage w) k a = true ->
        hasCommittedMatching_at (storage w2) k a = true).
Proof.
  intros w2. pose proof (run_trace_evolves this verify tr w) as Hev.
  fold w2 in Hev. split_and!.
  - apply (evo_donations _ _ Hev).
  - apply (evo_commitments _ _ Hev).
  - apply (evo_events _ _ Hev).
  - apply (evo_counter _ _ Hev).
  - intros a. apply (evo_hasDonated _ _ Hev).
  - intros a. apply (evo_hasCommitted _ _ Hev).
Qed.

(** X7. Whatever calls are made, a round that exists keeps existing, and
    its id, name, description, start time, end time and public final total
    never change: no function writes them after createRound. *)
Theorem X7_round_identity_fixed tr w k :
  1 <= k <= roundCounter (storage w) ->
  let w2 := run_trace this verify tr w in
  let R := round_at (storage w) k in
  let R' := round_at (storage w2) k in
  1 <= k <= roundCounter (storage w2)
  /\ DonationRound.id R' = DonationRound.id R
  /\ DonationRound.name R' = DonationRound.name R
  /\ DonationRound.description R' = DonationRound.description R
  /\ DonationRound.startTime R' = DonationRound.startTime R
  /\ DonationRound.endTime R' = DonationRound.endTime R
  /\ DonationRound.publicFinalTotal R' = DonationRound.publicFinalTotal R.
Proof.
  intros Hin w2 R R'; subst R R'.
  pose proof (run_trace_evolves this verify tr w) as Hev. fold w2 in Hev.
  destruct (evo_round _ _ Hev k) as (Hin2%round_in_range_true & H);
    [apply round_in_range_true; lia|].
  split; [lia|exact H].
Qed.

(** X8. A settled round is frozen. From a reachable state on, whatever
    calls are made, its record, its donations and its commitments stay what
    they are, its three totals keep their plaintexts and its final total its
    readers, and every donate and commitMatching on it fails with the
    already-settled revert. *)
Theorem X8_settled_round_frozen t w k tr :
  reachable this verify t w ->
  1 <= k <= roundCounter (storage w) ->
  DonationRound.settled (round_at (storage w) k) = true ->
  let w2 := run_trace this verify tr w in
  let R := round_at (storage w) k in
  round_at (storage w2) k = R
  /\ donations_at (storage w2) k = donations_at (storage w) k
  /\ commitments_at (storage w2) k = commitments_at (storage w) k
  /\ decrypt (backend w2) (DonationRound.encryptedCommunityTotal R)
     = decrypt (backend w) (DonationRound.encryptedCommunityTotal R)
  /\ decrypt (backend w2) (DonationRound.encryptedMatchingTotal R)
     = decrypt (backend w) (DonationRound.encryptedMatchingTotal R)
  /\ decrypt (backend w2) (DonationRound.encryptedFinalTotal R)
     = decrypt (backend w) (DonationRound.encryptedFinalTotal R)
  /\ (forall a,
        (DonationRound.encryptedFinalTotal R, a) ∈ acl (backend w2)
        <-> (DonationRound.encryptedFinalTotal R, a) ∈ acl (backend w))
  /\ (forall env encryptedAmount inputProof,
        transact this verify env (Donate k encryptedAmount inputProof) w2
        = (w2, Failed AlreadySettled))
  /\ (forall env eMax eMin pMax pMin,
        transact this verify env (CommitMatching k eMax eMin pMax pMin) w2
        = (w2, Failed AlreadySettled)).
Proof.
  intros Hreach Hin Hs w2 R.
  destruct (reachable_wf this verify t w Hreach) as [Hwf _].
  destruct (reachable_more this verify t w Hreach) as (_ & Htot & _).
  assert (round_in_range w k = true) as Hk by (apply round_in_range_true; lia).
  pose proof (run_trace_evolves this verify tr w) as Hev. fold w2 in Hev.
  destruct (evo_round _ _ Hev k Hk) as (Hk2 & _).
  destruct (evo_frozen _ _ Hev k Hk Hs) as (HR & Hd & Hc).
  destruct (run_trace_backend this verify tr w Hwf) as [He Hframe].
  fold w2 in He, Hframe.
  pose proof (wf_total _ _ Hwf k ltac:(lia)) as HC%decrypt_lt.
  destruct (tot_settled _ _ Htot k Hk Hs) as [HM%decrypt_lt HF%decrypt_lt].
  fold R in HC, HM, HF.
  split_and!; try done.
  - by apply decrypt_extends_lt.
  - by apply decrypt_extends_lt.
  - by apply decrypt_extends_lt.
  - intros a. by apply Hframe.
  - intros env e p. by rewrite transact_donate_run, Hk2, HR, Hs.
  - intros env eMax eMin pMax pMin.
    by rewrite transact_commitMatching_run, Hk2, HR, Hs.
Qed.

(** X9. After a successful settleRound on a reachable state, and whatever
    calls follow, the round keeps the final total that the settlement
    stored, and a grant on it is held by the contract, by the addresses that
    had donated to the round and by those that had committed to it, and by
    nobody else. *)
Theorem X9_final_total_readers t w env roundId w1 r tr a :
  reachable this verify t w ->
  transact this verify env (SettleRound roundId) w = (w1, Success r) ->
  let w2 := run_trace this verify tr w1 in
  let final := DonationRound.encryptedFinalTotal (round_at (storage w1) roundId) in
  DonationRound.encryptedFinalTotal (round_at (storage w2) roundId) = final
  /\ ((final, a) ∈ acl (backend w2)
      <-> a = this
          \/ hasDonated_at (storage w) roundId a = true
          \/ hasCommittedMatching_at (storage w) roundId a = true).
Proof.
  intros Hreach Htx.
  destruct (reachable_wf this verify t w Hreach) as [Hwf _].
  destruct (reachable_more this verify t w Hreach) as (Hrec & _ & _).
  pose proof (wf_transact this verify w env (SettleRound roundId) Hwf) as Hwf1.
  rewrite Htx in Hwf1. cbn [fst] in Hwf1.
  apply settleRound_success in Htx as (Hin & Hs & Hend & -> & ->).
  intros w2 final.
  pose proof Hin as Hin'%round_in_range_true.
  assert (Forall (commitment_ok (backend w))
            (commitments_at (storage w) roundId)) as Hcs.
  { apply Forall_forall. intros c Hc. by eapply wf_commit. }
  destruct (settleRound_backend this verify env roundId w _ (wf_plain _ _ Hwf)
              (wf_total _ _ Hwf roundId Hin') Hcs)
    as (_ & _ & Hlt & Hfresh & _ & _ & _ & Hacl).
  fold final in Hlt, Hfresh, Hacl.
  destruct (settleRound_storage this env roundId w)
    as (Hcnt & Hnew & _).
  pose proof (run_trace_evolves this verify tr
                (settleRound_world this env roundId w)) as Hev.
  fold w2 in Hev.
  destruct (evo_frozen _ _ Hev roundId) as (HR & _).
  { unfold round_in_range. rewrite Hcnt. exact Hin. }
  { by rewrite Hnew. }
  destruct (run_trace_backend this verify tr _ Hwf1) as [_ Hframe].
  fold w2 in Hframe.
  split; [by rewrite HR|].
  rewrite Hframe by lia. rewrite Hacl.
  rewrite (active_matchers_all (commitments_at (storage w) roundId))
    by (intros c Hc; by eapply wf_active).
  rewrite (wf_hasDonated _ _ Hwf), (rec_committed _ _ Hrec).
  split; [|auto].
  intros [Hold|[_ ?]]; [|done].
  apply (wf_acl _ _ Hwf) in Hold. lia.
Qed.

(** X10. After a successful donate on a reachable state, and whatever
    calls follow, the donation stays on record, its amount keeps decrypting
    to the accepted input reduced to 64 bits, and a grant on the amount is
    held by the contract and by the donor and by nobody else: no other
    donor, no matcher and no settlement ever gets to read it. *)
Theorem X10_donation_stays_private
    t w env roundId encryptedAmount inputProof w1 r tr a :
  reachable this verify t w ->
  transact this verify env (Donate roundId encryptedAmount inputProof) w
    = (w1, Success r) ->
  let w2 := run_trace this verify tr w1 in
  exists d v,
    donations_at (storage w1) roundId = donations_at (storage w) roundId ++ [d]
    /\ d ∈ donations_at (storage w2) roundId
    /\ Donation.donor d = msg_sender env
    /\ verify this (msg_sender env) encryptedAmount inputProof = Some v
    /\ decrypt (backend w2) (Donation.amount d) = Some (wrap64 v)
    /\ ((Donation.amount d, a) ∈ acl (backend w2)
        <-> a = this \/ a = msg_sender env).
Proof.
  intros Hreach Htx.
  destruct (reachable_wf this verify t w Hreach) as [Hwf _].
  pose proof (wf_transact this verify w env
                (Donate roundId encryptedAmount inputProof) Hwf) as Hwf1.
  rewrite Htx in Hwf1. cbn [fst] in Hwf1.
  apply donate_success in Htx as (Hin & Hs & Hend & Hd & -> & v & Hv & ->).
  intros w2.
  destruct (donate_backend this verify env roundId v w)
    as (_ & Hfresh & _ & HdA & _ & Hacl).
  destruct (donate_storage this env roundId v w)
    as (_ & _ & _ & Hdon & _).
  pose proof (run_trace_evolves this verify tr
                (donate_world this env roundId v w)) as Hev.
  fold w2 in Hev.
  destruct (run_trace_backend this verify tr _ Hwf1) as [He Hframe].
  fold w2 in He, Hframe.
  exists (Donation.mk (msg_sender env) (fresh (backend w))
            (block_timestamp env) roundId), v.
  cbn [Donation.donor Donation.amount].
  split_and!; try done.
  - destruct (evo_donations _ _ Hev roundId) as [l ->].
    rewrite Hdon, !elem_of_app, list_elem_of_singleton. auto.
  - by eapply decrypt_extends.
  - rewrite Hframe by (rewrite Hfresh; lia). rewrite Hacl.
    split; [|intros ?; right; left; auto].
    intros [Hold|[[_ ?]|[? _]]]; [|done|lia].
    apply (wf_acl _ _ Hwf) in Hold. lia.
Qed.

(** X11. In every reachable state a grant on the community total of a
    round is held by the contract and by the addresses that have donated to
    the round, and by nobody else; a matcher who has not donated cannot read
    it. *)
Theorem X11_community_total_readers t w roundId a :
  reachable this verify t w ->
  1 <= roundId <= roundCounter (storage w) ->
  (DonationRound.encryptedCommunityTotal (round_at (storage w) roundId), a)
    ∈ acl (backend w)
  <-> a = this \/ hasDonated_at (storage w) roundId a = true.
Proof.
  intros Hreach Hin.
  destruct (reachable_wf this verify t w Hreach) as [Hwf _].
  destruct (reachable_more this verify t w Hreach) as (_ & Htot & _).
  rewrite (tot_community_acl _ _ Htot) by (apply round_in_range_true; lia).
  by rewrite (wf_hasDonated _ _ Hwf).
Qed.

(** X12. In every reachable state, the matching total and the final total
    of a round that is not settled decrypt to 0; those of a settled round
    decrypt to the matching sum of the round's commitments against its
    community total and to the community total plus that sum, both modulo
    2^64, and the round ended at or before the current time; the public
    final total is 0 in both cases, no function ever writing it. *)
Theorem X12_totals_before_and_after t w roundId :
  reachable this verify t w ->
  1 <= roundId <= roundCounter (storage w) ->
  let R := round_at (storage w) roundId in
  let C := cleartext (backend w) (DonationRound.encryptedCommunityTotal R) in
  let ms := matching_sum (backend w) C (commitments_at (storage w) roundId) in
  (DonationRound.settled R = false ->
     decrypt (backend w) (DonationRound.encryptedMatchingTotal R) = Some 0
     /\ decrypt (backend w) (DonationRound.encryptedFinalTotal R) = Some 0)
  /\ (DonationRound.settled R = true ->
      decrypt (backend w) (DonationRound.encryptedMatchingTotal R)
      = Some (wrap64 ms)
      /\ decrypt (backend w) (DonationRound.encryptedFinalTotal R)
         = Some (wrap64 (C + ms))
      /\ DonationRound.endTime R <= t)
  /\ DonationRound.publicFinalTotal R = 0.
Proof.
  intros Hreach Hin R C ms.
  destruct (reachable_wf this verify t w Hreach) as [Hwf Hsb].
  destruct (reachable_more this verify t w Hreach) as (Hrec & Htot & _).
  assert (round_in_range w roundId = true) as Hk
    by (apply round_in_range_true; lia).
  split_and!.
  - intros Hs. by apply (tot_unsettled _ _ Htot).
  - intros Hs. destruct (tot_settled _ _ Htot roundId Hk Hs) as [HM HF].
    split_and!; [exact HM|exact HF|by apply Hsb].
  - by destruct (rec_round _ _ Hrec roundId Hk) as (_ & _ & _ & _ & ?).
Qed.

(** X13. In every reachable state getRound on an existing round hands
    back a record whose id is the id asked for, whose name is not empty and
    whose start time is before its end time and not after the current
    time. *)
Theorem X13_round_records t w env roundId :
  reachable this verify t w ->
  1 <= roundId <= roundCounter (storage w) ->
  exists R,
    transact this verify env (GetRound roundId) w = (w, Success (RRound R))
    /\ DonationRound.id R = roundId
    /\ DonationRound.name R <> ""
    /\ DonationRound.startTime R < DonationRound.endTime R
    /\ DonationRound.startTime R <= t.
Proof.
  intros Hreach Hin.
  destruct (reachable_more this verify t w Hreach) as (Hrec & _ & _).
  assert (round_in_range w roundId = true) as Hk
    by (apply round_in_range_true; lia).
  destruct (rec_round _ _ Hrec roundId Hk) as (Hid & Hname & Hlt & Hstart & _).
  exists (round_at (storage w) roundId).
  rewrite transact_getRound_run, Hk. done.
Qed.

(** X14. In every reachable state every donation on record of a round
    belongs to an existing round, carries that round's id, was made at or
    after the round's start and before its end, and has an amount that
    decrypts; the donors of a round are pairwise distinct and are exactly
    the addresses whose has-donated flag is set. *)
Theorem X14_donation_records t w roundId :
  reachable this verify t w ->
  let R := round_at (storage w) roundId in
  let ds := donations_at (storage w) roundId in
  (forall d, d ∈ ds ->
     1 <= roundId <= roundCounter (storage w)
     /\ Donation.roundId d = roundId
     /\ DonationRound.startTime R <= Donation.timestamp d
        < DonationRound.endTime R
     /\ is_Some (decrypt (backend w) (Donation.amount d)))
  /\ NoDup (Donation.donor <$> ds)
  /\ (forall a, hasDonated_at (storage w) roundId a = true
                <-> a ∈ Donation.donor <$> ds).
Proof.
  intros Hreach R ds.
  destruct (reachable_wf this verify t w Hreach) as [Hwf _].
  destruct (reachable_more this verify t w Hreach) as (Hrec & _ & _).
  split_and!.
  - intros d Hd.
    destruct (rec_donation _ _ Hrec roundId d Hd)
      as (Hk%round_in_range_true & Hid & Hlo & Hhi).
    split_and!; try done; try lia. by eapply wf_amount.
  - apply (wf_nodup _ _ Hwf).
  - intros a. apply (wf_hasDonated _ _ Hwf).
Qed.

(** X15. In every reachable state every commitment on record of a round
    belongs to an existing round, carries that round's id, was made at or
    after the round's start and before its end, is active, and has a
    maximum and a trigger that decrypt; the matchers of a round are pairwise
    distinct and are exactly the addresses whose has-committed flag is
    set. *)
Theorem X15_commitment_records t w roundId :
  reachable this verify t w ->
  let R := round_at (storage w) roundId in
  let cs := commitments_at (storage w) roundId in
  (forall c, c ∈ cs ->
     1 <= roundId <= roundCounter (storage w)
     /\ MatchingCommitment.roundId c = roundId
     /\ DonationRound.startTime R <= MatchingCommitment.timestamp c
        < DonationRound.endTime R
     /\ MatchingCommitment.isActive c = true
     /\ is_Some (decrypt (backend w) (MatchingCommitment.maxMatchingAmount c))
     /\ is_Some (decrypt (backend w) (MatchingCommitment.minTrigger c)))
  /\ NoDup (MatchingCommitment.matcher <$> cs)
  /\ (forall a, hasCommittedMatching_at (storage w) roundId a = true
                <-> a ∈ MatchingCommitment.matcher <$> cs).
Proof.
  intros Hreach R cs.
  destruct (reachable_wf this verify t w Hreach) as [Hwf _].
  destruct (reachable_more this verify t w Hreach) as (Hrec & _ & _).
  split_and!.
  - intros c Hc.
    destruct (rec_commitment _ _ Hrec roundId c Hc)
      as (Hk%round_in_range_true & Hid & Hlo & Hhi).
    destruct (wf_commit _ _ Hwf roundId c Hc) as [HM HT].
    split_and!; try done; try lia. by eapply wf_active.
  - apply (rec_matchers _ _ Hrec).
  - intros a. apply (rec_committed _ _ Hrec).
Qed.

(** X16. In every reachable state the event log tells the storage: the
    DonationRoundCreated events carry the ids 1, 2, ..., roundCount() in
    this order; the DonationMade events of a round name its donors, and the
    MatchingCommitted events its matchers, in the order of the records; a
    RoundSettled event is logged for a round exactly when the round is
    settled, once, and with 0 as its public total. *)
Theorem X16_event_log t w :
  reachable this verify t w ->
  omap logged_round (events w)
  = Z.of_nat <$> seq 1 (Z.to_nat (roundCounter (storage w)))
  /\ (forall r, omap (logged_donor r) (events w)
                = Donation.donor <$> donations_at (storage w) r)
  /\ (forall r, omap (logged_matcher r) (events w)
                = MatchingCommitment.matcher <$> commitments_at (storage w) r)
  /\ (forall r v,
        (r, v) ∈ omap logged_settlement (events w)
        <-> v = 0 /\ 1 <= r <= roundCounter (storage w)
            /\ DonationRound.settled (round_at (storage w) r) = true)
  /\ NoDup (omap logged_settlement (events w)).
Proof.
  intros Hreach.
  destruct (reachable_more this verify t w Hreach) as (_ & _ & Hev).
  split_and!.
  - apply (ev_rounds _ Hev).
  - apply (ev_donors _ Hev).
  - apply (ev_matchers _ Hev).
  - intros r v. rewrite (ev_settled _ Hev), round_in_range_true.
    split; intros (? & ? & ?); split_and!; try done; lia.
  - apply (ev_settled_once _ Hev).
Qed.



(** X19. Rounds do not interfere: a call that is not a donate, a
    commitMatching or a settleRound on round k leaves the record of an
    existing round k, its donations, its commitments and its flags as they
    were. *)
Theorem X19_rounds_isolated env c w k :
  1 <= k <= roundCounter (storage w) ->
  call_round c <> Some k ->
  let w' := (transact this verify env c w).1 in
  round_at (storage w') k = round_at (storage w) k
  /\ donations_at (storage w') k = donations_at (storage w) k
  /\ commitments_at (storage w') k = commitments_at (storage w) k
  /\ (forall a, hasDonated_at (storage w') k a = hasDonated_at (storage w) k a)
  /\ (forall a, hasCommittedMatching_at (storage w') k a
                = hasCommittedMatching_at (storage w) k a).
Proof.
  intros Hin Hc w'. subst w'.
  destruct (transact_written this verify env c w)
    as [c|name description duration Hname Hdur Hmax Hend
       |r0 e p v Hr0 Hs Hend Hd Hv
       |r0 eMax eMin pMax pMin vMax vMin Hr0 Hs Hend Hd HvM HvT
       |r0 Hr0 Hs Hend].
  - done.
  - destruct (createRound_storage this env name description duration w)
      as (Hcnt & Hnew & Hold & Hdon & Hcom & HhD & HhC & Hlog).
    split_and!; try done. apply Hold. lia.
  - assert (k <> r0) as Hne by (cbn in Hc; congruence).
    destruct (donate_storage this env r0 v w)
      as (Hcnt & Hnew & Hold & Hdon & Hdon' & Hcom & Hset & HhD & HhC & Hlog).
    split_and!; auto. intros a. apply HhD. congruence.
  - assert (k <> r0) as Hne by (cbn in Hc; congruence).
    destruct (commitMatching_storage this env r0 vMax vMin w)
      as (Hcnt & Hround & Hdon & Hcom & Hcom' & HhD & Hset & HhC & Hlog).
    split_and!; auto. intros a. apply HhC. congruence.
  - assert (k <> r0) as Hne by (cbn in Hc; congruence).
    destruct (settleRound_storage this env r0 w)
      as (Hcnt & Hnew & Hold & Hdon & Hcom & HhD & HhC & Hlog).
    split_and!; auto.
Qed.

(** X20. From a reachable state on, whatever calls are made, a ciphertext
    that exists keeps its plaintext and its readers: every function grants
    only on ciphertexts it has made in the same call, and none revokes. *)
Theorem X20_old_ciphertexts_untouched t w tr h a :
  reachable this verify t w ->
  (h < fresh (backend w))%nat ->
  let w2 := run_trace this verify tr w in
  decrypt (backend w2) h = decrypt (backend w) h
  /\ ((h, a) ∈ acl (backend w2) <-> (h, a) ∈ acl (backend w)).
Proof.
  intros [Hwf _]%reachable_wf Hlt w2.
  destruct (run_trace_backend this verify tr w Hwf) as [He Hframe].
  split; [by apply decrypt_extends_lt|by apply Hframe].
Qed.

(** X21. The only call that can end in a panic is a createRound with a
    valid name and duration whose new round counter or end time does not
    fit in 256 bits, and the panic is the arithmetic one: donate,
    commitMatching, settleRound and the views never panic, their array
    accesses and the subtraction in donate's loop bound being always in
    range. *)
Theorem X21_only_createRound_panics env c w code :
  (transact this verify env c w).2 = Failed (Panic code) ->
  exists name description duration,
    c = CreateRound name description duration
    /\ code = PANIC_ARITHMETIC
    /\ name <> "" /\ 0 < duration
    /\ (MAX_UINT256 < roundCounter (storage w) + 1
        \/ MAX_UINT256 < block_timestamp env + duration).
Proof.
  destruct c as [name description duration | roundId e p
                | roundId eMax eMin pMax pMin | roundId | roundId | roundId
                | roundId | roundId | ].
  - rewrite transact_createRound_run.
    destruct (Z.ltb_spec 0 (Z.of_nat (String.length name))); cbn [negb];
      [|discriminate].
    destruct (Z.ltb_spec 0 duration); cbn [negb]; [|discriminate].
    assert (name <> "") as Hname by (intros ->; cbn in *; lia).
    destruct (Z.leb_spec (roundCounter (storage w) + 1) MAX_UINT256);
      cbn [negb]; [|intros [= <-]; exists name, description, duration; auto 7].
    destruct (Z.leb_spec (block_timestamp env + duration) MAX_UINT256);
      cbn [negb]; [discriminate|].
    intros [= <-]. exists name, description, duration. auto 7.
  - rewrite transact_donate_run.
    repeat (case_match; try discriminate).
  - rewrite transact_commitMatching_run.
    repeat (case_match; try discriminate).
  - rewrite transact_viewCurrentEncryptedTotal_run.
    case_match; discriminate.
  - rewrite transact_settleRound_run.
    repeat (case_match; try discriminate).
  - rewrite transact_getRound_run. case_match; discriminate.
  - unfold transact, dispatch, mbind, tx_bind, bind.
    rewrite getDonationCount_run.
    destruct (round_in_range w roundId); discriminate.
  - unfold transact, dispatch, mbind, tx_bind, bind.
    rewrite getMatchingCommitmentCount_run.
    destruct (round_in_range w roundId); discriminate.
  - discriminate.
Qed.

End Extras.

(** * The further properties at work *)

Lemma demo_settled_reachable :
  reachable demo_this demo_verify 90000 demo_settled.
Proof.
  apply (reach_call demo_this demo_verify 1003 demo_open demo_settle_env
           (SettleRound 1)); [apply (demo_after_reachable 4)|cbn; lia].
Qed.

Lemma demo_settled_counter : roundCounter (storage demo_settled) = 1.
Proof. vm_compute. reflexivity. Qed.

(** X1 at work: the matcher of the deployment commits a second time. *)
Lemma X1_witness :
  1 <= 1 <= roundCounter (storage demo_open)
  /\ DonationRound.settled (round_at (storage demo_open) 1) = false
  /\ block_timestamp (mkEnv 4 1004)
     < DonationRound.endTime (round_at (storage demo_open) 1)
  /\ hasCommittedMatching_at (storage demo_open) 1 (msg_sender (mkEnv 4 1004))
     = true
  /\ transact demo_this demo_verify (mkEnv 4 1004)
       (CommitMatching 1 60 300 [1] [1]) demo_open
     = (demo_open, Failed DuplicateCommitment).
Proof.
  assert (1 <= 1 <= roundCounter (storage demo_open)) as Hin
    by (rewrite demo_open_counter; lia).
  assert (DonationRound.settled (round_at (storage demo_open) 1) = false) as Hs
    by (vm_compute; reflexivity).
  assert (block_timestamp (mkEnv 4 1004)
          < DonationRound.endTime (round_at (storage demo_open) 1)) as Hend
    by (vm_compute; reflexivity).
  assert (hasCommittedMatching_at (storage demo_open) 1
            (msg_sender (mkEnv 4 1004)) = true) as Hd
    by (vm_compute; reflexivity).
  refine (conj Hin (conj Hs (conj Hend (conj Hd _)))).
  pose proof (X1_commitMatching_preconditions demo_this demo_verify
                (mkEnv 4 1004) demo_open 1 60 300 [1] [1]) as H.
  cbv zeta in H. destruct H as (_ & _ & _ & H & _). exact (H Hin Hs Hend Hd).
Defined.


(** X3 at work: after the settlement the matcher cannot commit again. *)
Lemma X3_witness :
  round_in_range demo_open 1 = true
  /\ hasCommittedMatching_at (storage demo_open) 1 (msg_sender (mkEnv 4 90001))
     = true
  /\ exists e,
       transact demo_this demo_verify (mkEnv 4 90001)
         (CommitMatching 1 60 300 [1] [1])
         (run_trace demo_this demo_verify [(demo_settle_env, SettleRound 1)]
            demo_open)
       = (run_trace demo_this demo_verify [(demo_settle_env, SettleRound 1)]
            demo_open, Failed e)
       /\ (e = AlreadySettled \/ e = RoundEnded \/ e = DuplicateCommitment).
Proof.
  assert (round_in_range demo_open 1 = true) as Hin by reflexivity.
  assert (hasCommittedMatching_at (storage demo_open) 1
            (msg_sender (mkEnv 4 90001)) = true) as Hd
    by (vm_compute; reflexivity).
  refine (conj Hin (conj Hd _)).
  exact (X3_one_commitment_per_matcher demo_this demo_verify demo_open 1
           (mkEnv 4 90001) [(demo_settle_env, SettleRound 1)] 60 300 [1] [1]
           Hin Hd).
Defined.

(** X4 at work: the first donor cannot donate again after the commitment. *)
Lemma X4_witness :
  round_in_range (demo_after 2) 1 = true
  /\ hasDonated_at (storage (demo_after 2)) 1 (msg_sender (mkEnv 2 1004)) = true
  /\ exists e,
       transact demo_this demo_verify (mkEnv 2 1004) (Donate 1 7 [1])
         (run_trace demo_this demo_verify (drop 2 demo_trace) (demo_after 2))
       = (run_trace demo_this demo_verify (drop 2 demo_trace) (demo_after 2),
          Failed e)
       /\ (e = AlreadySettled \/ e = RoundEnded \/ e = DuplicateDonation).
Proof.
  assert (round_in_range (demo_after 2) 1 = true) as Hin by reflexivity.
  assert (hasDonated_at (storage (demo_after 2)) 1 (msg_sender (mkEnv 2 1004))
          = true) as Hd by (vm_compute; reflexivity).
  refine (conj Hin (conj Hd _)).
  exact (X4_one_donation_per_donor demo_this demo_verify (demo_after 2) 1
           (mkEnv 2 1004) (drop 2 demo_trace) 7 [1] Hin Hd).
Defined.

(** X5 at work: the community total of the deployment decrypts to 300. *)
Lemma X5_witness :
  reachable demo_this demo_verify 1003 demo_open
  /\ 1 <= 1 <= roundCounter (storage demo_open)
  /\ exists h,
       transact demo_this demo_verify (mkEnv 2 1004)
         (ViewCurrentEncryptedTotal 1) demo_open
       = (demo_open, Success (RCiphertext h))
       /\ decrypt (backend demo_open) h = Some 300.
Proof.
  pose proof (demo_after_reachable 4) as Hreach.
  assert (1 <= 1 <= roundCounter (storage demo_open)) as Hin
    by (rewrite demo_open_counter; lia).
  refine (conj Hreach (conj Hin _)).
  pose proof (X5_viewCurrentEncryptedTotal demo_this demo_verify _ _
                (mkEnv 2 1004) 1 Hreach) as H.
  cbv zeta in H. destruct H as [_ H].
  destruct (H Hin) as (h & Hout & _ & Hdec).
  exists h. split; [exact Hout|].
  etrans; [exact Hdec|]. vm_compute. reflexivity.
Defined.

(** X6 at work: the first donor's flag outlives the rest of the trace. *)
Lemma X6_witness :
  hasDonated_at (storage (demo_after 2)) 1 2 = true
  /\ hasDonated_at
       (storage (run_trace demo_this demo_verify (drop 2 demo_trace)
                   (demo_after 2))) 1 2 = true.
Proof.
  assert (hasDonated_at (storage (demo_after 2)) 1 2 = true) as Hd
    by (vm_compute; reflexivity).
  split; [exact Hd|].
  pose proof (X6_history_only_grows demo_this demo_verify (drop 2 demo_trace)
                (demo_after 2) 1) as H.
  cbv zeta in H. destruct H as (_ & _ & _ & _ & H & _). exact (H 2 Hd).
Defined.

(** X7 at work: the settlement leaves the end time of the round alone. *)
Lemma X7_witness :
  1 <= 1 <= roundCounter (storage demo_open)
  /\ DonationRound.endTime
       (round_at (storage (run_trace demo_this demo_verify
                             [(demo_settle_env, SettleRound 1)] demo_open)) 1)
     = DonationRound.endTime (round_at (storage demo_open) 1).
Proof.
  assert (1 <= 1 <= roundCounter (storage demo_open)) as Hin
    by (rewrite demo_open_counter; lia).
  split; [exact Hin|].
  pose proof (X7_round_identity_fixed demo_this demo_verify
                [(demo_settle_env, SettleRound 1)] demo_open 1 Hin) as H.
  cbv zeta in H. destruct H as (_ & _ & _ & _ & _ & H & _). exact H.
Defined.

(** X8 at work: a donation to the settled round of the deployment. *)
Lemma X8_witness :
  reachable demo_this demo_verify 90000 demo_settled
  /\ 1 <= 1 <= roundCounter (storage demo_settled)
  /\ DonationRound.settled (round_at (storage demo_settled) 1) = true
  /\ transact demo_this demo_verify (mkEnv 5 90001) (Donate 1 10 [1])
       (run_trace demo_this demo_verify [] demo_settled)
     = (run_trace demo_this demo_verify [] demo_settled, Failed AlreadySettled).
Proof.
  pose proof demo_settled_reachable as Hreach.
  assert (1 <= 1 <= roundCounter (storage demo_settled)) as Hin
    by (rewrite demo_settled_counter; lia).
  assert (DonationRound.settled (round_at (storage demo_settled) 1) = true)
    as Hs by (vm_compute; reflexivity).
  refine (conj Hreach (conj Hin (conj Hs _))).
  pose proof (X8_settled_round_frozen demo_this demo_verify _ _ 1 [] Hreach
                Hin Hs) as H.
  cbv zeta in H. destruct H as (_ & _ & _ & _ & _ & _ & _ & H & _).
  exact (H (mkEnv 5 90001) 10 [1]).
Defined.

(** X9 at work: the matcher reads the final total, a stranger does not. *)
Lemma X9_witness :
  reachable demo_this demo_verify 1003 demo_open
  /\ transact demo_this demo_verify demo_settle_env (SettleRound 1) demo_open
     = (demo_settled, Success RNone)
  /\ (DonationRound.encryptedFinalTotal (round_at (storage demo_settled) 1), 4)
       ∈ acl (backend (run_trace demo_this demo_verify [] demo_settled))
  /\ (DonationRound.encryptedFinalTotal (round_at (storage demo_settled) 1), 9)
       ∉ acl (backend (run_trace demo_this demo_verify [] demo_settled)).
Proof.
  pose proof (demo_after_reachable 4) as Hreach.
  refine (conj Hreach (conj demo_settle_succeeds _)).
  split.
  - destruct (X9_final_total_readers demo_this demo_verify _ _ _ _ _ _ [] 4
                Hreach demo_settle_succeeds) as [_ H].
    apply H. right; right. vm_compute. reflexivity.
  - intros Hin.
    destruct (X9_final_total_readers demo_this demo_verify _ _ _ _ _ _ [] 9
                Hreach demo_settle_succeeds) as [_ H].
    apply H in Hin.
    destruct Hin as [Hin|[Hin|Hin]]; vm_compute in Hin; discriminate Hin.
Defined.

(** X10 at work: the first donor never reads the second donor's amount. *)
Lemma X10_witness :
  reachable demo_this demo_verify 1001 (demo_after 2)
  /\ transact demo_this demo_verify (mkEnv 3 1002) (Donate 1 200 [1])
       (demo_after 2)
     = (demo_after 3, Success RNone)
  /\ exists d,
       Donation.donor d = 3
       /\ decrypt
            (backend (run_trace demo_this demo_verify (drop 3 demo_trace)
                        (demo_after 3))) (Donation.amount d) = Some 200
       /\ (Donation.amount d, 2)
            ∉ acl (backend (run_trace demo_this demo_verify (drop 3 demo_trace)
                              (demo_after 3))).
Proof.
  pose proof (demo_after_reachable 2) as Hreach.
  assert (transact demo_this demo_verify (mkEnv 3 1002) (Donate 1 200 [1])
            (demo_after 2) = (demo_after 3, Success RNone)) as Htx
    by (vm_compute; reflexivity).
  refine (conj Hreach (conj Htx _)).
  destruct (X10_donation_stays_private demo_this demo_verify _ _ _ _ _ _ _ _
              (drop 3 demo_trace) 2 Hreach Htx)
    as (d & v & _ & _ & Hdonor & Hv & Hdec & Hacl).
  exists d. split_and!.
  - exact Hdonor.
  - etrans; [exact Hdec|]. injection Hv as <-. reflexivity.
  - intros Hin. apply Hacl in Hin.
    destruct Hin as [Hin|Hin]; vm_compute in Hin; discriminate Hin.
Defined.

(** X11 at work: the matcher of the deployment has not donated and does
    not read the community total. *)
Lemma X11_witness :
  reachable demo_this demo_verify 1003 demo_open
  /\ 1 <= 1 <= roundCounter (storage demo_open)
  /\ (DonationRound.encryptedCommunityTotal (round_at (storage demo_open) 1), 4)
       ∉ acl (backend demo_open).
Proof.
  pose proof (demo_after_reachable 4) as Hreach.
  assert (1 <= 1 <= roundCounter (storage demo_open)) as Hin
    by (rewrite demo_open_counter; lia).
  refine (conj Hreach (conj Hin _)).
  intros Hacl.
  apply (X11_community_total_readers demo_this demo_verify _ _ 1 4 Hreach Hin)
    in Hacl.
  destruct Hacl as [Hacl|Hacl]; vm_compute in Hacl; discriminate Hacl.
Defined.

(** X12 at work: before the settlement the final total decrypts to 0. *)
Lemma X12_witness :
  reachable demo_this demo_verify 1003 demo_open
  /\ 1 <= 1 <= roundCounter (storage demo_open)
  /\ DonationRound.settled (round_at (storage demo_open) 1) = false
  /\ decrypt (backend demo_open)
       (DonationRound.encryptedFinalTotal (round_at (storage demo_open) 1))
     = Some 0.
Proof.
  pose proof (demo_after_reachable 4) as Hreach.
  assert (1 <= 1 <= roundCounter (storage demo_open)) as Hin
    by (rewrite demo_open_counter; lia).
  assert (DonationRound.settled (round_at (storage demo_open) 1) = false) as Hs
    by (vm_compute; reflexivity).
  refine (conj Hreach (conj Hin (conj Hs _))).
  pose proof (X12_totals_before_and_after demo_this demo_verify _ _ 1 Hreach
                Hin) as H.
  cbv zeta in H. destruct H as (H & _). exact (proj2 (H Hs)).
Defined.

(** X13 at work: the record of round 1 carries the id 1. *)
Lemma X13_witness :
  reachable demo_this demo_verify 1003 demo_open
  /\ 1 <= 1 <= roundCounter (storage demo_open)
  /\ exists R,
       transact demo_this demo_verify (mkEnv 2 1004) (GetRound 1) demo_open
       = (demo_open, Success (RRound R))
       /\ DonationRound.id R = 1.
Proof.
  pose proof (demo_after_reachable 4) as Hreach.
  assert (1 <= 1 <= roundCounter (storage demo_open)) as Hin
    by (rewrite demo_open_counter; lia).
  refine (conj Hreach (conj Hin _)).
  destruct (X13_round_records demo_this demo_verify _ _ (mkEnv 2 1004) 1
              Hreach Hin) as (R & Hout & Hid & _).
  exists R. split; [exact Hout|exact Hid].
Defined.

(** X14 at work: the donors of round 1 are distinct. *)
Lemma X14_witness :
  reachable demo_this demo_verify 1003 demo_open
  /\ NoDup (Donation.donor <$> donations_at (storage demo_open) 1).
Proof.
  pose proof (demo_after_reachable 4) as Hreach.
  split; [exact Hreach|].
  pose proof (X14_donation_records demo_this demo_verify _ _ 1 Hreach) as H.
  cbv zeta in H. destruct H as (_ & H & _). exact H.
Defined.

(** X15 at work: the address 4 is a matcher of round 1. *)
Lemma X15_witness :
  reachable demo_this demo_verify 1003 demo_open
  /\ hasCommittedMatching_at (storage demo_open) 1 4 = true
  /\ 4 ∈ MatchingCommitment.matcher <$> commitments_at (storage demo_open) 1.
Proof.
  pose proof (demo_after_reachable 4) as Hreach.
  assert (hasCommittedMatching_at (storage demo_open) 1 4 = true) as Hd
    by (vm_compute; reflexivity).
  refine (conj Hreach (conj Hd _)).
  pose proof (X15_commitment_records demo_this demo_verify _ _ 1 Hreach) as H.
  cbv zeta in H. destruct H as (_ & _ & H). exact (proj1 (H 4) Hd).
Defined.

(** X16 at work: the settlement of round 1 is in the log. *)
Lemma X16_witness :
  reachable demo_this demo_verify 90000 demo_settled
  /\ (1, 0) ∈ omap logged_settlement (events demo_settled).
Proof.
  pose proof demo_settled_reachable as Hreach.
  split; [exact Hreach|].
  destruct (X16_event_log demo_this demo_verify _ _ Hreach)
    as (_ & _ & _ & H & _).
  apply H. split; [reflexivity|]. split.
  - rewrite demo_settled_counter. lia.
  - vm_compute. reflexivity.
Defined.



(** X19 at work: creating a second round leaves the donations of the
    first alone. *)
Lemma X19_witness :
  1 <= 1 <= roundCounter (storage demo_open)
  /\ call_round (CreateRound "Second" "More" 100) <> Some 1
  /\ donations_at
       (storage (transact demo_this demo_verify (mkEnv 1 1004)
                   (CreateRound "Second" "More" 100) demo_open).1) 1
     = donations_at (storage demo_open) 1.
Proof.
  assert (1 <= 1 <= roundCounter (storage demo_open)) as Hin
    by (rewrite demo_open_counter; lia).
  assert (call_round (CreateRound "Second" "More" 100) <> Some 1) as Hc
    by discriminate.
  refine (conj Hin (conj Hc _)).
  pose proof (X19_rounds_isolated demo_this demo_verify (mkEnv 1 1004)
                (CreateRound "Second" "More" 100) demo_open 1 Hin Hc) as H.
  cbv zeta in H. destruct H as (_ & H & _). exact H.
Defined.

(** X20 at work: the first donation keeps its plaintext through the
    settlement. *)
Lemma X20_witness :
  reachable demo_this demo_verify 1003 demo_open
  /\ (4 < fresh (backend demo_open))%nat
  /\ decrypt
       (backend (run_trace demo_this demo_verify
                   [(demo_settle_env, SettleRound 1)] demo_open)) 4
     = decrypt (backend demo_open) 4.
Proof.
  pose proof (demo_after_reachable 4) as Hreach.
  assert (4 < fresh (backend demo_open))%nat as Hlt by (vm_compute; lia).
  refine (conj Hreach (conj Hlt _)).
  pose proof (X20_old_ciphertexts_untouched demo_this demo_verify _ _
                [(demo_settle_env, SettleRound 1)] 4 0 Hreach Hlt) as H.
  cbv zeta in H. exact (proj1 H).
Defined.

(** X21 at work: a round whose end time does not fit in 256 bits. *)
Lemma X21_witness :
  (transact demo_this demo_verify (mkEnv 1 1000)
     (CreateRound "Climate" "Support" MAX_UINT256) initial_world).2
  = Failed (Panic 17)
  /\ exists name description duration,
       CreateRound "Climate" "Support" MAX_UINT256
       = CreateRound name description duration
       /\ 17 = PANIC_ARITHMETIC.
Proof.
  assert ((transact demo_this demo_verify (mkEnv 1 1000)
             (CreateRound "Climate" "Support" MAX_UINT256) initial_world).2
          = Failed (Panic 17)) as Hp by (vm_compute; reflexivity).
  split; [exact Hp|].
  destruct (X21_only_createRound_panics demo_this demo_verify _ _ _ _ Hp)
    as (name & description & duration & Hc & Hcode & _).
  exists name, description, duration. split; [exact Hc|exact Hcode].
Defined.
